(** * Career-Guide-Logic: the scoring engine

    A shallow embedding of the numeric core of the repository:
    [CJL-PRO/engine.py] (trait accumulator, normaliser, candidate scorer,
    distribution builder, adaptive question selector, prior from the
    question bank), the ranking helper and the stage loop of
    [CJL-PRO/run.py], and the older variant [CJL/scoring.py] (raw scores,
    normalisation, trait vector, cluster percentages, report, stratified
    sample).

    Numbers.  A Python [float] is modelled as an exact real number of [R]:
    the arithmetic [+ - * /] is that of the reals, comparisons are decided
    with [Rlt_dec].  The rounding error of binary arithmetic is outside the
    model, and so is the range of a double for inputs and intermediate
    values of ordinary size.  The exponential is the one operation that
    leaves the range on ordinary inputs, and the source reacts to that, so
    the range is modelled wherever results of [math.exp] flow:
    - [math.exp] raises [OverflowError] when its result exceeds the largest
      finite double ([DBL_MAX]) and returns 0.0 when the result rounds to
      zero ([DBL_UNDERFLOW]);
    - [sum] of such results is +inf when it exceeds [DBL_MAX];
    - [/] raises [ZeroDivisionError] on a zero divisor;
    - the product that is passed to [math.exp] is +inf or -inf when it
      leaves the range, and [math.exp] returns +inf and 0.0 there without
      raising: this is modelled in the two [_sigmoid] and in [_softmax] of
      [CJL/scoring.py]; in [_softmax] of [CJL-PRO/engine.py] the stored
      value is inf whether [math.exp] returns it or the handler does;
    - the value [float("inf")], which [_softmax] stores on overflow, and the
      [nan] that [inf / inf] would give, live in [xfloat].

    Dictionaries.  A Python [dict] keeps insertion order, and the ranking
    depends on it, so a dictionary is an association list whose keys are
    pairwise distinct ([dict_wf]). *)

From Stdlib Require Import Reals Lra Lia ZArith.
From Stdlib Require Import Sorting.Permutation Sorting.Sorted.
From stdpp Require Import base list strings gmap.

(** ** Exceptions *)

Inductive exn : Type :=
  | OverflowError
  | ZeroDivisionError
  | KeyError.

Definition exn_eqb (a b : exn) : bool :=
  match a, b with
  | OverflowError, OverflowError => true
  | ZeroDivisionError, ZeroDivisionError => true
  | KeyError, KeyError => true
  | _, _ => false
  end.

Inductive result (A : Type) : Type :=
  | Ok (a : A)
  | Raise (e : exn).

Arguments Ok {A} a.
Arguments Raise {A} e.

Definition rbind {A B : Type} (m : result A) (k : A -> result B) : result B :=
  match m with
  | Ok a => k a
  | Raise e => Raise e
  end.

#[global] Instance result_bind : MBind result := fun A B k m => rbind m k.
#[global] Instance result_ret : MRet result := @Ok.

(** [try: body except e: handler] *)
Definition try_except {A : Type} (body : result A) (e : exn) (handler : result A)
  : result A :=
  match body with
  | Ok a => Ok a
  | Raise e' => if exn_eqb e e' then handler else Raise e'
  end.

(** Monadic map over a list, left to right. *)
Fixpoint result_mapM {A B : Type} (f : A -> result B) (l : list A)
  : result (list B) :=
  match l with
  | [] => Ok []
  | x :: xs => y ← f x; ys ← result_mapM f xs; Ok (y :: ys)
  end.

(** ** Floats as reals *)

Module PyFloat.
Local Open Scope R_scope.

(** Values a float variable can hold once infinities are around. *)
Inductive xfloat : Type :=
  | Fin (r : R)
  | PInf
  | NInf
  | NaN.

(** The largest finite double, (2 - 2^-52) * 2^1023. *)
Definition DBL_MAX : R := IZR (2 ^ 1024 - 2 ^ 971).

(** Half the smallest positive double, 2^-1075: what is not above it rounds
    to zero. *)
Definition DBL_UNDERFLOW : R := / IZR (2 ^ 1075).

(** [math.exp] on a finite argument: OverflowError when the result is out
    of range, 0.0 when it underflows. *)
Definition math_exp (x : R) : result R :=
  if Rlt_dec DBL_MAX (exp x) then Raise OverflowError
  else if Rle_dec (exp x) DBL_UNDERFLOW then Ok 0
  else Ok (exp x).

(** [a / b] on finite floats. *)
Definition py_div (a b : R) : result R :=
  if Req_dec_T b 0 then Raise ZeroDivisionError else Ok (a / b).

(** Built-in [max(a, b)] and [min(a, b)]: the first argument is kept unless
    the second one is strictly greater (smaller). *)
Definition py_max (a b : R) : R := if Rlt_dec a b then b else a.
Definition py_min (a b : R) : R := if Rlt_dec b a then b else a.

(** [x or 1.0]: a float is falsy exactly when it is zero. *)
Definition py_or (x d : R) : R := if Req_dec_T x 0 then d else x.

(** Round half to even, the rounding of [round(x, 2)]:
    [Zfloor y] is the lower candidate and the fractional part decides. *)
Definition round_half_even (y : R) : Z :=
  let f := Zfloor y in
  let r := y - IZR f in
  if Rlt_dec r (1 / 2) then f
  else if Rlt_dec (1 / 2) r then (f + 1)%Z
  else if Z.even f then f else (f + 1)%Z.

Definition py_round2 (x : R) : R := IZR (round_half_even (x * 100)) / 100.

(** A real result brought into the range of a double. *)
Definition xrange (r : R) : xfloat :=
  if Rlt_dec DBL_MAX r then PInf
  else if Rlt_dec r (- DBL_MAX) then NInf
  else Fin r.

Definition xadd (a b : xfloat) : xfloat :=
  match a, b with
  | NaN, _ | _, NaN => NaN
  | PInf, NInf | NInf, PInf => NaN
  | PInf, _ | _, PInf => PInf
  | NInf, _ | _, NInf => NInf
  | Fin x, Fin y => xrange (x + y)
  end.

Definition xneg (a : xfloat) : xfloat :=
  match a with
  | Fin x => Fin (- x)
  | PInf => NInf
  | NInf => PInf
  | NaN => NaN
  end.

(** Sign of a finite value applied to an infinity. *)
Definition xscale_inf (x : R) (i : xfloat) : xfloat :=
  if Rlt_dec 0 x then i
  else if Rlt_dec x 0 then xneg i
  else NaN.

Definition xmul (a b : xfloat) : xfloat :=
  match a, b with
  | NaN, _ | _, NaN => NaN
  | Fin x, Fin y => Fin (x * y)
  | Fin x, i => xscale_inf x i
  | i, Fin y => xscale_inf y i
  | PInf, PInf | NInf, NInf => PInf
  | PInf, NInf | NInf, PInf => NInf
  end.

Definition xdiv (a b : xfloat) : result xfloat :=
  match a, b with
  | _, Fin y =>
      if Req_dec_T y 0 then Raise ZeroDivisionError
      else Ok (match a with
               | Fin x => Fin (x / y)
               | NaN => NaN
               | i => xscale_inf y i
               end)
  | NaN, _ | _, NaN => Ok NaN
  | Fin _, _ => Ok (Fin 0)
  | _, _ => Ok NaN
  end.

Definition xround2 (a : xfloat) : xfloat :=
  match a with
  | Fin x => Fin (py_round2 x)
  | other => other
  end.

(** [v == float("inf")] *)
Definition is_inf (a : xfloat) : bool :=
  match a with
  | PInf => true
  | _ => false
  end.

(** [x or 1.0] on extended floats: only zero is falsy. *)
Definition xor_default (x : xfloat) (d : R) : xfloat :=
  match x with
  | Fin r => Fin (py_or r d)
  | other => other
  end.

(** [sum(values)], starting from the integer 0. *)
Definition xsum (l : list xfloat) : xfloat := foldl xadd (Fin 0) l.

(** [round(v / total * 100, 2)], the percentage of both [_softmax]. *)
Definition percent (v total : xfloat) : result xfloat :=
  x ← xdiv v total; Ok (xround2 (xmul x (Fin 100))).

(** [math.exp] on a value that may be infinite: [math.exp(inf)] is inf and
    [math.exp(-inf)] is 0.0, neither raises; nan stays nan. *)
Definition math_exp_x (a : xfloat) : result xfloat :=
  match a with
  | Fin x => e ← math_exp x; Ok (Fin e)
  | PInf => Ok PInf
  | NInf => Ok (Fin 0)
  | NaN => Ok NaN
  end.

(** [a < b] on floats; every comparison with nan is false. *)
Definition xltb (a b : xfloat) : bool :=
  match a, b with
  | NaN, _ | _, NaN => false
  | _, NInf => false
  | NInf, _ => true
  | PInf, _ => false
  | _, PInf => true
  | Fin x, Fin y => if Rlt_dec x y then true else false
  end.

End PyFloat.

(** ** Dictionaries: insertion-ordered association lists *)

Abbreviation dict V := (list (string * V)).

Module Dict.
Section dict.
Context {V : Type}.
Implicit Types d : dict V.

Definition keys d : list string := map fst d.
Definition values d : list V := map snd d.

(** Keys of a dictionary are pairwise distinct. *)
Definition dict_wf d : Prop := NoDup (keys d).

(** [d.get(k)]: [None] when the key is absent. *)
Fixpoint get (k : string) d : option V :=
  match d with
  | [] => None
  | (k', v) :: rest => if decide (k = k') then Some v else get k rest
  end.

(** [d.get(k, dflt)] *)
Definition get_default (k : string) (dflt : V) d : V :=
  default dflt (get k d).

(** [d[k]]: KeyError when the key is absent. *)
Definition getitem (k : string) d : result V :=
  match get k d with
  | Some v => Ok v
  | None => Raise KeyError
  end.

(** [d[k] = v]: an existing key keeps its position, a new key goes last. *)
Fixpoint set (k : string) (v : V) d : dict V :=
  match d with
  | [] => [(k, v)]
  | (k', v') :: rest =>
      if decide (k = k') then (k, v) :: rest else (k', v') :: set k v rest
  end.
End dict.
End Dict.

(** Left-to-right loop over a list whose body may raise. *)
Fixpoint result_foldl {A B : Type} (f : B -> A -> result B) (acc : B) (l : list A)
  : result B :=
  match l with
  | [] => Ok acc
  | x :: xs => acc' ← f acc x; result_foldl f acc' xs
  end.

(** [sorted(l, key=key, reverse=True)].  Python's sort is stable and compares
    keys with [<] only; with [reverse=True] elements with equal keys keep
    their original order.  On keys that are totally ordered the result is
    determined by these two facts, and the insertion sort below computes it:
    an element is moved behind the ones with strictly greater keys only. *)
Section sorted.
Context {A K : Type} (ltb : K -> K -> bool) (key : A -> K).

Fixpoint insert_desc (x : A) (l : list A) : list A :=
  match l with
  | [] => [x]
  | y :: ys =>
      if ltb (key x) (key y) then y :: insert_desc x ys else x :: y :: ys
  end.

Definition sorted_reverse (l : list A) : list A := foldr insert_desc [] l.
End sorted.

(** [s.upper()] on ASCII strings. *)
Definition upper_ascii (c : Ascii.ascii) : Ascii.ascii :=
  let n := Ascii.nat_of_ascii c in
  if (97 <=? n)%nat && (n <=? 122)%nat then Ascii.ascii_of_nat (n - 32) else c.

Fixpoint upper (s : string) : string :=
  match s with
  | EmptyString => EmptyString
  | String c rest => String (upper_ascii c) (upper rest)
  end.

(** ** CJL-PRO/engine.py *)

Module Engine.
Import PyFloat.
Local Open Scope R_scope.

Definition TRAIT_KEYS : list string :=
  ["apt"; "O"; "C"; "E"; "A"; "stab"; "R"; "I"; "Art"]%string.

Definition empty_traits : dict R := map (fun k => (k, 0)) TRAIT_KEYS.

Definition LIKERT_MAP : dict Z :=
  [("A", 2); ("B", 1); ("C", 0); ("D", -1); ("E", -2)]%string%Z.

(** A question record; ["traits"] may be missing ([question.get("traits", {})]). *)
Record question : Type := mk_question {
  q_id : string;
  q_text : string;
  q_traits : option (dict R)
}.

Definition question_traits (q : question) : dict R := default [] (q_traits q).

(** Loop body of [apply_answer]:
    [if trait in updated: updated[trait] += delta * weight]. *)
Definition add_weighted (delta : Z) (updated : dict R) (tw : string * R) : dict R :=
  match Dict.get tw.1 updated with
  | Some v => Dict.set tw.1 (v + IZR delta * tw.2) updated
  | None => updated
  end.

Definition answer_delta (answer : string) : Z :=
  Dict.get_default (upper answer) 0%Z LIKERT_MAP.

(** [apply_answer] on dictionary values: the contents of the returned
    dictionary in terms of the contents of [traits]. *)
Definition apply_answer (traits : dict R) (q : question) (answer : string) : dict R :=
  let delta := answer_delta answer in
  let updated := traits in
  foldl (add_weighted delta) updated (question_traits q).

Definition default_max_weight : R := 2.

Definition normalise_traits (raw : dict R) (n_questions : Z) (max_weight : R)
  : result (dict R) :=
  let bound := py_max (IZR n_questions * max_weight * 2) 1 in
  result_mapM
    (fun kv : string * R =>
       x ← py_div (kv.2 + bound) (2 * bound);
       Ok (kv.1, py_max 0 (py_min 1 x)))
    raw.

Definition default_sharpness : R := 10.

(** The product [-sharpness * (x - 0.5)] is brought into the range of a
    double before [math.exp] sees it: on +inf [math.exp] returns inf
    without raising, and the quotient [1.0 / (1.0 + inf)] is 0.0. *)
Definition _sigmoid (x sharpness : R) : result R :=
  try_except
    (e ← math_exp_x (xrange (- sharpness * (x - 0.5)));
     match e with
     | Fin e => py_div 1 (1 + e)
     | _ => Ok 0
     end)
    OverflowError
    (Ok (if Rlt_dec x 0.5 then 0 else 1)).

Definition default_temperature : R := 4.

(** One iteration of the first loop of [_softmax]. *)
Definition exp_entry (temperature : R) (exp_vals : dict xfloat) (kv : string * R)
  : result (dict xfloat) :=
  try_except
    (e ← math_exp (kv.2 * temperature); Ok (Dict.set kv.1 (Fin e) exp_vals))
    OverflowError
    (Ok (Dict.set kv.1 PInf exp_vals)).

Definition _softmax (scores : dict R) (temperature : R) : result (dict xfloat) :=
  exp_vals ← result_foldl (exp_entry temperature) [] scores;
  let total := xor_default (xsum (Dict.values exp_vals)) 1 in
  let inf_keys :=
    map fst (filter (fun kv : string * xfloat => is_inf kv.2 = true) exp_vals) in
  if bool_decide (inf_keys <> []) then
    share ← py_div 100 (INR (length inf_keys));
    Ok (map (fun k => (k, Fin (if bool_decide (k ∈ inf_keys) then share else 0)))
            (Dict.keys scores))
  else
    result_mapM
      (fun kv : string * xfloat => p ← percent kv.2 total; Ok (kv.1, p))
      exp_vals.

(** A taxonomy node; ["trait_weights"] may be missing. *)
Record node : Type := mk_node {
  n_description : string;
  n_trait_weights : option (dict R)
}.

Definition rsum (l : list R) : R := foldl Rplus 0 l.

Definition node_dot (cfg : node) (norm_traits : dict R) : R :=
  let weights := default [] (n_trait_weights cfg) in
  rsum (map (fun t => Dict.get_default t 0 weights * Dict.get_default t 0.5 norm_traits)
            (Dict.keys weights)).

Definition score_nodes (nodes : dict node) (norm_traits : dict R)
  : result (dict xfloat) :=
  activations ←
    result_foldl
      (fun (activations : dict R) (nc : string * node) =>
         a ← _sigmoid (node_dot nc.2 norm_traits) default_sharpness;
         Ok (Dict.set nc.1 a activations))
      [] nodes;
  _softmax activations default_temperature.

(** Inner function of [select_questions], with [norm_traits] of the
    enclosing call as an argument. *)
Definition informativeness (norm_traits : dict R) (q : question) : R :=
  foldl
    (fun score (tw : string * R) =>
       let current := Dict.get_default tw.1 0.5 norm_traits in
       let uncertainty := 1 - Rabs (current - 0.5) * 2 in
       score + uncertainty * tw.2)
    0 (question_traits q).

Definition Rltb (x y : R) : bool := if Rlt_dec x y then true else false.

(** A mapping argument is truthy when it is given and not empty. *)
Definition truthy {V : Type} (d : option (dict V)) : bool :=
  match d with
  | Some (_ :: _) => true
  | _ => false
  end.

Section select.
(** [random.shuffle] is a parameter: it consumes randomness [rng] and returns
    the list it leaves behind.  [n] is the number of questions asked for, a
    natural number. *)
Context {rng : Type} (shuffle : rng -> list question -> list question).

Definition select_questions (g : rng) (pool : list question) (n : nat)
    (used_ids : gset string) (norm_traits : option (dict R)) : list question :=
  let available := filter (fun q => q_id q ∉ used_ids) pool in
  if truthy norm_traits then
    let available :=
      sorted_reverse Rltb (informativeness (default [] norm_traits)) available in
    let top := take (Nat.min (2 * n) (length available)) available in
    let top := shuffle g top in
    take n top
  else
    let available := shuffle g available in
    take n available.
End select.

End Engine.

(** ** Dictionary objects in a store

    [apply_answer] copies its argument with [dict(traits)] and assigns into
    the copy.  To say that the caller's dictionary is left alone, the
    dictionaries live in a store and are passed by address. *)

Module Store.
Import PyFloat.
Local Open Scope R_scope.

Abbreviation ref := nat.
Abbreviation heap := (list (dict R)).

(** [dict(d)]: a new object with the same items. *)
Definition alloc (d : dict R) (h : heap) : ref * heap := (length h, h ++ [d]).

(** [if trait in updated: updated[trait] += delta * weight], on the object
    at address [updated]. *)
Definition add_weighted (delta : Z) (updated : ref) (h : heap) (tw : string * R)
  : heap :=
  match h !! updated with
  | Some d =>
      match Dict.get tw.1 d with
      | Some v => <[updated := Dict.set tw.1 (v + IZR delta * tw.2) d]> h
      | None => h
      end
  | None => h
  end.

(** [apply_answer] on addresses; [None] only for an address that is not
    allocated, which a Python reference never is. *)
Definition apply_answer (h : heap) (traits : ref) (q : Engine.question)
    (answer : string) : option (ref * heap) :=
  match h !! traits with
  | Some d =>
      let delta := Engine.answer_delta answer in
      let '(updated, h) := alloc d h in
      Some (updated,
            foldl (add_weighted delta updated) h (Engine.question_traits q))
  | None => None
  end.

End Store.

(** ** CJL-PRO/run.py *)

Module Run.
Import PyFloat Engine.

Definition ranked_key (x : string * xfloat * node) : xfloat := x.1.2.

Definition ranked_nodes (probs : dict xfloat) (taxonomy : dict node)
  : result (list (string * xfloat * node)) :=
  items ← result_mapM
             (fun np : string * xfloat =>
                cfg ← Dict.getitem np.1 taxonomy; Ok (np.1, np.2, cfg))
             probs;
  Ok (sorted_reverse xltb ranked_key items).

(** A session: the questions asked so far with their answers, applied to the
    accumulator in order (the loop of [conduct_stage]). *)
Definition apply_answers (traits : dict R) (answered : list (question * string))
  : dict R :=
  foldl (fun acc qa => apply_answer acc qa.1 qa.2) traits answered.

(** Trait vectors that the calls of the engine can produce. *)
Inductive reachable : dict R -> Prop :=
  | reach_empty : reachable empty_traits
  | reach_apply traits q answer :
      reachable traits -> reachable (apply_answer traits q answer)
  | reach_normalise raw n_questions max_weight out :
      reachable raw ->
      normalise_traits raw n_questions max_weight = Ok out ->
      reachable out.

End Run.

(** ** CJL/scoring.py, the older variant *)

Module Scoring.
Import PyFloat.
Local Open Scope R_scope.

(** The product [-12 * (x - 0.5)] is brought into the range of a double
    before [math.exp] sees it.  When [math.exp] returns inf the quotient
    [1.0 / (1.0 + inf)] is 0.0; it never returns -inf or nan here. *)
Definition _sigmoid (x : R) : result R :=
  e ← math_exp_x (xrange (- 12 * (x - 0.5)));
  match e with
  | Fin e => py_div 1 (1 + e)
  | _ => Ok 0
  end.

(** The product [v * 5] is brought into the range of a double before
    [math.exp] sees it, so [exp_vals] may hold inf. *)
Definition _softmax (values : dict R) : result (dict xfloat) :=
  exp_vals ← result_mapM
                (fun kv : string * R =>
                   e ← math_exp_x (xrange (kv.2 * 5)); Ok (kv.1, e))
                values;
  let total := xor_default (xsum (Dict.values exp_vals)) 1 in
  result_mapM
    (fun kv : string * xfloat => p ← percent kv.2 total; Ok (kv.1, p))
    exp_vals.

End Scoring.

(** ** random.shuffle

    The library routine, for lists, with the random draws made explicit:
    [for i in reversed(range(1, len(x))): j = randbelow(i + 1);
     x[i], x[j] = x[j], x[i]]. *)

Module Random.

Definition swap {A : Type} (i j : nat) (x : list A) : list A :=
  match x !! i, x !! j with
  | Some xi, Some xj => <[j := xi]> (<[i := xj]> x)
  | _, _ => x
  end.

Fixpoint shuffle_from {A : Type} (i : nat) (draws : list nat) (x : list A)
  : list A :=
  match i with
  | O => x
  | S i' => shuffle_from i' (tail draws) (swap i (hd 0%nat draws mod S i) x)
  end.

Definition shuffle {A : Type} (draws : list nat) (x : list A) : list A :=
  shuffle_from (length x - 1) draws x.

End Random.

(** ** CJL/scoring.py: from the answers to the question bank to the report *)

Module Bank.
Import PyFloat.
Local Open Scope R_scope.

Definition OPTION_SCORE_POS : dict Z :=
  [("A", 2); ("B", 1); ("C", 0); ("D", -1); ("E", -2)]%string%Z.
Definition OPTION_SCORE_NEG : dict Z :=
  [("A", -2); ("B", -1); ("C", 0); ("D", 1); ("E", 2)]%string%Z.

Definition PERSONALITY_SECTIONS : gset string :=
  {[ "OPENNESS"; "CONSCIENTIOUSNESS"; "EXTRAVERSION";
     "AGREEABLENESS"; "NEUROTICISM";
     "REALISTIC"; "INVESTIGATIVE"; "ARTISTIC" ]}%string.

Definition APTITUDE_SECTION : string := "APTITUDE".

Record section_meta : Type := mk_meta {
  meta_n : Z;
  meta_max : Z
}.

Definition SECTION_META : dict section_meta :=
  [("APTITUDE", mk_meta 40 40);
   ("OPENNESS", mk_meta 20 40);
   ("CONSCIENTIOUSNESS", mk_meta 20 40);
   ("EXTRAVERSION", mk_meta 20 40);
   ("AGREEABLENESS", mk_meta 20 40);
   ("NEUROTICISM", mk_meta 20 40);
   ("REALISTIC", mk_meta 20 40);
   ("INVESTIGATIVE", mk_meta 20 40);
   ("ARTISTIC", mk_meta 20 40)]%string%Z.

(** A question of the bank: ["id"] and ["section"] are read with [q[...]],
    ["correct"] and ["polarity"] with [q.get]. *)
Record question : Type := mk_question {
  q_id : Z;
  q_section : string;
  q_correct : option string;
  q_polarity : option string
}.

(** Loop body of [compute_raw_scores]; [answers] maps question ids to the
    letters given. *)
Definition score_question (answers : gmap Z string) (scores : dict R) (q : question)
  : result (dict R) :=
  let qid := q_id q in
  match answers !! qid with
  | None => Ok scores
  | Some a =>
      let ans := upper a in
      let section := q_section q in
      if decide (section = APTITUDE_SECTION) then
        if decide (ans = default EmptyString (q_correct q)) then
          v ← Dict.getitem section scores;
          Ok (Dict.set section (v + 1) scores)
        else Ok scores
      else if decide (section ∈ PERSONALITY_SECTIONS) then
        let polarity := default "positive"%string (q_polarity q) in
        let mapping :=
          if decide (polarity = "positive"%string)
          then OPTION_SCORE_POS else OPTION_SCORE_NEG in
        v ← Dict.getitem section scores;
        Ok (Dict.set section (v + IZR (Dict.get_default ans 0%Z mapping)) scores)
      else Ok scores
  end.

Definition compute_raw_scores (questions : list question) (answers : gmap Z string)
  : result (dict R) :=
  let scores := map (fun s => (s, 0)) (Dict.keys SECTION_META) in
  result_foldl (score_question answers) scores questions.

(** Loop body of [normalise]. *)
Definition normalise_entry (norm : dict R) (sv : string * R) : result (dict R) :=
  let section := sv.1 in
  let val := sv.2 in
  meta ← Dict.getitem section SECTION_META;
  let mx := IZR (meta_max meta) in
  if decide (section = APTITUDE_SECTION) then
    x ← py_div val mx;
    Ok (Dict.set section (py_max 0 (py_min 1 x)) norm)
  else
    x ← py_div (val + mx) (2 * mx);
    Ok (Dict.set section (py_max 0 (py_min 1 x)) norm).

Definition normalise (raw : dict R) : result (dict R) :=
  result_foldl normalise_entry [] raw.

Definition build_trait_vector (norm : dict R) : dict R :=
  [("apt", Dict.get_default "APTITUDE" 0.5 norm);
   ("O", Dict.get_default "OPENNESS" 0.5 norm);
   ("C", Dict.get_default "CONSCIENTIOUSNESS" 0.5 norm);
   ("E", Dict.get_default "EXTRAVERSION" 0.5 norm);
   ("A", Dict.get_default "AGREEABLENESS" 0.5 norm);
   ("stab", 1 - Dict.get_default "NEUROTICISM" 0.5 norm);
   ("R", Dict.get_default "REALISTIC" 0.5 norm);
   ("I", Dict.get_default "INVESTIGATIVE" 0.5 norm);
   ("Art", Dict.get_default "ARTISTIC" 0.5 norm)]%string.

Record cluster : Type := mk_cluster {
  c_weights : dict R;
  c_roles : list string
}.

Definition CAREER_CLUSTERS : dict cluster :=
  [
   ("STEM / Technology",
    mk_cluster
      [("apt", 0.35); ("I", 0.30); ("C", 0.15); ("O", 0.10); ("E", 0.02); ("A", 0.02); ("stab", 0.03); ("R", 0.03)]
      ["Software Engineer"; "Data Scientist"; "AI Researcher"; "Systems Analyst"]);
   ("Engineering / Trades",
    mk_cluster
      [("apt", 0.20); ("R", 0.35); ("I", 0.20); ("C", 0.15); ("O", 0.05); ("E", 0.02); ("A", 0.01); ("stab", 0.02)]
      ["Mechanical Engineer"; "Electrician"; "Civil Engineer"; "Automotive Technician"]);
   ("Science / Research",
    mk_cluster
      [("apt", 0.25); ("I", 0.35); ("O", 0.20); ("C", 0.12); ("E", 0.02); ("A", 0.03); ("stab", 0.02); ("R", 0.01)]
      ["Biologist"; "Chemist"; "Physicist"; "Epidemiologist"]);
   ("Creative Arts & Design",
    mk_cluster
      [("Art", 0.40); ("O", 0.25); ("E", 0.10); ("C", 0.10); ("apt", 0.05); ("A", 0.05); ("stab", 0.03); ("I", 0.02)]
      ["Graphic Designer"; "UX Designer"; "Film Director"; "Musician"; "Architect"]);
   ("Business / Management",
    mk_cluster
      [("apt", 0.20); ("C", 0.25); ("E", 0.20); ("A", 0.10); ("O", 0.10); ("stab", 0.10); ("I", 0.03); ("R", 0.02)]
      ["Business Analyst"; "Project Manager"; "Entrepreneur"; "Operations Manager"]);
   ("Healthcare / Medicine",
    mk_cluster
      [("apt", 0.20); ("I", 0.22); ("A", 0.22); ("C", 0.18); ("stab", 0.12); ("O", 0.03); ("E", 0.02); ("R", 0.01)]
      ["Doctor"; "Nurse"; "Pharmacist"; "Therapist"; "Dentist"]);
   ("Social Work / Counseling",
    mk_cluster
      [("A", 0.38); ("E", 0.20); ("stab", 0.15); ("O", 0.12); ("C", 0.08); ("apt", 0.04); ("I", 0.02); ("Art", 0.01)]
      ["Social Worker"; "Counselor"; "Community Organizer"; "School Counselor"]);
   ("Education / Academia",
    mk_cluster
      [("O", 0.22); ("A", 0.20); ("C", 0.18); ("E", 0.15); ("I", 0.12); ("apt", 0.08); ("stab", 0.04); ("Art", 0.01)]
      ["Teacher"; "Professor"; "Curriculum Designer"; "Education Administrator"]);
   ("Law / Policy",
    mk_cluster
      [("apt", 0.25); ("E", 0.20); ("C", 0.18); ("O", 0.15); ("A", 0.10); ("I", 0.07); ("stab", 0.03); ("Art", 0.02)]
      ["Lawyer"; "Judge"; "Policy Analyst"; "Public Administrator"]);
   ("Finance / Economics",
    mk_cluster
      [("apt", 0.35); ("C", 0.25); ("I", 0.20); ("stab", 0.10); ("O", 0.05); ("E", 0.02); ("A", 0.02); ("R", 0.01)]
      ["Accountant"; "Financial Analyst"; "Economist"; "Actuary"; "Investment Banker"]);
   ("Communication / Media",
    mk_cluster
      [("Art", 0.25); ("E", 0.25); ("O", 0.20); ("A", 0.12); ("C", 0.08); ("stab", 0.05); ("apt", 0.03); ("I", 0.02)]
      ["Journalist"; "PR Specialist"; "Content Creator"; "Broadcaster"; "Copywriter"]);
   ("Sports / Physical Education",
    mk_cluster
      [("R", 0.30); ("E", 0.25); ("stab", 0.20); ("C", 0.12); ("A", 0.08); ("O", 0.03); ("apt", 0.01); ("I", 0.01)]
      ["Athletic Trainer"; "Sports Coach"; "Physiotherapist"; "PE Teacher"]);
   ("Military / Law Enforcement",
    mk_cluster
      [("R", 0.25); ("C", 0.25); ("stab", 0.25); ("E", 0.10); ("A", 0.08); ("apt", 0.05); ("O", 0.01); ("I", 0.01)]
      ["Police Officer"; "Military Officer"; "Border Security"; "Firefighter"]);
   ("Hospitality / Tourism",
    mk_cluster
      [("E", 0.35); ("A", 0.30); ("O", 0.15); ("C", 0.10); ("stab", 0.07); ("Art", 0.02); ("apt", 0.01)]
      ["Hotel Manager"; "Tour Guide"; "Chef"; "Event Planner"]);
   ("Environment / Agriculture",
    mk_cluster
      [("R", 0.30); ("I", 0.20); ("O", 0.18); ("C", 0.15); ("A", 0.10); ("stab", 0.04); ("apt", 0.02); ("E", 0.01)]
      ["Environmental Scientist"; "Agricultural Manager"; "Park Ranger"; "Forester"])
  ]%string.

(** The weighted sum of [compute_cluster_scores]:
    [sum(w.get(t, 0) * trait_vec.get(t, 0.5) for t in w)]. *)
Definition cluster_dot (w : dict R) (trait_vec : dict R) : R :=
  Engine.rsum
    (map (fun t => Dict.get_default t 0 w * Dict.get_default t 0.5 trait_vec)
         (Dict.keys w)).

Definition compute_cluster_scores (trait_vec : dict R) : result (dict xfloat) :=
  activations ←
    result_foldl
      (fun (activations : dict R) (cc : string * cluster) =>
         let w := c_weights cc.2 in
         let dot := cluster_dot w trait_vec in
         a ← Scoring._sigmoid dot;
         Ok (Dict.set cc.1 a activations))
      [] CAREER_CLUSTERS;
  Scoring._softmax activations.

(** [round(x, 3)] *)
Definition py_round3 (x : R) : R := IZR (round_half_even (x * 1000)) / 1000.

(** The report of [score_assessment]. *)
Record assessment : Type := mk_assessment {
  raw_scores : dict R;
  normalised_traits : dict R;
  career_probabilities : dict (xfloat * list string);
  top_career_cluster : option string
}.

Definition score_assessment (questions : list question) (answers : gmap Z string)
  : result assessment :=
  raw ← compute_raw_scores questions answers;
  norm ← normalise raw;
  let traits := build_trait_vector norm in
  probs ← compute_cluster_scores traits;
  let ranked := sorted_reverse xltb (fun x : string * xfloat => x.2) probs in
  apt ← Dict.getitem "apt" traits;
  o ← Dict.getitem "O" traits;
  c ← Dict.getitem "C" traits;
  e ← Dict.getitem "E" traits;
  a ← Dict.getitem "A" traits;
  stab ← Dict.getitem "stab" traits;
  r ← Dict.getitem "R" traits;
  i ← Dict.getitem "I" traits;
  art ← Dict.getitem "Art" traits;
  career ←
    result_mapM
      (fun cp : string * xfloat =>
         cfg ← Dict.getitem cp.1 CAREER_CLUSTERS;
         Ok (cp.1, (cp.2, c_roles cfg)))
      ranked;
  Ok {| raw_scores := raw;
        normalised_traits :=
          [("aptitude", py_round3 apt);
           ("openness", py_round3 o);
           ("conscientiousness", py_round3 c);
           ("extraversion", py_round3 e);
           ("agreeableness", py_round3 a);
           ("emotional_stability", py_round3 stab);
           ("realistic", py_round3 r);
           ("investigative", py_round3 i);
           ("artistic", py_round3 art)]%string;
        career_probabilities := career;
        top_career_cluster :=
          match ranked with
          | x :: _ => Some x.1
          | [] => None
          end |}.

Definition default_n_per_section : dict nat :=
  [("APTITUDE", 3); ("OPENNESS", 1); ("CONSCIENTIOUSNESS", 2);
   ("EXTRAVERSION", 1); ("AGREEABLENESS", 1); ("NEUROTICISM", 1);
   ("REALISTIC", 2); ("INVESTIGATIVE", 2); ("ARTISTIC", 2)]%string%nat.

(** [by_section.setdefault(s, []).append(q)] *)
Definition group_question (by_section : dict (list question)) (q : question)
  : dict (list question) :=
  let s := q_section q in
  Dict.set s (Dict.get_default s [] by_section ++ [q]) by_section.

Section sampling.
(** [random.sample] and [random.shuffle] are parameters that thread the
    generator state [rng]; the counts of [n_per_section] are natural
    numbers. *)
Context {rng : Type}.
Context (sample : rng -> list question -> nat -> list question * rng).
Context (shuffle : rng -> list question -> list question * rng).

(** Body of the loop over [n_per_section.items()]. *)
Definition sample_section (by_section : dict (list question))
    (acc : list question * rng) (sc : string * nat) : list question * rng :=
  let pool := Dict.get_default sc.1 [] by_section in
  let '(chosen, g) := sample acc.2 pool (Nat.min sc.2 (length pool)) in
  (acc.1 ++ chosen, g).

Definition select_adaptive_questions (g : rng) (all_questions : list question)
    (n_per_section : option (dict nat)) : list question * rng :=
  let n_per_section := default default_n_per_section n_per_section in
  let by_section := foldl group_question [] all_questions in
  let '(selected, g) := foldl (sample_section by_section) ([], g) n_per_section in
  shuffle g selected.
End sampling.

End Bank.

(** ** CJL-PRO/engine.py: the prior from the question bank

    [traits_from_bigfive_bank] imports [scoring] when it is called; the
    module of that name in the repository is [CJL/scoring.py]. *)

Module Prior.
Import PyFloat.

Definition traits_from_bigfive_bank (questions : list Bank.question)
    (answers : gmap Z string) : result (dict R) :=
  raw ← Bank.compute_raw_scores questions answers;
  norm ← Bank.normalise raw;
  let tv := Bank.build_trait_vector norm in
  apt ← Dict.getitem "apt" tv;
  o ← Dict.getitem "O" tv;
  c ← Dict.getitem "C" tv;
  e ← Dict.getitem "E" tv;
  a ← Dict.getitem "A" tv;
  stab ← Dict.getitem "stab" tv;
  r ← Dict.getitem "R" tv;
  i ← Dict.getitem "I" tv;
  art ← Dict.getitem "Art" tv;
  Ok [("apt", apt); ("O", o); ("C", c); ("E", e); ("A", a); ("stab", stab);
      ("R", r); ("I", i); ("Art", art)]%string.

End Prior.

(** ** CJL-PRO/run.py: one stage of the interview

    [ask_question] talks to the terminal.  Here it is a parameter [ask]: the
    letter it returns for a question shown as number [num] of [total], or
    [None] when it does not return ([sys.exit] on end of input).  The header
    that [conduct_stage] prints, and the [field] and [subfield] it prints it
    with, are left out.  The set [used_ids] is updated in place by the
    source; the stage returns it next to the accumulator. *)

Module Stage.
Import PyFloat Engine.

Section stage.
Context {rng : Type} (shuffle : rng -> list question -> list question).
Context (ask : question -> nat -> nat -> Z -> bool -> option string).

(** The loop [for i, q in enumerate(pool, 1)] from position [i] on. *)
Fixpoint ask_all (stage : Z) (demo : bool) (total : nat) (i : nat)
    (pool : list question) (trait_acc : dict R) (used_ids : gset string)
  : option (dict R * gset string) :=
  match pool with
  | [] => Some (trait_acc, used_ids)
  | q :: rest =>
      match ask q i total stage demo with
      | None => None
      | Some ans =>
          ask_all stage demo total (S i) rest
            (apply_answer trait_acc q ans) (used_ids ∪ {[q_id q]})
      end
  end.

Definition conduct_stage (g : rng) (stage : Z) (questions : list question) (n : nat)
    (trait_acc : dict R) (used_ids : gset string) (demo : bool)
  : result (option (dict R * gset string)) :=
  norm ← normalise_traits trait_acc (Z.max (Z.of_nat (size used_ids)) 1)
                          default_max_weight;
  let pool := select_questions shuffle g questions n used_ids (Some norm) in
  Ok (ask_all stage demo (length pool) 1 pool trait_acc used_ids).
End stage.

End Stage.

(** * Vocabulary of the properties

    Quantities the statements below talk about.  None of them is used by the
    embedding above. *)

Module Vocabulary.
Import PyFloat Engine.
Local Open Scope R_scope.

(** The words of the specification for the normaliser: the symmetric bound
    and the clamp. *)
Definition spec_bound (n_answered : Z) (max_abs_weight : R) : R :=
  Rmax (IZR n_answered * max_abs_weight * 2) 1.

Definition spec_clamp (x lo hi : R) : R := Rmax lo (Rmin hi x).

Definition spec_normalise (n_answered : Z) (max_abs_weight : R) (v : R) : R :=
  let bound := spec_bound n_answered max_abs_weight in
  spec_clamp ((v + bound) / (2 * bound)) 0 1.

(** Sum of the weights a question's trait list declares for [k]
    (one weight, or none, when the list is a dictionary). *)
Fixpoint declared_weight (k : string) (l : dict R) : R :=
  match l with
  | [] => 0
  | (k', w) :: rest => (if decide (k = k') then w else 0) + declared_weight k rest
  end.

(** What one answered question adds to the running total of trait [t]. *)
Definition contribution (t : string) (qa : question * string) : R :=
  IZR (answer_delta qa.2) * declared_weight t (question_traits qa.1).

Definition total_contribution (t : string) (answered : list (question * string)) : R :=
  foldr (fun qa acc => contribution t qa + acc) 0 answered.


(** [math.exp] raises on the finite double [y]: its result is out of
    range. *)
Definition exp_raises (y : R) : Prop := y <= DBL_MAX /\ DBL_MAX < exp y.

#[global] Instance exp_raises_dec y : Decision (exp_raises y) :=
  and_dec (Rle_dec _ _) (Rlt_dec _ _).

(** What [math.exp] returns when it returns. *)
Definition fexp (x : R) : R :=
  if Rle_dec (exp x) DBL_UNDERFLOW then 0 else exp x.

(** The exponent the activation feeds to [math.exp]. *)
Definition exponent (sharpness x : R) : R := - sharpness * (x - 0.5).

(** The temperature-scaled exponential of one activation overflows. *)
Definition overflows (temperature v : R) : Prop := DBL_MAX < exp (v * temperature).

#[global] Instance overflows_dec T v : Decision (overflows T v) := Rlt_dec _ _.

(** What the first loop of [_softmax] stores for an activation. *)
Definition xexp (temperature v : R) : xfloat :=
  if Rlt_dec DBL_MAX (exp (v * temperature)) then PInf
  else Fin (fexp (v * temperature)).

Definition exp_vals_of (T : R) (scores : dict R) : dict xfloat :=
  map (fun kv : string * R => (kv.1, xexp T kv.2)) scores.

(** The candidates whose exponential overflowed. *)
Definition overflowed (T : R) (scores : dict R) : dict R :=
  filter (fun kv : string * R => overflows T kv.2) scores.

(** The exponentials as [math.exp] returns them, and their [total]. *)
Definition exps_of (T : R) (scores : dict R) : list R :=
  map (fun kv : string * R => fexp (kv.2 * T)) scores.

Definition xtotal_of (T : R) (scores : dict R) : xfloat :=
  xor_default (xsum (map Fin (exps_of T scores))) 1.

(** The percentage of a finite exponential [e] for a given [total]. *)
Definition xshare (total : xfloat) (e : R) : xfloat :=
  match total with
  | Fin t => Fin (py_round2 (e / t * 100))
  | NaN => NaN
  | _ => Fin (py_round2 (0 * 100))
  end.

(** The exponentials are in the range of a double: at least one of them
    does not underflow to zero, and their sum does not overflow. *)
Definition in_range (T : R) (scores : dict R) : Prop :=
  Exists (fun kv : string * R => DBL_UNDERFLOW < exp (kv.2 * T)) scores /\
  rsum (map (fun kv : string * R => exp (kv.2 * T)) scores) <= DBL_MAX.

(** The percentages of an in-range dictionary. *)
Definition percentages_of (T : R) (scores : dict R) : list R :=
  map (fun kv : string * R =>
         py_round2 (fexp (kv.2 * T) / rsum (exps_of T scores) * 100))
      scores.

(** Six candidates with the same activation. *)
Definition six_equal : dict R :=
  [("a", 0); ("b", 0); ("c", 0); ("d", 0); ("e", 0); ("f", 0)]%string.

(** [a] occurs before [b] in [l]. *)
Definition occurs_before {A : Type} (l : list A) (a b : A) : Prop :=
  exists l1 l2 l3, l = l1 ++ a :: l2 ++ b :: l3.

(** Where [a] may stand before [b] in the result of sorting [l]: its key is
    strictly greater, or the keys are equal and [a] came first in [l]. *)
Definition ranks_before {A : Type} (val : A -> R) (l : list A) (a b : A) : Prop :=
  (val b < val a)%R \/ (val a = val b /\ occurs_before l a b).

(** The comparison of keys is the order of the real values [val]. *)
Definition key_order {A K : Type} (ltb : K -> K -> bool) (key : A -> K)
    (val : A -> R) (l : list A) : Prop :=
  forall a b, a ∈ l -> b ∈ l -> ltb (key a) (key b) = true <-> (val a < val b)%R.

(** The activation [score_nodes] computes for a node. *)
Definition activation (norm_traits : dict R) (cfg : node) : R :=
  let x := node_dot cfg norm_traits in
  if Rlt_dec DBL_MAX (exp (exponent default_sharpness x))
  then (if Rlt_dec x 0.5 then 0 else 1)
  else 1 / (1 + fexp (exponent default_sharpness x)).

Definition activations_of (norm_traits : dict R) (nodes : dict node) : dict R :=
  map (fun nc : string * node => (nc.1, activation norm_traits nc.2)) nodes.

(** The percentage [score_nodes] gives to a node. *)
Definition node_percentage (norm_traits : dict R) (nodes : dict node) (cfg : node)
  : xfloat :=
  xshare (xtotal_of default_temperature (activations_of norm_traits nodes))
         (fexp (activation norm_traits cfg * default_temperature)).

Definition ranked_name (x : string * xfloat * node) : string := x.1.1.

(** The real value of a percentage (all percentages here are finite). *)
Definition ranked_value (x : string * xfloat * node) : R :=
  match Run.ranked_key x with
  | Fin p => p
  | _ => 0
  end.

Definition ranked_item (nt : dict R) (nodes : dict node) (nc : string * node)
  : string * xfloat * node :=
  (nc.1, node_percentage nt nodes nc.2, nc.2).

End Vocabulary.

(** * Vocabulary of the further properties *)

Module Glossary.
Import PyFloat Engine Vocabulary.
Local Open Scope R_scope.

(** The order of the reals is decided by [Rlt_dec]. *)
#[export] Instance Rlt_decision (x y : R) : Decision (x < y) := Rlt_dec x y.

(** A value between 0 and 1. *)
Definition unit_interval (v : R) : Prop := 0 <= v <= 1.

(** A finite percentage between 0 and 100. *)
Definition is_percentage (p : xfloat) : Prop :=
  exists r, p = Fin r /\ 0 <= r <= 100.

(** With traits [norm_traits], question [q] is strictly more informative
    than question [c]. *)
Definition more_informative (norm_traits : dict R) (c q : question) : Prop :=
  informativeness norm_traits c < informativeness norm_traits q.

#[global] Instance more_informative_dec nt c q : Decision (more_informative nt c q) :=
  Rlt_dec _ _.

(** The questions a stage puts to the user: what [conduct_stage] selects
    before its loop. *)
Definition stage_pool {rng : Type} (shuffle : rng -> list question -> list question)
    (g : rng) (questions : list question) (n : nat) (trait_acc : dict R)
    (used_ids : gset string) : list question :=
  match normalise_traits trait_acc (Z.max (Z.of_nat (size used_ids)) 1)
                         default_max_weight with
  | Ok norm => select_questions shuffle g questions n used_ids (Some norm)
  | Raise _ => []
  end.

(** The ids of a list of questions. *)
Definition ids (l : list question) : list string := map q_id l.

(** A question of the bank counts for section [s]: it has an answer and it
    belongs to [s]. *)
Definition counts_for (answers : gmap Z string) (s : string) (q : Bank.question)
  : Prop :=
  is_Some (answers !! Bank.q_id q) /\ Bank.q_section q = s.

#[global] Instance counts_for_dec answers s q : Decision (counts_for answers s q) :=
  and_dec _ _.

(** The number of answered questions of section [s]. *)
Definition answered_in (answers : gmap Z string) (questions : list Bank.question)
    (s : string) : Z :=
  Z.of_nat (length (filter (counts_for answers s) questions)).

(** What one question may add to the score of section [s]. *)
Definition step_bound (answers : gmap Z string) (q : Bank.question) (s : string)
    (d : Z) : Prop :=
  (counts_for answers s q \/ d = 0%Z) /\
  (if decide (s = Bank.APTITUDE_SECTION)
   then (0 <= d <= 1)%Z else (-2 <= d <= 2)%Z).

(** What the score of a section may have gained after a list of
    questions. *)
Definition total_bound (answers : gmap Z string) (qs : list Bank.question)
    (s : string) (z : Z) : Prop :=
  if decide (s = Bank.APTITUDE_SECTION)
  then (0 <= z <= answered_in answers qs s)%Z
  else (- 2 * answered_in answers qs s <= z <= 2 * answered_in answers qs s)%Z.

(** A question that can change a raw score: it has an answer and its
    section is one of the table. *)
Definition scored (answers : gmap Z string) (q : Bank.question) : Prop :=
  is_Some (answers !! Bank.q_id q) /\
  Bank.q_section q ∈ Dict.keys Bank.SECTION_META.

#[global] Instance scored_dec answers q : Decision (scored answers q) :=
  and_dec _ _.

(** The normalised score of a section with raw score [val]: the table gives
    40 as the maximum of every section. *)
Definition section_share (section : string) (val : R) : R :=
  spec_clamp (if decide (section = Bank.APTITUDE_SECTION)
              then val / 40 else (val + 40) / (2 * 40)) 0 1.

(** The exponent [compute_cluster_scores] has for a cluster. *)
Definition cluster_exponent (trait_vec : dict R) (cfg : Bank.cluster) : R :=
  - 12 * (Bank.cluster_dot (Bank.c_weights cfg) trait_vec - 0.5).

(** The activation [compute_cluster_scores] computes for a cluster: 0.0
    when the exponent itself is out of range. *)
Definition cluster_activation (trait_vec : dict R) (cfg : Bank.cluster) : R :=
  if Rlt_dec DBL_MAX (cluster_exponent trait_vec cfg) then 0
  else 1 / (1 + fexp (cluster_exponent trait_vec cfg)).

Definition cluster_activations (trait_vec : dict R) : dict R :=
  map (fun cc : string * Bank.cluster => (cc.1, cluster_activation trait_vec cc.2))
      Bank.CAREER_CLUSTERS.

(** [math.exp] raises in the activation of cluster [cc]: the exponent is a
    finite double and its exponential is out of range. *)
Definition cluster_overflows (trait_vec : dict R) (cc : string * Bank.cluster)
  : Prop :=
  exp_raises (cluster_exponent trait_vec cc.2).

#[global] Instance cluster_overflows_dec tv cc : Decision (cluster_overflows tv cc) :=
  exp_raises_dec _.

(** What [_softmax] of CJL gives a value whose product with 5 is +inf
    (nan, from inf / inf) and what it gives any other value. *)
Definition cjl_share (v : R) (p : xfloat) : Prop :=
  if Rlt_dec DBL_MAX (v * 5) then p = NaN else is_percentage p.

(** The number of questions the table of sections declares for a section
    whose raw score is normalised without cutting off: 40 aptitude
    questions, 20 questions of every other section. *)
Definition declared_size (s : string) : Z :=
  if decide (s = Bank.APTITUDE_SECTION) then 40%Z else 20%Z.

(** The real value of a finite float. *)
Definition real_of (p : xfloat) : R :=
  match p with
  | Fin r => r
  | _ => 0
  end.

(** What [random.sample] may return for the section and count [sc]: a
    sub-multiset of the questions of the section, of the size asked for as
    far as the section has that many. *)
Definition sampled (all_questions : list Bank.question) (sc : string * nat)
    (c : list Bank.question) : Prop :=
  c ⊆+ filter (fun q => Bank.q_section q = sc.1) all_questions /\
  length c =
    Nat.min sc.2
      (length (filter (fun q => Bank.q_section q = sc.1) all_questions)).

(** The sample roles of a cluster of the table. *)
Definition cluster_roles (c : string) : list string :=
  match Dict.get c Bank.CAREER_CLUSTERS with
  | Some cfg => Bank.c_roles cfg
  | None => []
  end.

(** The names under which [score_assessment] reports the traits. *)
Definition report_names : list string :=
  ["aptitude"; "openness"; "conscientiousness"; "extraversion"; "agreeableness";
   "emotional_stability"; "realistic"; "investigative"; "artistic"]%string.

End Glossary.

(** * Properties *)

Import Vocabulary.

(** Distinctness of the keys of a dictionary literal. *)
Ltac dict_literal_wf :=
  unfold Dict.dict_wf; apply (bool_decide_unpack _); by vm_compute.

(** ** The result monad *)

Lemma result_mapM_pure {A B : Type} (f : A -> result B) (g : A -> B) (l : list A) :
  (forall x, x ∈ l -> f x = Ok (g x)) -> result_mapM f l = Ok (map g l).
Proof.
  induction l as [|x xs IH]; intros Hf; simpl; [reflexivity|].
  rewrite Hf by left. simpl.
  rewrite IH by (intros y Hy; apply Hf; now right).
  reflexivity.
Qed.

Lemma result_mapM_map {A B C : Type} (f : B -> result C) (h : A -> B) (g : A -> C)
    (l : list A) :
  (forall x, x ∈ l -> f (h x) = Ok (g x)) ->
  result_mapM f (map h l) = Ok (map g l).
Proof.
  induction l as [|x xs IH]; intros Hf; simpl; [reflexivity|].
  rewrite Hf by left. simpl.
  rewrite IH by (intros y Hy; apply Hf; now right).
  reflexivity.
Qed.

(** ** Arithmetic of the float model *)

Module PyFloatFacts.
Import PyFloat.
Local Open Scope R_scope.

Lemma py_max_Rmax a b : py_max a b = Rmax a b.
Proof.
  unfold py_max, Rmax.
  destruct (Rlt_dec a b), (Rle_dec a b); lra.
Qed.

Lemma py_min_Rmin a b : py_min a b = Rmin a b.
Proof.
  unfold py_min, Rmin.
  destruct (Rlt_dec b a), (Rle_dec a b); lra.
Qed.

Lemma py_div_nonzero a b : b <> 0 -> py_div a b = Ok (a / b).
Proof.
  intros Hb. unfold py_div. destruct (Req_dec_T b 0); [contradiction|reflexivity].
Qed.

Lemma py_div_zero a : py_div a 0 = Raise ZeroDivisionError.
Proof.
  unfold py_div. destruct (Req_dec_T 0 0); [reflexivity|lra].
Qed.

End PyFloatFacts.

(** ** The normaliser *)

Module Normaliser.
Import PyFloat PyFloatFacts Engine.
Local Open Scope R_scope.

Lemma spec_bound_ge_1 n mw : 1 <= spec_bound n mw.
Proof. unfold spec_bound. apply Rmax_r. Qed.

Lemma spec_clamp_range x : 0 <= spec_clamp x 0 1 <= 1.
Proof.
  unfold spec_clamp. split; [apply Rmax_l|].
  apply Rmax_lub; [lra|apply Rmin_l].
Qed.

Lemma spec_clamp_mono x y : x <= y -> spec_clamp x 0 1 <= spec_clamp y 0 1.
Proof.
  intros Hxy. unfold spec_clamp.
  apply Rle_max_compat_l, Rle_min_compat_l, Hxy.
Qed.

(** The code never raises and computes what the specification words say. *)
Lemma normalise_traits_spec (raw : dict R) (n : Z) (mw : R) :
  normalise_traits raw n mw =
  Ok (map (fun kv : string * R => (kv.1, spec_normalise n mw kv.2)) raw).
Proof.
  unfold normalise_traits. apply result_mapM_pure. intros [k v] _. simpl.
  rewrite py_max_Rmax. fold (spec_bound n mw).
  pose proof (spec_bound_ge_1 n mw) as Hb.
  rewrite py_div_nonzero by lra. simpl.
  rewrite py_max_Rmax, py_min_Rmin. reflexivity.
Qed.

Lemma normalise_traits_keys raw n mw out :
  normalise_traits raw n mw = Ok out -> Dict.keys out = Dict.keys raw.
Proof.
  rewrite normalise_traits_spec. intros [= <-].
  unfold Dict.keys. rewrite map_map. reflexivity.
Qed.

(** C4: for every raw trait mapping, every integer [n_answered] and every
    [max_abs_weight], [normalise_traits] returns the mapping that sends each
    raw value [v] to [clamp((v + bound) / (2 * bound), 0, 1)] with
    [bound = max(n_answered * max_abs_weight * 2, 1.0)], and every output
    value lies in [0, 1]. *)
Theorem normalise_traits_clamped (raw : dict R) (n_answered : Z) (max_abs_weight : R) :
  exists out,
    normalise_traits raw n_answered max_abs_weight = Ok out /\
    out = map (fun kv : string * R =>
                 let bound := Rmax (IZR n_answered * max_abs_weight * 2) 1 in
                 (kv.1, Rmax 0 (Rmin 1 ((kv.2 + bound) / (2 * bound))))) raw /\
    Forall (fun kv : string * R => 0 <= kv.2 <= 1) out.
Proof.
  eexists. split; [apply normalise_traits_spec|]. split; [reflexivity|].
  apply Forall_forall. intros [k v] Hin.
  apply list_elem_of_fmap in Hin as [[k' v'] [[= -> ->] _]]. simpl.
  apply spec_clamp_range.
Qed.

(** C7: an accumulator whose totals are all zero, normalised with
    [n_answered = 0] and any [max_abs_weight], has every trait at exactly
    0.5, and the division is defined (no ZeroDivisionError). *)
Theorem normalise_zero_midpoint (raw : dict R) (max_abs_weight : R) :
  Forall (fun kv : string * R => kv.2 = 0) raw ->
  normalise_traits raw 0 max_abs_weight =
  Ok (map (fun kv : string * R => (kv.1, 0.5)) raw).
Proof.
  intros Hz. rewrite normalise_traits_spec. f_equal.
  apply map_ext_in. intros [k v] Hin.
  rewrite Forall_forall in Hz. specialize (Hz (k, v)). simpl in *.
  rewrite Hz by (now apply list_elem_of_In). f_equal.
  unfold spec_normalise, spec_bound, spec_clamp.
  replace (0 * max_abs_weight * 2) with 0 by lra.
  rewrite (Rmax_right 0 1) by lra.
  replace ((0 + 1) / (2 * 1)) with 0.5 by lra.
  rewrite (Rmin_right 1 0.5) by lra. rewrite Rmax_right by lra. reflexivity.
Qed.

Lemma normalise_zero_midpoint_witness :
  Forall (fun kv : string * R => kv.2 = 0) empty_traits /\
  normalise_traits empty_traits 0 default_max_weight =
  Ok (map (fun kv : string * R => (kv.1, 0.5)) empty_traits).
Proof.
  assert (H : Forall (fun kv : string * R => kv.2 = 0) empty_traits).
  { unfold empty_traits, TRAIT_KEYS. simpl. repeat constructor. }
  split; [exact H|]. apply (normalise_zero_midpoint empty_traits default_max_weight H).
Defined.

End Normaliser.

(** ** Dictionary lemmas *)

Module DictFacts.
Import Dict.
Section facts.
Context {V : Type}.
Implicit Types (d : dict V) (k : string) (v : V).

Lemma get_set_eq k v d : get k (set k v d) = Some v.
Proof.
  induction d as [|[k' v'] rest IH]; simpl.
  - rewrite decide_True; done.
  - destruct (decide (k = k')) as [->|Hne]; simpl.
    + rewrite decide_True; done.
    + rewrite decide_False; done.
Qed.

Lemma get_set_ne k k' v d : k <> k' -> get k' (set k v d) = get k' d.
Proof.
  intros Hne. induction d as [|[k0 v0] rest IH]; simpl.
  - rewrite decide_False; [done|congruence].
  - destruct (decide (k = k0)) as [->|Hk]; simpl.
    + rewrite !decide_False; [done|congruence|congruence].
    + destruct (decide (k' = k0)); done.
Qed.

Lemma get_Some_keys k v d : get k d = Some v -> k ∈ keys d.
Proof.
  induction d as [|[k' v'] rest IH]; simpl; [done|].
  destruct (decide (k = k')) as [->|Hne]; intros H.
  - left.
  - right. auto.
Qed.

Lemma get_None_keys k d : get k d = None -> k ∉ keys d.
Proof.
  induction d as [|[k' v'] rest IH]; simpl; intros H.
  - apply not_elem_of_nil.
  - destruct (decide (k = k')) as [->|Hne]; [done|].
    apply not_elem_of_cons. split; auto.
Qed.

(** Assigning to a key that is present keeps the key list as it is. *)
Lemma keys_set_present k v d : k ∈ keys d -> keys (set k v d) = keys d.
Proof.
  induction d as [|[k' v'] rest IH]; simpl; intros Hin.
  - by apply elem_of_nil in Hin.
  - destruct (decide (k = k')) as [->|Hne]; simpl; [done|].
    apply elem_of_cons in Hin as [?|Hin]; [done|].
    f_equal. by apply IH.
Qed.

(** Assigning to a new key appends it. *)
Lemma set_absent k v d : k ∉ keys d -> set k v d = d ++ [(k, v)].
Proof.
  induction d as [|[k' v'] rest IH]; simpl; intros Hin; [done|].
  apply not_elem_of_cons in Hin as [Hne Hin].
  rewrite decide_False by done. f_equal. by apply IH.
Qed.

Lemma get_elem_of k v d : dict_wf d -> (k, v) ∈ d -> get k d = Some v.
Proof.
  unfold dict_wf. induction d as [|[k' v'] rest IH]; simpl; intros Hwf Hin.
  - by apply elem_of_nil in Hin.
  - apply NoDup_cons in Hwf as [Hnotin Hwf].
    apply elem_of_cons in Hin as [[= -> ->]|Hin].
    + rewrite decide_True; done.
    + destruct (decide (k = k')) as [->|Hne]; [|by apply IH].
      exfalso. apply Hnotin.
      change k' with (fst (k', v)). by apply list_elem_of_fmap_2.
Qed.

End facts.
End DictFacts.

(** ** The trait accumulator *)

Module Accumulator.
Import Dict DictFacts PyFloat Engine.
Local Open Scope R_scope.



Lemma add_weighted_keys delta d tw : keys (add_weighted delta d tw) = keys d.
Proof.
  unfold add_weighted. destruct (get tw.1 d) as [v|] eqn:Hget; [|done].
  apply keys_set_present. by eapply get_Some_keys.
Qed.

Lemma add_weighted_get delta d tw k :
  get k (add_weighted delta d tw) =
  (fun v => v + IZR delta * (if decide (k = tw.1) then tw.2 else 0)) <$> get k d.
Proof.
  unfold add_weighted. destruct (decide (k = tw.1)) as [->|Hne].
  - destruct (get tw.1 d) as [v|] eqn:Hget; simpl.
    + by rewrite get_set_eq.
    + by rewrite Hget.
  - destruct (get tw.1 d) as [v|] eqn:Hget.
    + rewrite get_set_ne by done.
      destruct (get k d); simpl; [f_equal; lra|done].
    + destruct (get k d); simpl; [f_equal; lra|done].
Qed.

Lemma foldl_add_weighted_keys delta l d :
  keys (foldl (add_weighted delta) d l) = keys d.
Proof.
  revert d. induction l as [|tw rest IH]; intros d; simpl; [done|].
  by rewrite IH, add_weighted_keys.
Qed.

Lemma foldl_add_weighted_get delta l d k :
  get k (foldl (add_weighted delta) d l) =
  (fun v => v + IZR delta * declared_weight k l) <$> get k d.
Proof.
  revert d. induction l as [|[k' w] rest IH]; intros d; simpl.
  - destruct (get k d); simpl; [f_equal; lra|done].
  - rewrite IH, add_weighted_get. simpl.
    destruct (get k d); simpl; [f_equal; lra|done].
Qed.

(** Questions never add or remove keys. *)
Lemma apply_answer_keys traits q answer :
  keys (apply_answer traits q answer) = keys traits.
Proof. apply foldl_add_weighted_keys. Qed.

(** The total of trait [k] after one answer. *)
Lemma apply_answer_get traits q answer k :
  get k (apply_answer traits q answer) =
  (fun v => v + IZR (answer_delta answer) * declared_weight k (question_traits q))
    <$> get k traits.
Proof. apply foldl_add_weighted_get. Qed.

End Accumulator.

(** ** The accumulator never touches its argument *)

Module Frame.
Import Dict DictFacts PyFloat Engine Accumulator.
Local Open Scope R_scope.






(** C10: every trait vector reachable from [empty_traits()] through
    [apply_answer] and [normalise_traits] has exactly the nine keys of
    [TRAIT_KEYS], in that order and without repetition. *)
Theorem reachable_keys (traits : dict R) :
  Run.reachable traits ->
  keys traits = TRAIT_KEYS /\ dict_wf traits /\ length (keys traits) = 9%nat.
Proof.
  intros Hr.
  assert (Hk : keys traits = TRAIT_KEYS).
  { induction Hr as [|t q a _ IH|raw n mw out _ IH Hn].
    - reflexivity.
    - by rewrite apply_answer_keys.
    - by rewrite (Normaliser.normalise_traits_keys _ _ _ _ Hn). }
  unfold dict_wf. rewrite Hk. split; [done|]. split; [|done].
  unfold TRAIT_KEYS. apply (bool_decide_unpack _). vm_compute. exact I.
Qed.

Lemma reachable_keys_witness :
  let q := mk_question "s1_01" "I enjoy experiments"
             (Some [("I"%string, 1); ("curiosity"%string, 1)]) in
  let traits := apply_answer empty_traits q "A" in
  Run.reachable traits /\
  keys traits = TRAIT_KEYS /\ dict_wf traits /\ length (keys traits) = 9%nat.
Proof.
  intros q traits.
  assert (H : Run.reachable traits).
  { apply Run.reach_apply, Run.reach_empty. }
  split; [exact H|]. exact (reachable_keys traits H).
Defined.

End Frame.

(** ** Monotonicity of accumulation followed by normalisation *)

Module Monotone.
Import Dict DictFacts PyFloat Engine Accumulator Normaliser.
Local Open Scope R_scope.

Lemma total_contribution_app t l1 l2 :
  total_contribution t (l1 ++ l2) = total_contribution t l1 + total_contribution t l2.
Proof.
  induction l1 as [|qa l1 IH]; simpl; [lra|]. rewrite IH. lra.
Qed.

Lemma get_map_values {V W : Type} (f : V -> W) (d : dict V) k :
  get k (map (fun kv : string * V => (kv.1, f kv.2)) d) = f <$> get k d.
Proof.
  induction d as [|[k' v] rest IH]; simpl; [done|].
  destruct (decide (k = k')); done.
Qed.

Lemma apply_answers_get t answered :
  forall traits,
    get t (Run.apply_answers traits answered) =
    (fun v => v + total_contribution t answered) <$> get t traits.
Proof.
  induction answered as [|[q a] rest IH]; intros traits; simpl.
  - destruct (get t traits); simpl; [f_equal; lra|done].
  - unfold Run.apply_answers in IH. rewrite IH, apply_answer_get.
    unfold contribution. simpl.
    destruct (get t traits); simpl; [f_equal; lra|done].
Qed.

Lemma apply_answers_keys answered :
  forall traits, keys (Run.apply_answers traits answered) = keys traits.
Proof.
  induction answered as [|[q a] rest IH]; intros traits; simpl; [done|].
  unfold Run.apply_answers in IH. by rewrite IH, apply_answer_keys.
Qed.

Lemma spec_normalise_mono n mw v v' :
  v <= v' -> spec_normalise n mw v <= spec_normalise n mw v'.
Proof.
  intros Hv. unfold spec_normalise. apply spec_clamp_mono.
  pose proof (spec_bound_ge_1 n mw) as Hb.
  apply Rmult_le_compat_r; [|lra].
  left. apply Rinv_0_lt_compat. lra.
Qed.

(** C6: take a session (a sequence of answered questions) and replace one
    answered question by one that contributes at least as much to trait [t]
    (a larger weight for [t], or a larger delta), everything before and
    after it being the same.  For every [n_answered] and [max_weight] both
    accumulators normalise without error, over the same keys, and the
    normalised value of [t] does not decrease. *)
Theorem normalised_value_monotone (traits : dict R)
    (before after : list (question * string)) (qa qa' : question * string)
    (t : string) (n_answered : Z) (max_weight : R) :
  contribution t qa <= contribution t qa' ->
  exists out out',
    normalise_traits (Run.apply_answers traits (before ++ qa :: after))
                     n_answered max_weight = Ok out /\
    normalise_traits (Run.apply_answers traits (before ++ qa' :: after))
                     n_answered max_weight = Ok out' /\
    keys out = keys out' /\
    (is_Some (get t out) <-> t ∈ keys traits) /\
    forall v, get t out = Some v -> exists v', get t out' = Some v' /\ v <= v'.
Proof.
  intros Hc. do 2 eexists.
  split; [apply normalise_traits_spec|]. split; [apply normalise_traits_spec|].
  split.
  { unfold keys. rewrite !map_map. simpl.
    change (map (fun x : string * R => x.1) ?l) with (keys l).
    by rewrite !apply_answers_keys. }
  rewrite !get_map_values, !apply_answers_get. split.
  { destruct (get t traits) as [v0|] eqn:Hget; simpl.
    - split; [intros _; by eapply get_Some_keys|by eauto].
    - split; [by intros [? ?]|intros Hin; by apply get_None_keys in Hget]. }
  intros v. destruct (get t traits) as [v0|]; simpl; [|done].
  intros [= <-]. eexists. split; [reflexivity|].
  apply spec_normalise_mono.
  rewrite !total_contribution_app. simpl. lra.
Qed.

Lemma normalised_value_monotone_witness :
  let q := mk_question "s1_01" "I enjoy experiments" (Some [("I"%string, 1)]) in
  let q' := mk_question "s1_01" "I enjoy experiments" (Some [("I"%string, 1.5)]) in
  contribution "I" (q, "A"%string) <= contribution "I" (q', "A"%string) /\
  exists out out',
    normalise_traits (Run.apply_answers empty_traits ([] ++ (q, "A"%string) :: []))
                     1 default_max_weight = Ok out /\
    normalise_traits (Run.apply_answers empty_traits ([] ++ (q', "A"%string) :: []))
                     1 default_max_weight = Ok out' /\
    keys out = keys out' /\
    (is_Some (get "I" out) <-> "I"%string ∈ keys empty_traits) /\
    forall v, get "I" out = Some v -> exists v', get "I" out' = Some v' /\ v <= v'.
Proof.
  intros q q'.
  assert (H : contribution "I" (q, "A"%string) <= contribution "I" (q', "A"%string)).
  { unfold contribution. change (answer_delta _) with 2%Z.
    unfold q, q', declared_weight, question_traits. simpl. lra. }
  split; [exact H|].
  exact (normalised_value_monotone empty_traits [] [] (q, "A"%string) (q', "A"%string)
           "I" 1 default_max_weight H).
Defined.

End Monotone.

(** ** Sorting and shuffling rearrange *)

Section sorted_facts.
Context {A K : Type} (ltb : K -> K -> bool) (key : A -> K).

Lemma insert_desc_perm (x : A) (l : list A) : insert_desc ltb key x l ≡ₚ x :: l.
Proof.
  induction l as [|y ys IH]; simpl; [done|].
  destruct (ltb (key x) (key y)); [|done].
  rewrite IH. apply Permutation_swap.
Qed.

Lemma sorted_reverse_perm (l : list A) : sorted_reverse ltb key l ≡ₚ l.
Proof.
  induction l as [|x xs IH]; simpl; [done|].
  rewrite insert_desc_perm. by rewrite IH.
Qed.

End sorted_facts.

Module RandomFacts.
Import Random.

Lemma swap_perm {A : Type} (i j : nat) (x : list A) : swap i j x ≡ₚ x.
Proof.
  unfold swap.
  destruct (x !! i) as [xi|] eqn:Hi; [|done].
  destruct (x !! j) as [xj|] eqn:Hj; [|done].
  by apply Permutation_insert_swap.
Qed.

Lemma shuffle_from_perm {A : Type} (i : nat) :
  forall (draws : list nat) (x : list A), shuffle_from i draws x ≡ₚ x.
Proof.
  induction i as [|i IH]; intros draws x; simpl; [done|].
  rewrite IH. apply swap_perm.
Qed.

Lemma shuffle_perm {A : Type} (draws : list nat) (x : list A) :
  shuffle draws x ≡ₚ x.
Proof. apply shuffle_from_perm. Qed.

End RandomFacts.

(** ** The adaptive question selector *)

Module Selector.
Import Dict PyFloat Engine.

Section contract.
Context {rng : Type} (shuffle : rng -> list question -> list question).
Hypothesis shuffle_perm : forall g l, shuffle g l ≡ₚ l.

(** C5: whatever the pool, the requested count [n], the used ids and the
    optional trait vector, and whatever order the shuffle produces,
    [select_questions] returns questions of the pool whose id is not in
    [used_ids], returns at most [n] of them (exactly the smaller of [n] and
    the number of unused questions), and returns all unused questions when
    there are no more than [n]. *)
Theorem select_questions_contract (g : rng) (pool : list question) (n : nat)
    (used_ids : gset string) (norm_traits : option (dict R)) :
  let unused := filter (fun q => q_id q ∉ used_ids) pool in
  let chosen := select_questions shuffle g pool n used_ids norm_traits in
  (forall q, q ∈ chosen -> q ∈ pool /\ q_id q ∉ used_ids) /\
  length chosen <= n /\
  length chosen = Nat.min n (length unused) /\
  (length unused <= n -> chosen ≡ₚ unused).
Proof.
  intros unused chosen.
  assert (Hshape : exists l,
    chosen = take n (shuffle g l) /\
    (forall q, q ∈ l -> q ∈ unused) /\
    Nat.min n (length l) = Nat.min n (length unused) /\
    (length unused <= n -> l ≡ₚ unused)).
  { unfold chosen, select_questions. fold unused.
    destruct (truthy norm_traits).
    - set (sorted := sorted_reverse Rltb _ unused).
      assert (Hs : sorted ≡ₚ unused) by apply sorted_reverse_perm.
      eexists. split; [reflexivity|].
      pose proof (Permutation_length Hs) as Hlen.
      split; [|split].
      + intros q Hq. rewrite <- Hs. by eapply subseteq_take.
      + rewrite length_take. lia.
      + intros Hle. rewrite take_ge by lia. done.
    - exists unused. repeat split; auto. }
  destruct Hshape as (l & -> & Hsub & Hmin & Hall).
  pose proof (Permutation_length (shuffle_perm g l)) as Hlen.
  assert (Hcount : length (take n (shuffle g l)) = Nat.min n (length unused)).
  { rewrite length_take. lia. }
  split; [|split; [lia|split; [done|]]].
  - intros q Hq. apply subseteq_take in Hq.
    rewrite shuffle_perm in Hq. apply Hsub in Hq.
    unfold unused in Hq. apply list_elem_of_filter in Hq as [Hq1 Hq2]. done.
  - intros Hle. specialize (Hall Hle).
    rewrite take_ge.
    + by rewrite shuffle_perm.
    + rewrite Hlen, (Permutation_length Hall). done.
Qed.

End contract.

Lemma select_questions_contract_witness :
  let q1 := mk_question "q1" "one" (Some [("I"%string, 1%R)]) in
  let q2 := mk_question "q2" "two" None in
  let q3 := mk_question "q3" "three" (Some [("O"%string, 1%R)]) in
  let pool := [q1; q2; q3] in
  let used_ids : gset string := {["q2"%string]} in
  let draws := [3; 1; 4]%nat in
  let norm_traits : option (dict R) := Some [("I"%string, 0.5%R)] in
  let unused := filter (fun q => q_id q ∉ used_ids) pool in
  let chosen := select_questions Random.shuffle draws pool 1 used_ids norm_traits in
  (forall (g : list nat) (l : list question), Random.shuffle g l ≡ₚ l) /\
  (forall q, q ∈ chosen -> q ∈ pool /\ q_id q ∉ used_ids) /\
  length chosen <= 1 /\
  length chosen = Nat.min 1 (length unused) /\
  (length unused <= 1 -> chosen ≡ₚ unused).
Proof.
  intros q1 q2 q3 pool used_ids draws norm_traits unused chosen.
  split; [exact (@RandomFacts.shuffle_perm question)|].
  exact (select_questions_contract Random.shuffle (@RandomFacts.shuffle_perm question)
           draws pool 1 used_ids norm_traits).
Defined.

End Selector.

(** ** Exponential, range and rounding *)

Module Numeric.
Import PyFloat PyFloatFacts.
Local Open Scope R_scope.

Lemma math_exp_ok x : exp x <= DBL_MAX -> math_exp x = Ok (fexp x).
Proof.
  intros H. unfold math_exp, fexp.
  destruct (Rlt_dec DBL_MAX (exp x)); [lra|].
  destruct (Rle_dec (exp x) DBL_UNDERFLOW); done.
Qed.

Lemma math_exp_overflow x : DBL_MAX < exp x -> math_exp x = Raise OverflowError.
Proof.
  intros H. unfold math_exp. destruct (Rlt_dec DBL_MAX (exp x)); [done|lra].
Qed.

Lemma fexp_nonneg x : 0 <= fexp x.
Proof.
  unfold fexp. pose proof (exp_pos x).
  destruct (Rle_dec (exp x) DBL_UNDERFLOW); lra.
Qed.

Lemma fexp_le_exp x : fexp x <= exp x.
Proof.
  unfold fexp. pose proof (exp_pos x).
  destruct (Rle_dec (exp x) DBL_UNDERFLOW); lra.
Qed.

Lemma fexp_exact x : DBL_UNDERFLOW < exp x -> fexp x = exp x.
Proof.
  intros H. unfold fexp. destruct (Rle_dec (exp x) DBL_UNDERFLOW); [lra|done].
Qed.

Lemma fexp_underflow x : exp x <= DBL_UNDERFLOW -> fexp x = 0.
Proof.
  intros H. unfold fexp. destruct (Rle_dec (exp x) DBL_UNDERFLOW); [done|lra].
Qed.

Lemma exp_le_mono x y : x <= y -> exp x <= exp y.
Proof.
  intros [Hlt| ->]; [left; by apply exp_increasing|right; reflexivity].
Qed.

Lemma exp_nat n : exp (INR n) = exp 1 ^ n.
Proof.
  induction n as [|n IH].
  - simpl. apply exp_0.
  - rewrite S_INR, exp_plus, IH. simpl. lra.
Qed.

Lemma exp_1_gt_2 : 2 < exp 1.
Proof. pose proof (exp_ineq1 1). lra. Qed.

Lemma DBL_MAX_lt : DBL_MAX < 2 ^ 1024.
Proof.
  unfold DBL_MAX. rewrite pow_IZR. apply IZR_lt. by vm_compute.
Qed.

Lemma DBL_MAX_ge : 1000 <= DBL_MAX.
Proof. unfold DBL_MAX. apply IZR_le. by vm_compute. Qed.

Lemma DBL_UNDERFLOW_pos : 0 < DBL_UNDERFLOW.
Proof.
  unfold DBL_UNDERFLOW. apply Rinv_0_lt_compat, IZR_lt. by vm_compute.
Qed.

Lemma DBL_UNDERFLOW_lt_1 : DBL_UNDERFLOW < 1.
Proof.
  unfold DBL_UNDERFLOW. rewrite <- Rinv_1.
  apply Rinv_lt_contravar; [|apply IZR_lt; by vm_compute].
  rewrite Rmult_1_l. apply IZR_lt. by vm_compute.
Qed.

(** Arguments from 1024 on overflow. *)
Lemma exp_overflows x : 1024 <= x -> DBL_MAX < exp x.
Proof.
  intros Hx. eapply Rlt_le_trans; [apply DBL_MAX_lt|].
  eapply Rle_trans; [|apply exp_le_mono, Hx].
  change 1024 with (IZR (Z.of_nat 1024)). rewrite <- INR_IZR_INZ, exp_nat.
  apply pow_incr. pose proof exp_1_gt_2. lra.
Qed.

Lemma exp_4_le : exp 4 <= 81.
Proof.
  change 4 with (IZR (Z.of_nat 4)). rewrite <- INR_IZR_INZ, exp_nat.
  pose proof exp_le_3 as H3. pose proof (exp_pos 1) as Hp.
  eapply Rle_trans; [apply (pow_incr _ 3); lra|]. simpl. lra.
Qed.

(** Arguments up to 4 do not. *)
Lemma exp_fits x : x <= 4 -> exp x <= DBL_MAX.
Proof.
  intros Hx. eapply Rle_trans; [apply exp_le_mono, Hx|].
  pose proof exp_4_le. pose proof DBL_MAX_ge. lra.
Qed.

(** Arguments down to -1075 underflow. *)
Lemma exp_underflows x : x <= -1075 -> exp x <= DBL_UNDERFLOW.
Proof.
  intros Hx. eapply Rle_trans; [apply exp_le_mono, Hx|].
  replace (-1075) with (- IZR (Z.of_nat 1075))
    by (change (Z.of_nat 1075) with 1075%Z; lra).
  rewrite <- INR_IZR_INZ, exp_Ropp, exp_nat. unfold DBL_UNDERFLOW.
  apply Rinv_le_contravar; [apply IZR_lt; by vm_compute|].
  change (2 ^ 1075)%Z with (2 ^ Z.of_nat 1075)%Z. rewrite <- pow_IZR.
  apply pow_incr. pose proof exp_1_gt_2. lra.
Qed.

Lemma DBL_MAX_ge_million : 1000000 <= DBL_MAX.
Proof. unfold DBL_MAX. apply IZR_le. by vm_compute. Qed.

(** An exponential in range has its argument in range. *)
Lemma exp_fits_arg y : exp y <= DBL_MAX -> y <= DBL_MAX.
Proof.
  intros He. pose proof DBL_MAX_ge.
  destruct (Rle_dec y 0) as [Hy|Hy]; [lra|].
  pose proof (exp_ineq1 y ltac:(lra)). lra.
Qed.

(** [math.exp] of a product that has been brought into the range of a
    double: +inf stays, a finite argument may raise, and -inf gives the
    0.0 that the underflowing exponential gives as well. *)
Lemma math_exp_x_range y :
  math_exp_x (xrange y) =
  if Rlt_dec DBL_MAX y then Ok PInf
  else if Rlt_dec DBL_MAX (exp y) then Raise OverflowError
  else Ok (Fin (fexp y)).
Proof.
  unfold xrange. pose proof DBL_MAX_ge_million as HM.
  destruct (Rlt_dec DBL_MAX y) as [Hhi|Hhi]; [done|].
  destruct (Rlt_dec y (- DBL_MAX)) as [Hlo|Hlo]; cbn [math_exp_x].
  - assert (Hu : exp y <= DBL_UNDERFLOW) by (apply exp_underflows; lra).
    pose proof DBL_UNDERFLOW_lt_1.
    destruct (Rlt_dec DBL_MAX (exp y)); [lra|]. by rewrite fexp_underflow.
  - destruct (Rlt_dec DBL_MAX (exp y)) as [Hov|Hfit].
    + by rewrite math_exp_overflow.
    + rewrite math_exp_ok by lra. done.
Qed.

(** Non-negative arguments do not. *)
Lemma fexp_nonneg_arg x : 0 <= x -> fexp x = exp x.
Proof.
  intros Hx. apply fexp_exact.
  pose proof (exp_le_mono 0 x Hx) as H. rewrite exp_0 in H.
  pose proof DBL_UNDERFLOW_lt_1. lra.
Qed.

(** Rounding moves a value by at most half a unit. *)
Lemma round_half_even_error y :
  - (1 / 2) <= IZR (round_half_even y) - y <= 1 / 2.
Proof.
  unfold round_half_even. pose proof (Zfloor_bound y) as [Hlo Hhi].
  set (f := Zfloor y) in *.
  destruct (Rlt_dec (y - IZR f) (1 / 2)) as [H1|H1]; [lra|].
  destruct (Rlt_dec (1 / 2) (y - IZR f)) as [H2|H2].
  { rewrite plus_IZR. lra. }
  destruct (Z.even f); [|rewrite plus_IZR]; lra.
Qed.

Lemma round_half_even_nonneg y : 0 <= y -> (0 <= round_half_even y)%Z.
Proof.
  intros Hy. assert (Hf : (0 <= Zfloor y)%Z) by (apply Zfloor_lub; simpl; lra).
  unfold round_half_even.
  repeat match goal with |- context [if ?c then _ else _] => destruct c end; lia.
Qed.

(** A value strictly within half a unit of an integer rounds to it. *)
Lemma round_half_even_near (n : Z) y :
  IZR n - 1 / 2 < y < IZR n + 1 / 2 -> round_half_even y = n.
Proof.
  intros [Hlo Hhi]. unfold round_half_even.
  pose proof (Zfloor_bound y) as [Hf1 Hf2]. set (f := Zfloor y) in *.
  assert (Hfn : (f = n \/ f = n - 1)%Z).
  { assert (f < n + 1)%Z by (apply lt_IZR; rewrite plus_IZR; lra).
    assert (n - 2 < f)%Z by (apply lt_IZR; rewrite minus_IZR; lra).
    lia. }
  destruct Hfn as [-> | ->].
  - destruct (Rlt_dec (y - IZR n) (1 / 2)); [done|lra].
  - rewrite minus_IZR in *.
    destruct (Rlt_dec (y - (IZR n - 1)) (1 / 2)); [lra|].
    destruct (Rlt_dec (1 / 2) (y - (IZR n - 1))); [lia|lra].
Qed.

Lemma py_round2_error x : - (1 / 200) <= py_round2 x - x <= 1 / 200.
Proof.
  unfold py_round2. pose proof (round_half_even_error (x * 100)) as H. lra.
Qed.

Lemma py_round2_nonneg x : 0 <= x -> 0 <= py_round2 x.
Proof.
  intros Hx. unfold py_round2.
  assert (H : (0 <= round_half_even (x * 100))%Z)
    by (apply round_half_even_nonneg; lra).
  apply IZR_le in H. lra.
Qed.

Lemma py_round2_near (n : Z) x :
  IZR n - 1 / 2 < x * 100 < IZR n + 1 / 2 -> py_round2 x = IZR n / 100.
Proof.
  intros H. unfold py_round2. by rewrite (round_half_even_near n).
Qed.

Lemma py_round2_0 : py_round2 0 = 0.
Proof. rewrite (py_round2_near 0); lra. Qed.

(** [sum] as a right fold. *)
Lemma rsum_foldl a l : foldl Rplus a l = a + foldr Rplus 0 l.
Proof.
  revert a. induction l as [|x xs IH]; intros a; simpl; [lra|].
  rewrite IH. lra.
Qed.

Lemma rsum_cons x l : Engine.rsum (x :: l) = x + Engine.rsum l.
Proof. unfold Engine.rsum. simpl. rewrite !rsum_foldl. lra. Qed.

Lemma rsum_nil : Engine.rsum [] = 0.
Proof. reflexivity. Qed.

Lemma rsum_nonneg l : Forall (fun x => 0 <= x) l -> 0 <= Engine.rsum l.
Proof.
  induction 1 as [|x xs Hx _ IH]; [rewrite rsum_nil; lra|].
  rewrite rsum_cons. lra.
Qed.

Lemma foldl_xadd_PInf l : foldl xadd PInf (map Fin l) = PInf.
Proof. induction l as [|x xs IH]; simpl; done. Qed.

Lemma foldl_xadd_nonneg l :
  Forall (fun x => 0 <= x) l ->
  forall a, 0 <= a <= DBL_MAX ->
    foldl xadd (Fin a) (map Fin l) =
    if Rlt_dec DBL_MAX (a + Engine.rsum l) then PInf else Fin (a + Engine.rsum l).
Proof.
  induction 1 as [|x xs Hx Hxs IH]; intros a Ha.
  - simpl. rewrite rsum_nil, Rplus_0_r. destruct (Rlt_dec DBL_MAX a); [lra|done].
  - cbn [map foldl xadd]. rewrite rsum_cons. unfold xrange.
    pose proof (rsum_nonneg xs Hxs) as Hs.
    destruct (Rlt_dec DBL_MAX (a + x)) as [Hov|Hfit].
    + rewrite foldl_xadd_PInf. destruct (Rlt_dec _ _); [done|lra].
    + destruct (Rlt_dec (a + x) (- DBL_MAX)); [lra|].
      rewrite IH by lra. by rewrite Rplus_assoc.
Qed.

(** The sum of non-negative finite values: exact, or +inf when the exact
    sum is out of range. *)
Lemma xsum_nonneg l :
  Forall (fun x => 0 <= x) l ->
  xsum (map Fin l) =
  if Rlt_dec DBL_MAX (Engine.rsum l) then PInf else Fin (Engine.rsum l).
Proof.
  intros Hl. pose proof DBL_MAX_ge.
  unfold xsum. rewrite (foldl_xadd_nonneg l Hl 0) by lra.
  by rewrite Rplus_0_l.
Qed.

End Numeric.

(** ** The candidate scorer's activation *)

Module Activation.
Import PyFloat PyFloatFacts Numeric.
Local Open Scope R_scope.

Lemma logistic_range e : 0 <= e -> 0 < 1 / (1 + e) <= 1.
Proof.
  intros He. split.
  - apply Rdiv_lt_0_compat; lra.
  - assert (H : / (1 + e) <= / 1) by (apply Rinv_le_contravar; lra).
    rewrite Rinv_1 in H. unfold Rdiv. lra.
Qed.

(** CJL-PRO: the activation is defined for every input.  An exponent that
    is already +inf gives 0.0 through [math.exp], a finite exponent whose
    exponential is out of range gives the value of the handler. *)
Lemma pro_sigmoid_outcome x sharpness :
  Engine._sigmoid x sharpness =
  Ok (if Rlt_dec DBL_MAX (exponent sharpness x) then 0
      else if Rlt_dec DBL_MAX (exp (exponent sharpness x))
      then (if Rlt_dec x 0.5 then 0 else 1)
      else 1 / (1 + fexp (exponent sharpness x))).
Proof.
  unfold Engine._sigmoid. fold (exponent sharpness x).
  rewrite math_exp_x_range.
  destruct (Rlt_dec DBL_MAX (exponent sharpness x)) as [Hinf|Hfin]; [done|].
  destruct (Rlt_dec DBL_MAX (exp (exponent sharpness x))) as [Hov|Hfit]; [done|].
  cbn [mbind result_bind rbind].
  pose proof (fexp_nonneg (exponent sharpness x)).
  rewrite py_div_nonzero by lra. done.
Qed.

(** For a non-negative sharpness an exponent of +inf belongs to an argument
    below 0.5, so the two routes to 0.0 agree. *)
Lemma pro_sigmoid_value x sharpness :
  0 <= sharpness ->
  Engine._sigmoid x sharpness =
  Ok (if Rlt_dec DBL_MAX (exp (exponent sharpness x))
      then (if Rlt_dec x 0.5 then 0 else 1)
      else 1 / (1 + fexp (exponent sharpness x))).
Proof.
  intros Hs. rewrite pro_sigmoid_outcome.
  destruct (Rlt_dec DBL_MAX (exponent sharpness x)) as [Hinf|Hfin]; [|done].
  pose proof DBL_MAX_ge_million as HM.
  pose proof (exp_ineq1 (exponent sharpness x) ltac:(lra)) as He.
  destruct (Rlt_dec DBL_MAX (exp (exponent sharpness x))); [|lra].
  unfold exponent in Hinf.
  destruct (Rlt_dec x 0.5); [done|]. exfalso. nra.
Qed.

Lemma pro_sigmoid_total x sharpness :
  exists v, Engine._sigmoid x sharpness = Ok v /\ 0 <= v <= 1.
Proof.
  eexists. split; [apply pro_sigmoid_outcome|].
  destruct (Rlt_dec DBL_MAX (exponent sharpness x)); [lra|].
  destruct (Rlt_dec DBL_MAX _).
  - destruct (Rlt_dec x 0.5); lra.
  - pose proof (logistic_range _ (fexp_nonneg (exponent sharpness x))). lra.
Qed.

(** CJL-PRO: on overflow of the exponential the activation saturates. *)
Lemma pro_sigmoid_saturates x sharpness :
  0 <= sharpness ->
  DBL_MAX < exp (exponent sharpness x) ->
  Engine._sigmoid x sharpness = Ok (if Rlt_dec x 0.5 then 0 else 1).
Proof.
  intros Hs Hov. rewrite (pro_sigmoid_value _ _ Hs).
  destruct (Rlt_dec DBL_MAX _); [done|lra].
Qed.

(** CJL: no handler, the OverflowError of [math.exp] propagates; a product
    that is already +inf does not make [math.exp] raise, and gives 0.0. *)
Lemma cjl_sigmoid_value x :
  Scoring._sigmoid x =
  if Rlt_dec DBL_MAX (- 12 * (x - 0.5)) then Ok 0
  else if Rlt_dec DBL_MAX (exp (- 12 * (x - 0.5)))
  then Raise OverflowError
  else Ok (1 / (1 + fexp (- 12 * (x - 0.5)))).
Proof.
  unfold Scoring._sigmoid. rewrite math_exp_x_range.
  destruct (Rlt_dec DBL_MAX (- 12 * (x - 0.5))) as [Hinf|Hfin]; [done|].
  destruct (Rlt_dec DBL_MAX (exp (- 12 * (x - 0.5)))) as [Hov|Hfit]; [done|].
  cbn [mbind result_bind rbind].
  pose proof (fexp_nonneg (- 12 * (x - 0.5))).
  rewrite py_div_nonzero by lra. done.
Qed.

(** The two activations called on x = -1000.0, which no call in either
    program passes: the exponent is 10005 (CJL-PRO, default sharpness) or
    12006 (CJL) and [math.exp] overflows.  CJL-PRO returns the saturated
    value 0; CJL raises OverflowError.  So the saturation does not hold of
    the CJL function for every real input (C2 as worded). *)
Theorem sigmoid_overflow_variants :
  Engine._sigmoid (-1000) Engine.default_sharpness = Ok 0 /\
  Scoring._sigmoid (-1000) = Raise OverflowError.
Proof.
  split.
  - rewrite pro_sigmoid_saturates.
    + destruct (Rlt_dec (-1000) 0.5); [done|lra].
    + unfold Engine.default_sharpness. lra.
    + apply exp_overflows. unfold exponent, Engine.default_sharpness. lra.
  - rewrite cjl_sigmoid_value. pose proof DBL_MAX_ge_million.
    destruct (Rlt_dec DBL_MAX (- 12 * (-1000 - 0.5))); [lra|].
    destruct (Rlt_dec DBL_MAX _) as [|Hn]; [done|].
    exfalso. apply Hn, exp_overflows. lra.
Qed.

End Activation.

(** ** The distribution builder *)

Module Distribution.
Import Dict DictFacts PyFloat PyFloatFacts Numeric Engine.
Local Open Scope R_scope.

(** A loop that assigns one new key per element builds the dictionary of
    those keys in iteration order. *)
Lemma result_foldl_set {A V : Type} (f : dict V -> A -> result (dict V))
    (key : A -> string) (val : A -> V) (l : list A) :
  (forall acc x, x ∈ l -> f acc x = Ok (set (key x) (val x) acc)) ->
  forall acc, NoDup (keys acc ++ map key l) ->
    result_foldl f acc l = Ok (acc ++ map (fun x => (key x, val x)) l).
Proof.
  induction l as [|x xs IH]; intros Hf acc Hnd; simpl.
  - by rewrite app_nil_r.
  - rewrite Hf by left. simpl.
    assert (Hx : key x ∉ keys acc).
    { apply NoDup_app in Hnd as (_ & Hdisj & _).
      intros Hin. apply (Hdisj _ Hin). left. }
    rewrite set_absent by done. rewrite IH.
    + by rewrite <- app_assoc.
    + intros; apply Hf; by right.
    + unfold keys. rewrite map_app. simpl. by rewrite <- app_assoc.
Qed.

Lemma xexp_finite T v : ~ overflows T v -> xexp T v = Fin (fexp (v * T)).
Proof. unfold overflows, xexp. intros H. destruct (Rlt_dec _ _); [lra|done]. Qed.

Lemma is_inf_xexp T v : is_inf (xexp T v) = true <-> overflows T v.
Proof.
  unfold overflows, xexp. destruct (Rlt_dec _ _); simpl; split; try done; lra.
Qed.

Lemma exp_entry_value T acc (kv : string * R) :
  exp_entry T acc kv = Ok (set kv.1 (xexp T kv.2) acc).
Proof.
  unfold exp_entry, xexp.
  destruct (Rlt_dec DBL_MAX (exp (kv.2 * T))) as [Hov|Hfit].
  - by rewrite math_exp_overflow.
  - by rewrite math_exp_ok by lra.
Qed.

Lemma exp_vals_value T (scores : dict R) :
  dict_wf scores ->
  result_foldl (exp_entry T) [] scores = Ok (exp_vals_of T scores).
Proof.
  intros Hwf.
  apply (result_foldl_set (exp_entry T) fst (fun kv => xexp T kv.2) scores).
  - intros acc x _. apply exp_entry_value.
  - exact Hwf.
Qed.

(** [inf_keys] are the keys of the overflowed candidates, in order. *)
Lemma inf_keys_overflowed T (scores : dict R) :
  map fst (filter (fun kv : string * xfloat => is_inf kv.2 = true)
                  (exp_vals_of T scores)) =
  keys (overflowed T scores).
Proof.
  unfold exp_vals_of, overflowed, keys.
  induction scores as [|[k v] rest IH]; cbn [map]; [done|].
  destruct (decide (overflows T v)) as [Hov|Hov].
  - rewrite !filter_cons_True; [|done|cbn [snd]; by rewrite is_inf_xexp].
    cbn [map fst]. by rewrite IH.
  - rewrite !filter_cons_False; [done|done|cbn [snd]; by rewrite is_inf_xexp].
Qed.

Lemma overflowed_nil_Forall T (scores : dict R) :
  overflowed T scores = [] <->
  Forall (fun kv : string * R => ~ overflows T kv.2) scores.
Proof.
  unfold overflowed. split.
  - intros Hnil. apply Forall_forall. intros kv Hin Hov.
    assert (Hf : kv ∈ filter (fun kv : string * R => overflows T kv.2) scores)
      by (by apply list_elem_of_filter).
    rewrite Hnil in Hf. by apply elem_of_nil in Hf.
  - induction 1 as [|kv rest Hkv _ IH]; [done|].
    by rewrite filter_cons_False.
Qed.

Lemma exp_vals_finite T (scores : dict R) :
  overflowed T scores = [] ->
  exp_vals_of T scores =
  map (fun kv : string * R => (kv.1, Fin (fexp (kv.2 * T)))) scores.
Proof.
  intros H%overflowed_nil_Forall. unfold exp_vals_of.
  induction H as [|[k v] rest Hv _ IH]; simpl; [done|].
  rewrite IH. by rewrite xexp_finite.
Qed.

Lemma elem_of_overflowed_keys T (scores : dict R) k v :
  dict_wf scores -> (k, v) ∈ scores ->
  k ∈ keys (overflowed T scores) <-> overflows T v.
Proof.
  intros Hwf Hin. unfold keys, overflowed. split.
  - intros Hk. apply list_elem_of_fmap in Hk as [[k' v'] [Hkk Hf]].
    simpl in Hkk. subst k'. apply list_elem_of_filter in Hf as [Hov Hin'].
    pose proof (get_elem_of _ _ _ Hwf Hin) as H1.
    pose proof (get_elem_of _ _ _ Hwf Hin') as H2.
    rewrite H1 in H2. by injection H2 as ->.
  - intros Hov. change k with (fst (k, v)).
    apply list_elem_of_fmap_2, list_elem_of_filter. done.
Qed.

Lemma exps_nonneg T (scores : dict R) : Forall (fun x => 0 <= x) (exps_of T scores).
Proof.
  apply Forall_forall. intros x Hx.
  apply list_elem_of_fmap in Hx as [kv [-> _]]. apply fexp_nonneg.
Qed.

Lemma py_or_nonzero x : py_or x 1 <> 0.
Proof. unfold py_or. destruct (Req_dec_T x 0); lra. Qed.

(** The total is a positive finite number or +inf, never zero. *)
Lemma xtotal_cases T (scores : dict R) :
  (exists t, xtotal_of T scores = Fin t /\ 0 < t) \/ xtotal_of T scores = PInf.
Proof.
  unfold xtotal_of. rewrite (xsum_nonneg _ (exps_nonneg T scores)).
  destruct (Rlt_dec DBL_MAX _); [by right|left].
  eexists. split; [reflexivity|].
  pose proof (rsum_nonneg _ (exps_nonneg T scores)).
  unfold py_or. destruct (Req_dec_T _ 0); lra.
Qed.

Lemma percent_value e total :
  total <> Fin 0 -> percent (Fin e) total = Ok (xshare total e).
Proof.
  intros Hnz. unfold percent, xshare.
  destruct total as [t| | |]; cbn [xdiv mbind result_bind rbind]; try done.
  destruct (Req_dec_T t 0) as [->|Ht]; [done|]. done.
Qed.

Lemma xtotal_percent T (scores : dict R) e :
  percent (Fin e) (xtotal_of T scores) = Ok (xshare (xtotal_of T scores) e).
Proof.
  apply percent_value.
  destruct (xtotal_cases T scores) as [(t & -> & Ht)| ->]; [|done].
  intros [= ->]. lra.
Qed.

(** The share of a non-negative exponential is finite and non-negative. *)
Lemma xshare_finite T (scores : dict R) e :
  0 <= e -> exists p, xshare (xtotal_of T scores) e = Fin p /\ 0 <= p.
Proof.
  intros He. destruct (xtotal_cases T scores) as [(t & -> & Ht)| ->]; simpl.
  - eexists. split; [reflexivity|]. apply py_round2_nonneg.
    apply Rmult_le_pos; [|lra]. apply Rmult_le_pos; [done|].
    left. by apply Rinv_0_lt_compat.
  - eexists. split; [reflexivity|]. apply py_round2_nonneg. lra.
Qed.

(** CJL-PRO, overflow: an equal split among the overflowed candidates. *)
Lemma pro_softmax_overflow (scores : dict R) (T : R) :
  dict_wf scores -> overflowed T scores <> [] ->
  _softmax scores T =
  Ok (map (fun kv : string * R =>
             (kv.1, Fin (if decide (overflows T kv.2)
                         then 100 / INR (length (overflowed T scores))
                         else 0)))
          scores).
Proof.
  intros Hwf Hne. unfold _softmax. rewrite exp_vals_value by done.
  cbn [mbind result_bind rbind]. rewrite inf_keys_overflowed.
  rewrite bool_decide_eq_true_2.
  2:{ unfold keys. destruct (overflowed T scores); [done|discriminate]. }
  rewrite py_div_nonzero.
  2:{ unfold keys. rewrite length_map. apply not_0_INR.
      destruct (overflowed T scores); [done|simpl; lia]. }
  cbn [mbind result_bind rbind]. f_equal.
  unfold keys. rewrite map_map, length_map.
  apply map_ext_in. intros [k v] Hin%list_elem_of_In. cbn [fst snd].
  do 2 f_equal.
  pose proof (elem_of_overflowed_keys T scores k v Hwf Hin) as Hiff.
  unfold keys in Hiff.
  destruct (decide (overflows T v)) as [Hov|Hov].
  - rewrite bool_decide_eq_true_2; [done|by apply Hiff].
  - rewrite bool_decide_eq_false_2; [done|by rewrite Hiff].
Qed.

(** CJL-PRO, no overflow: rounded shares of the total. *)
Lemma pro_softmax_finite (scores : dict R) (T : R) :
  dict_wf scores -> overflowed T scores = [] ->
  _softmax scores T =
  Ok (map (fun kv : string * R =>
             (kv.1, xshare (xtotal_of T scores) (fexp (kv.2 * T))))
          scores).
Proof.
  intros Hwf Hnil. unfold _softmax. rewrite exp_vals_value by done.
  cbn [mbind result_bind rbind]. rewrite inf_keys_overflowed, Hnil.
  cbn [keys map]. rewrite bool_decide_eq_false_2 by (intros H; by apply H).
  rewrite (exp_vals_finite _ _ Hnil).
  unfold values. rewrite map_map. cbn [snd].
  rewrite <- (map_map (fun kv : string * R => fexp (kv.2 * T)) Fin).
  fold (exps_of T scores). fold (xtotal_of T scores).
  apply result_mapM_map. intros [k v] _. cbn [fst snd].
  by rewrite xtotal_percent.
Qed.

(** CJL, no overflow: the same shares, with temperature 5. *)
Lemma cjl_softmax_finite (scores : dict R) :
  overflowed 5 scores = [] ->
  Scoring._softmax scores =
  Ok (map (fun kv : string * R =>
             (kv.1, xshare (xtotal_of 5 scores) (fexp (kv.2 * 5))))
          scores).
Proof.
  intros Hfin%overflowed_nil_Forall. unfold Scoring._softmax.
  rewrite (result_mapM_pure _
             (fun kv : string * R => (kv.1, Fin (fexp (kv.2 * 5))))).
  2:{ intros kv Hin. rewrite Forall_forall in Hfin. specialize (Hfin kv Hin).
      unfold overflows in Hfin. rewrite math_exp_x_range.
      assert (Harg : kv.2 * 5 <= DBL_MAX) by (apply exp_fits_arg; lra).
      destruct (Rlt_dec DBL_MAX (kv.2 * 5)); [lra|].
      destruct (Rlt_dec DBL_MAX (exp (kv.2 * 5))); [lra|done]. }
  cbn [mbind result_bind rbind]. unfold values. rewrite map_map. cbn [snd].
  rewrite <- (map_map (fun kv : string * R => fexp (kv.2 * 5)) Fin).
  fold (exps_of 5 scores). fold (xtotal_of 5 scores).
  apply result_mapM_map. intros [k v] _. cbn [fst snd].
  by rewrite xtotal_percent.
Qed.

(** CJL, overflow of the exponential of a finite product: the OverflowError
    of [math.exp] leaves [_softmax]. *)
Lemma cjl_softmax_raises (scores : dict R) :
  Exists (fun kv : string * R => exp_raises (kv.2 * 5)) scores ->
  Scoring._softmax scores = Raise OverflowError.
Proof.
  intros Hex. unfold Scoring._softmax.
  assert (Hm : result_mapM
                 (fun kv : string * R =>
                    e ← math_exp_x (xrange (kv.2 * 5)); Ok (kv.1, e))
                 scores = Raise OverflowError).
  { induction Hex as [[k v] rest [Harg Hov]|[k v] rest _ IH];
      cbn [result_mapM snd]; rewrite math_exp_x_range.
    - cbn [snd] in Harg, Hov.
      destruct (Rlt_dec DBL_MAX (v * 5)); [lra|].
      destruct (Rlt_dec DBL_MAX (exp (v * 5))); [done|lra].
    - rewrite IH.
      destruct (Rlt_dec DBL_MAX (v * 5)); [done|].
      destruct (Rlt_dec DBL_MAX (exp (v * 5))); done. }
  by rewrite Hm.
Qed.

End Distribution.

Module Percentages.
Import Dict DictFacts PyFloat PyFloatFacts Numeric Engine Distribution.
Local Open Scope R_scope.

Lemma rsum_map_bound {A : Type} (f g : A -> R) (eps : R) (l : list A) :
  (forall x, x ∈ l -> - eps <= f x - g x <= eps) ->
  - (eps * INR (length l)) <= rsum (map f l) - rsum (map g l) <= eps * INR (length l).
Proof.
  induction l as [|x xs IH]; intros H.
  - cbn [map length]. rewrite rsum_nil. simpl. lra.
  - cbn [map length]. rewrite !rsum_cons, S_INR.
    assert (Hx := H x ltac:(left)).
    assert (Hxs := IH ltac:(intros y Hy; apply H; by right)). lra.
Qed.

Lemma rsum_map_share {A : Type} (f : A -> R) (t : R) (l : list A) :
  rsum (map (fun x => f x / t * 100) l) = rsum (map f l) / t * 100.
Proof.
  induction l as [|x xs IH]; cbn [map].
  - rewrite rsum_nil. unfold Rdiv. ring.
  - rewrite !rsum_cons, IH. unfold Rdiv. ring.
Qed.

Lemma rsum_map_le {A : Type} (f g : A -> R) (l : list A) :
  (forall x, f x <= g x) -> rsum (map f l) <= rsum (map g l).
Proof.
  intros H. induction l as [|x xs IH]; cbn [map]; [lra|].
  rewrite !rsum_cons. specialize (H x). lra.
Qed.

Lemma rsum_exp_elem T (scores : dict R) kv :
  kv ∈ scores ->
  exp (kv.2 * T) <= rsum (map (fun kv : string * R => exp (kv.2 * T)) scores).
Proof.
  induction scores as [|kv' rest IH]; intros Hin.
  - by apply elem_of_nil in Hin.
  - cbn [map]. rewrite rsum_cons.
    assert (Hrest : 0 <= rsum (map (fun kv : string * R => exp (kv.2 * T)) rest)).
    { apply rsum_nonneg, Forall_forall. intros x Hx.
      apply list_elem_of_fmap in Hx as [y [-> _]]. left. apply exp_pos. }
    pose proof (exp_pos (kv'.2 * T)).
    apply elem_of_cons in Hin as [->|Hin]; [lra|]. specialize (IH Hin). lra.
Qed.

Lemma in_range_no_overflow T (scores : dict R) :
  in_range T scores -> overflowed T scores = [].
Proof.
  intros [_ Hsum]. apply overflowed_nil_Forall, Forall_forall.
  intros kv Hin. unfold overflows.
  pose proof (rsum_exp_elem T scores kv Hin). lra.
Qed.

Lemma in_range_sum_pos T (scores : dict R) :
  in_range T scores -> 0 < rsum (exps_of T scores).
Proof.
  intros [Hex _]. unfold exps_of.
  induction Hex as [kv rest Hkv|kv rest _ IH]; cbn [map]; rewrite rsum_cons.
  - rewrite (fexp_exact _ Hkv). pose proof DBL_UNDERFLOW_pos.
    pose proof (rsum_nonneg _ (exps_nonneg T rest)). unfold exps_of in *. lra.
  - pose proof (fexp_nonneg (kv.2 * T)). lra.
Qed.

Lemma in_range_total T (scores : dict R) :
  in_range T scores -> xtotal_of T scores = Fin (rsum (exps_of T scores)).
Proof.
  intros Hr. pose proof (in_range_sum_pos T scores Hr) as Hpos.
  destruct Hr as [_ Hsum].
  unfold xtotal_of. rewrite (xsum_nonneg _ (exps_nonneg T scores)).
  assert (Hle : rsum (exps_of T scores) <= DBL_MAX).
  { eapply Rle_trans; [|exact Hsum]. apply rsum_map_le. intros. apply fexp_le_exp. }
  destruct (Rlt_dec DBL_MAX _); [lra|]. simpl. unfold py_or.
  destruct (Req_dec_T _ 0); [lra|done].
Qed.

Lemma percentages_nonneg T (scores : dict R) :
  in_range T scores -> Forall (fun p => 0 <= p) (percentages_of T scores).
Proof.
  intros Hr%in_range_sum_pos. apply Forall_forall. intros p Hp.
  apply list_elem_of_fmap in Hp as [kv [-> _]]. apply py_round2_nonneg.
  apply Rmult_le_pos; [|lra]. apply Rmult_le_pos; [apply fexp_nonneg|].
  left. by apply Rinv_0_lt_compat.
Qed.

(** Rounded shares add up to 100 up to half a hundredth per candidate. *)
Lemma percentages_sum T (scores : dict R) :
  in_range T scores ->
  Rabs (rsum (percentages_of T scores) - 100) <= 0.005 * INR (length scores).
Proof.
  intros Hpos%in_range_sum_pos. unfold percentages_of.
  pose proof (rsum_map_bound
                (fun kv : string * R =>
                   py_round2 (fexp (kv.2 * T) / rsum (exps_of T scores) * 100))
                (fun kv : string * R =>
                   fexp (kv.2 * T) / rsum (exps_of T scores) * 100)
                (1 / 200) scores) as Hb.
  rewrite rsum_map_share in Hb. fold (exps_of T scores) in Hb.
  replace (rsum (exps_of T scores) / rsum (exps_of T scores) * 100) with 100 in Hb
    by (field; lra).
  apply Rabs_le.
  assert (Hgoal := Hb ltac:(intros kv _; apply py_round2_error)). lra.
Qed.

Lemma softmax_in_range_conclusion T (scores : dict R) (out : dict xfloat) :
  in_range T scores ->
  out = map (fun kv : string * R =>
               (kv.1, xshare (xtotal_of T scores) (fexp (kv.2 * T)))) scores ->
  keys out = keys scores /\
  values out = map Fin (percentages_of T scores) /\
  Forall (fun p => 0 <= p) (percentages_of T scores) /\
  Rabs (rsum (percentages_of T scores) - 100) <= 0.005 * INR (length scores).
Proof.
  intros Hr ->. rewrite (in_range_total T scores Hr).
  unfold keys, values, percentages_of. rewrite !map_map. cbn [fst snd xshare].
  split; [done|]. split; [done|].
  split; [by apply percentages_nonneg|by apply percentages_sum].
Qed.

(** C1, as the code has it.  Take a dictionary of [N] activations whose
    temperature-scaled exponentials are in the range of a double (not all of
    them underflow to zero, so there is at least one candidate, and their
    sum does not overflow).  Then [_softmax] of CJL-PRO (any temperature)
    and [_softmax] of CJL (temperature 5) return finite, non-negative
    percentages whose sum is within [0.005 * N] of 100: each percentage is
    rounded to two decimals on its own, so each may be off by half a
    hundredth. *)
Theorem softmax_percentages (scores : dict R) (T : R) :
  dict_wf scores ->
  (in_range T scores ->
   exists out ps,
      _softmax scores T = Ok out /\
      keys out = keys scores /\
      values out = map Fin ps /\
      Forall (fun p => 0 <= p) ps /\
      Rabs (rsum ps - 100) <= 0.005 * INR (length scores)) /\
  (in_range 5 scores ->
   exists out ps,
      Scoring._softmax scores = Ok out /\
      keys out = keys scores /\
      values out = map Fin ps /\
      Forall (fun p => 0 <= p) ps /\
      Rabs (rsum ps - 100) <= 0.005 * INR (length scores)).
Proof.
  intros Hwf. split; intros Hr.
  - do 2 eexists. split.
    + apply pro_softmax_finite; [done|by apply in_range_no_overflow].
    + by apply softmax_in_range_conclusion.
  - do 2 eexists. split.
    + apply cjl_softmax_finite. by apply in_range_no_overflow.
    + by apply softmax_in_range_conclusion.
Qed.

Lemma softmax_percentages_witness :
  let scores : dict R := [("a"%string, 0); ("b"%string, 0.5)] in
  dict_wf scores /\ in_range default_temperature scores /\ in_range 5 scores /\
  (exists out ps,
      _softmax scores default_temperature = Ok out /\
      keys out = keys scores /\
      values out = map Fin ps /\
      Forall (fun p => 0 <= p) ps /\
      Rabs (rsum ps - 100) <= 0.005 * INR (length scores)) /\
  (exists out ps,
      Scoring._softmax scores = Ok out /\
      keys out = keys scores /\
      values out = map Fin ps /\
      Forall (fun p => 0 <= p) ps /\
      Rabs (rsum ps - 100) <= 0.005 * INR (length scores)).
Proof.
  intros scores.
  assert (H1 : dict_wf scores).
  { dict_literal_wf. }
  assert (Hr : forall T, 0 <= T <= 5 -> in_range T scores).
  { intros T HT. split.
    - apply Exists_cons_hd. cbn [snd]. replace (0 * T) with 0 by lra.
      rewrite exp_0. apply DBL_UNDERFLOW_lt_1.
    - unfold scores. cbn [map snd]. rewrite !rsum_cons, rsum_nil.
      replace (0 * T) with 0 by lra. rewrite exp_0.
      pose proof (exp_le_mono (0.5 * T) 4 ltac:(lra)).
      pose proof exp_4_le. pose proof DBL_MAX_ge. lra. }
  assert (H2 : in_range default_temperature scores)
    by (apply Hr; unfold default_temperature; lra).
  assert (H3 : in_range 5 scores) by (apply Hr; lra).
  destruct (softmax_percentages scores default_temperature H1) as [Hpro Hcjl].
  split; [exact H1|]. split; [exact H2|]. split; [exact H3|].
  split; [exact (Hpro H2)|exact (Hcjl H3)].
Defined.

Lemma six_equal_exps T : exps_of T six_equal = [1; 1; 1; 1; 1; 1].
Proof.
  unfold exps_of, six_equal. cbn [map snd].
  replace (0 * T) with 0 by lra.
  rewrite fexp_nonneg_arg by lra. by rewrite exp_0.
Qed.

Lemma six_equal_total T : xtotal_of T six_equal = Fin 6.
Proof.
  unfold xtotal_of. rewrite xsum_nonneg by apply exps_nonneg.
  rewrite six_equal_exps, !rsum_cons, rsum_nil.
  pose proof DBL_MAX_ge. destruct (Rlt_dec DBL_MAX _); [lra|].
  simpl. unfold py_or. destruct (Req_dec_T _ 0); [lra|]. f_equal. lra.
Qed.

Lemma six_equal_finite T : overflowed T six_equal = [].
Proof.
  apply overflowed_nil_Forall. unfold six_equal.
  repeat (apply List.Forall_cons;
          [cbn [snd]; unfold overflows; replace (0 * T) with 0 by lra;
           rewrite exp_0; pose proof DBL_MAX_ge; lra|]).
  apply List.Forall_nil.
Qed.

Lemma six_equal_shares T :
  map (fun kv : string * R =>
         (kv.1, xshare (xtotal_of T six_equal) (fexp (kv.2 * T)))) six_equal =
  map (fun kv : string * R => (kv.1, Fin 16.67)) six_equal.
Proof.
  rewrite six_equal_total. unfold six_equal. cbn [map fst snd xshare].
  replace (0 * T) with 0 by lra.
  rewrite fexp_nonneg_arg by lra. rewrite exp_0.
  rewrite (py_round2_near 1667) by lra.
  replace (IZR 1667 / 100) with 16.67 by lra. done.
Qed.

(** C1 as stated fails: on six equal activations both variants return
    16.67 six times, which adds up to 100.02, outside 100.00 ± 0.01. *)
Lemma softmax_sum_exceeds_tolerance :
  let out := map (fun kv : string * R => (kv.1, Fin 16.67)) six_equal in
  _softmax six_equal default_temperature = Ok out /\
  Scoring._softmax six_equal = Ok out /\
  xsum (values out) = Fin 100.02 /\
  ~ Rabs (100.02 - 100) <= 0.01.
Proof.
  intros out. split; [|split; [|split]].
  - rewrite pro_softmax_finite.
    + by rewrite six_equal_shares.
    + dict_literal_wf.
    + apply six_equal_finite.
  - rewrite cjl_softmax_finite by apply six_equal_finite.
    by rewrite six_equal_shares.
  - unfold out, six_equal, values. cbn [map snd].
    change [Fin 16.67; Fin 16.67; Fin 16.67; Fin 16.67; Fin 16.67; Fin 16.67]
      with (map Fin [16.67; 16.67; 16.67; 16.67; 16.67; 16.67]).
    rewrite xsum_nonneg.
    + rewrite !rsum_cons, rsum_nil. pose proof DBL_MAX_ge.
      destruct (Rlt_dec DBL_MAX _); [lra|]. f_equal. lra.
    + repeat (apply List.Forall_cons; [lra|]). apply List.Forall_nil.
  - rewrite Rabs_right by lra. lra.
Qed.

(** When every exponential underflows the floor [or 1.0] applies and all
    percentages are 0, so the sum is 0: the range condition on the
    percentages cannot be dropped. *)
Lemma softmax_all_underflow :
  _softmax [("a"%string, -1000)] default_temperature = Ok [("a"%string, Fin 0)].
Proof.
  assert (Hu : exp (-1000 * default_temperature) <= DBL_UNDERFLOW).
  { apply exp_underflows. unfold default_temperature. lra. }
  assert (Ht : xtotal_of default_temperature [("a"%string, -1000)] = Fin 1).
  { unfold xtotal_of. rewrite xsum_nonneg by apply exps_nonneg.
    unfold exps_of. cbn [map snd]. rewrite (fexp_underflow _ Hu).
    rewrite rsum_cons, rsum_nil. pose proof DBL_MAX_ge.
    destruct (Rlt_dec DBL_MAX _); [lra|]. cbn [xor_default].
    unfold py_or. destruct (Req_dec_T _ 0); [done|lra]. }
  rewrite pro_softmax_finite.
  - rewrite Ht. cbn [map fst snd xshare]. rewrite (fexp_underflow _ Hu).
    replace (0 / 1 * 100) with 0 by lra. by rewrite py_round2_0.
  - dict_literal_wf.
  - apply overflowed_nil_Forall. repeat constructor. cbn [snd]. unfold overflows.
    pose proof DBL_UNDERFLOW_lt_1. pose proof DBL_MAX_ge. lra.
Qed.

(** Two exponentials that each fit, with a sum that does not: [total] is
    +inf and all percentages are 0.  Here both activations are
    [ln DBL_MAX / 4], about 177.4457. *)
Lemma softmax_sum_overflow :
  let v := ln DBL_MAX / default_temperature in
  _softmax [("a"%string, v); ("b"%string, v)] default_temperature =
  Ok [("a"%string, Fin 0); ("b"%string, Fin 0)].
Proof.
  intros v. pose proof DBL_MAX_ge as Hmax. pose proof DBL_UNDERFLOW_lt_1 as Hmin.
  assert (He : exp (v * default_temperature) = DBL_MAX).
  { unfold v, default_temperature.
    replace (ln DBL_MAX / 4 * 4) with (ln DBL_MAX) by lra.
    apply exp_ln. lra. }
  assert (Hf : fexp (v * default_temperature) = DBL_MAX).
  { rewrite fexp_exact; [done|]. rewrite He. lra. }
  assert (Ht : xtotal_of default_temperature [("a"%string, v); ("b"%string, v)] = PInf).
  { unfold xtotal_of. rewrite xsum_nonneg by apply exps_nonneg.
    unfold exps_of. cbn [map snd]. rewrite Hf, !rsum_cons, rsum_nil.
    destruct (Rlt_dec DBL_MAX _); [done|lra]. }
  rewrite pro_softmax_finite.
  - rewrite Ht. cbn [map fst snd xshare].
    replace (0 * 100) with 0 by lra. by rewrite py_round2_0.
  - dict_literal_wf.
  - apply overflowed_nil_Forall.
    repeat (apply List.Forall_cons; [cbn [snd]; unfold overflows; lra|]).
    apply List.Forall_nil.
Qed.

(** The two distribution builders called on {"a": 1000.0, "b": 0.0},
    which no call in either program passes: the exponential of "a"
    overflows.  CJL-PRO returns 100 for "a" and 0 for "b"; CJL raises
    OverflowError.  So the equal split does not hold of the CJL function
    for every mapping (C3 as worded). *)
Theorem softmax_overflow_variants :
  let scores : dict R := [("a"%string, 1000); ("b"%string, 0)] in
  _softmax scores default_temperature = Ok [("a"%string, Fin 100); ("b"%string, Fin 0)] /\
  Scoring._softmax scores = Raise OverflowError.
Proof.
  intros scores.
  assert (Ha : forall T, 4 <= T -> overflows T 1000).
  { intros T HT. apply exp_overflows. lra. }
  assert (Hb : forall T, ~ overflows T 0).
  { intros T. unfold overflows. replace (0 * T) with 0 by lra.
    rewrite exp_0. pose proof DBL_MAX_ge. lra. }
  assert (Hov : forall T, 4 <= T -> overflowed T scores = [("a"%string, 1000)]).
  { intros T HT. unfold overflowed, scores.
    rewrite filter_cons_True by (by apply Ha).
    rewrite filter_cons_False by apply Hb. done. }
  split.
  - assert (H4 : 4 <= default_temperature) by (unfold default_temperature; lra).
    rewrite pro_softmax_overflow.
    + rewrite (Hov _ H4). unfold scores. cbn [map fst snd length].
      rewrite decide_True by (by apply Ha).
      rewrite decide_False by apply Hb.
      do 4 f_equal. simpl. lra.
    + dict_literal_wf.
    + by rewrite (Hov _ H4).
  - apply cjl_softmax_raises. apply Exists_cons_hd. cbn [snd]. split.
    + pose proof DBL_MAX_ge_million. lra.
    + apply (Ha 5). lra.
Qed.

End Percentages.

(** ** Stable descending sort *)

Section stable_sort.
Context {A K : Type} (ltb : K -> K -> bool) (key : A -> K) (val : A -> R).
Local Open Scope R_scope.

Lemma insert_desc_sorted (l : list A) (x : A) (r : list A) :
  key_order ltb key val (x :: r) ->
  (forall z, z ∈ r -> occurs_before l x z) ->
  StronglySorted (ranks_before val l) r ->
  StronglySorted (ranks_before val l) (insert_desc ltb key x r).
Proof.
  induction r as [|y ys IH]; intros Hord Hbefore Hsorted; simpl.
  - repeat constructor.
  - apply StronglySorted_inv in Hsorted as [Hys Hy].
    assert (Hxy := Hord x y ltac:(left) ltac:(right; left)).
    destruct (ltb (key x) (key y)) eqn:Hlt.
    + constructor.
      * apply IH; [|intros z Hz; apply Hbefore; by right|done].
        intros a b Ha Hb. apply Hord.
        -- apply elem_of_cons in Ha as [->|Ha]; [left|right; by right].
        -- apply elem_of_cons in Hb as [->|Hb]; [left|right; by right].
      * rewrite insert_desc_perm. constructor; [|done].
        left. by apply Hxy.
    + constructor; [by constructor|].
      assert (Hyx : val y <= val x).
      { apply Rnot_lt_le. intros H. apply Hxy in H. congruence. }
      apply Forall_forall. intros z Hz.
      assert (Hzy : val z <= val y).
      { apply elem_of_cons in Hz as [->|Hz]; [lra|].
        rewrite Forall_forall in Hy. destruct (Hy z Hz) as [?|[? _]]; lra. }
      destruct (Rle_lt_or_eq_dec _ _ (Rle_trans _ _ _ Hzy Hyx)) as [Hlt'|Heq].
      * by left.
      * right. split; [done|]. by apply Hbefore.
Qed.

Lemma sorted_reverse_suffix (l0 : list A) (l : list A) :
  key_order ltb key val l0 ->
  forall pre, l0 = pre ++ l ->
    StronglySorted (ranks_before val l0) (sorted_reverse ltb key l).
Proof.
  intros Hord. induction l as [|x xs IH]; intros pre Hl0; simpl.
  - constructor.
  - assert (Hxs : forall z, z ∈ sorted_reverse ltb key xs -> z ∈ xs).
    { intros z Hz. by rewrite sorted_reverse_perm in Hz. }
    assert (Hin : forall z, z ∈ x :: xs -> z ∈ l0).
    { intros z Hz. rewrite Hl0. apply elem_of_app. by right. }
    apply insert_desc_sorted.
    + intros a b Ha Hb. apply Hord; apply Hin.
      * apply elem_of_cons in Ha as [->|Ha]; [left|right; auto].
      * apply elem_of_cons in Hb as [->|Hb]; [left|right; auto].
    + intros z Hz%Hxs. apply list_elem_of_split in Hz as (l2 & l3 & ->).
      by exists pre, l2, l3.
    + apply (IH (pre ++ [x])). by rewrite <- app_assoc.
Qed.

(** The result of [sorted(l, key=..., reverse=True)] is descending, and
    elements with equal keys keep the order they had in [l]. *)
Lemma sorted_reverse_stable (l : list A) :
  key_order ltb key val l -> StronglySorted (ranks_before val l) (sorted_reverse ltb key l).
Proof. intros Hord. by apply (sorted_reverse_suffix l l Hord []). Qed.

End stable_sort.

Lemma StronglySorted_pairs {A : Type} (R : A -> A -> Prop) (l : list A) :
  StronglySorted R l ->
  forall i j a b, (i < j)%nat -> l !! i = Some a -> l !! j = Some b -> R a b.
Proof.
  induction 1 as [|x xs _ IH Hx]; intros i j a b Hij Hi Hj.
  - by rewrite lookup_nil in Hi.
  - destruct j as [|j]; [lia|]. simpl in Hj. destruct i as [|i].
    + simpl in Hi. injection Hi as ->. rewrite Forall_forall in Hx.
      apply Hx. by eapply list_elem_of_lookup_2.
    + simpl in Hi. apply (IH i j); [lia|done|done].
Qed.

(** ** Scoring and ranking a candidate mapping *)

Module Ranking.
Import Dict DictFacts PyFloat PyFloatFacts Numeric Engine.
Import Distribution Activation.
Local Open Scope R_scope.

Lemma activation_range nt cfg : 0 <= activation nt cfg <= 1.
Proof.
  unfold activation. cbv zeta. destruct (Rlt_dec DBL_MAX _).
  - destruct (Rlt_dec _ 0.5); lra.
  - pose proof (logistic_range _
                  (fexp_nonneg (exponent default_sharpness (node_dot cfg nt)))).
    lra.
Qed.

Lemma activations_keys nt (nodes : dict node) :
  keys (activations_of nt nodes) = keys nodes.
Proof. unfold keys, activations_of. by rewrite map_map. Qed.

(** Activations lie in [0, 1], so their exponentials do not overflow. *)
Lemma activations_finite nt (nodes : dict node) :
  overflowed default_temperature (activations_of nt nodes) = [].
Proof.
  apply overflowed_nil_Forall, Forall_forall. intros kv Hin.
  apply list_elem_of_fmap in Hin as [[k cfg] [-> _]]. cbn [snd].
  pose proof (activation_range nt cfg) as Hr.
  unfold overflows, default_temperature.
  pose proof (exp_fits (activation nt cfg * 4) ltac:(lra)). lra.
Qed.

Lemma node_percentage_finite nt (nodes : dict node) cfg :
  exists p, node_percentage nt nodes cfg = Fin p /\ 0 <= p.
Proof. apply xshare_finite, fexp_nonneg. Qed.

Lemma score_nodes_value (nodes : dict node) (nt : dict R) :
  dict_wf nodes ->
  score_nodes nodes nt =
  Ok (map (fun nc : string * node => (nc.1, node_percentage nt nodes nc.2)) nodes).
Proof.
  intros Hwf. unfold score_nodes.
  rewrite (result_foldl_set _ fst (fun nc : string * node => activation nt nc.2)).
  - cbn [mbind result_bind rbind app]. fold (activations_of nt nodes).
    rewrite pro_softmax_finite.
    + unfold activations_of at 2. by rewrite map_map.
    + unfold dict_wf. by rewrite activations_keys.
    + apply activations_finite.
  - intros acc [k cfg] _. cbn [fst snd].
    by rewrite pro_sigmoid_value by (unfold default_sharpness; lra).
  - exact Hwf.
Qed.

Lemma ranked_nodes_value (nodes : dict node) (nt : dict R) :
  dict_wf nodes ->
  Run.ranked_nodes
    (map (fun nc : string * node => (nc.1, node_percentage nt nodes nc.2)) nodes)
    nodes =
  Ok (sorted_reverse xltb Run.ranked_key (map (ranked_item nt nodes) nodes)).
Proof.
  intros Hwf. unfold Run.ranked_nodes.
  rewrite (result_mapM_map _ _ (ranked_item nt nodes)); [done|].
  intros [k cfg] Hin. cbn [fst snd]. unfold getitem.
  by rewrite (get_elem_of k cfg nodes Hwf Hin).
Qed.

Lemma ranked_items_order nt (nodes : dict node) :
  key_order xltb Run.ranked_key ranked_value (map (ranked_item nt nodes) nodes).
Proof.
  intros a b Ha Hb.
  apply list_elem_of_fmap in Ha as [[ka ca] [-> _]].
  apply list_elem_of_fmap in Hb as [[kb cb] [-> _]].
  unfold ranked_value, Run.ranked_key, ranked_item. cbn [fst snd].
  destruct (node_percentage_finite nt nodes ca) as (pa & -> & _).
  destruct (node_percentage_finite nt nodes cb) as (pb & -> & _).
  cbn [xltb]. destruct (Rlt_dec _ _); split; try done.
Qed.

(** C8: for a candidate mapping [nodes] (distinct names) and any trait
    vector, [score_nodes] returns a probability mapping and [ranked_nodes]
    ranks it: every candidate appears once with its percentage and its
    configuration; of two entries of the ranked list the earlier one has the
    strictly greater percentage, or they have the same percentage and the
    earlier one was inserted first in [nodes]. *)
Theorem ranked_nodes_order (nodes : dict node) (norm_traits : dict R) :
  dict_wf nodes ->
  exists probs ranked,
    score_nodes nodes norm_traits = Ok probs /\
    Run.ranked_nodes probs nodes = Ok ranked /\
    map ranked_name ranked ≡ₚ keys nodes /\
    (forall name pct cfg,
        (name, pct, cfg) ∈ ranked ->
        get name probs = Some pct /\ get name nodes = Some cfg) /\
    (forall (i j : nat) na pa ca nb pb cb,
        (i < j)%nat ->
        ranked !! i = Some (na, pa, ca) ->
        ranked !! j = Some (nb, pb, cb) ->
        exists ra rb,
          pa = Fin ra /\ pb = Fin rb /\
          (rb < ra \/ (ra = rb /\ occurs_before (keys nodes) na nb))).
Proof.
  intros Hwf. do 2 eexists.
  split; [by apply score_nodes_value|].
  split; [by apply ranked_nodes_value|].
  set (items := map (ranked_item norm_traits nodes) nodes).
  set (ranked := sorted_reverse xltb Run.ranked_key items).
  assert (Hperm : ranked ≡ₚ items) by apply sorted_reverse_perm.
  assert (Hnames : map ranked_name items = keys nodes).
  { unfold items, keys. rewrite map_map. done. }
  assert (Hitem : forall x, x ∈ ranked ->
            exists k cfg, (k, cfg) ∈ nodes /\ x = ranked_item norm_traits nodes (k, cfg)).
  { intros x Hx. rewrite Hperm in Hx.
    apply list_elem_of_fmap in Hx as [[k cfg] [-> Hin]]. eauto. }
  split; [|split].
  - rewrite <- Hnames. by apply Permutation_map.
  - intros name pct cfg Hin.
    apply Hitem in Hin as (k & c & Hkc & [= -> -> ->]). split.
    + apply get_elem_of.
      * unfold dict_wf, keys. by rewrite map_map.
      * apply (list_elem_of_fmap_2
                 (fun nc : string * node =>
                    (nc.1, node_percentage norm_traits nodes nc.2))
                 nodes (k, c) Hkc).
    + by apply get_elem_of.
  - intros i j na pa ca nb pb cb Hij Hi Hj.
    pose proof (sorted_reverse_stable xltb Run.ranked_key ranked_value items
                  (ranked_items_order norm_traits nodes)) as Hs.
    pose proof (StronglySorted_pairs _ _ Hs i j _ _ Hij Hi Hj) as Hr.
    destruct (Hitem _ (list_elem_of_lookup_2 _ _ _ Hi)) as (ka & cfa & _ & [= -> -> ->]).
    destruct (Hitem _ (list_elem_of_lookup_2 _ _ _ Hj)) as (kb & cfb & _ & [= -> -> ->]).
    unfold ranks_before, ranked_value, Run.ranked_key, ranked_item in Hr.
    cbn [fst snd] in Hr |- *.
    destruct (node_percentage_finite norm_traits nodes cfa) as (ra & Hra & _).
    destruct (node_percentage_finite norm_traits nodes cfb) as (rb & Hrb & _).
    rewrite Hra, Hrb in Hr |- *.
    exists ra, rb. split; [done|]. split; [done|].
    destruct Hr as [Hlt|[Heq (l1 & l2 & l3 & Hsplit)]]; [by left|right].
    split; [exact Heq|].
    exists (map ranked_name l1), (map ranked_name l2), (map ranked_name l3).
    rewrite <- Hnames, Hsplit.
    rewrite map_app. cbn [map]. rewrite map_app.
    done.
Qed.

Lemma ranked_nodes_order_witness :
  let nodes : dict node :=
    [("Science"%string, mk_node "Empirical inquiry" (Some [("I"%string, 0.35)]));
     ("Technology"%string, mk_node "Engineering systems" (Some [("R"%string, 0.2)]))] in
  dict_wf nodes /\
  exists probs ranked,
    score_nodes nodes empty_traits = Ok probs /\
    Run.ranked_nodes probs nodes = Ok ranked /\
    map ranked_name ranked ≡ₚ keys nodes /\
    (forall name pct cfg,
        (name, pct, cfg) ∈ ranked ->
        get name probs = Some pct /\ get name nodes = Some cfg) /\
    (forall (i j : nat) na pa ca nb pb cb,
        (i < j)%nat ->
        ranked !! i = Some (na, pa, ca) ->
        ranked !! j = Some (nb, pb, cb) ->
        exists ra rb,
          pa = Fin ra /\ pb = Fin rb /\
          (rb < ra \/ (ra = rb /\ occurs_before (keys nodes) na nb))).
Proof.
  intros nodes.
  assert (H : dict_wf nodes).
  { dict_literal_wf. }
  split; [exact H|]. exact (ranked_nodes_order nodes empty_traits H).
Defined.

End Ranking.

(** * Further properties of the code *)

Import Glossary.

(** ** More arithmetic of the float model *)

Module NumericMore.
Import PyFloat PyFloatFacts Numeric.
Local Open Scope R_scope.

Lemma fexp_mono x y : x <= y -> fexp x <= fexp y.
Proof.
  intros Hxy. pose proof (exp_le_mono x y Hxy) as He. pose proof (exp_pos y).
  unfold fexp.
  destruct (Rle_dec (exp x) DBL_UNDERFLOW), (Rle_dec (exp y) DBL_UNDERFLOW); lra.
Qed.

Lemma fexp_0 : fexp 0 = 1.
Proof. rewrite fexp_nonneg_arg by lra. apply exp_0. Qed.

Lemma round_half_even_range y :
  (Zfloor y <= round_half_even y <= Zfloor y + 1)%Z.
Proof.
  unfold round_half_even.
  destruct (Rlt_dec _ _); [lia|]. destruct (Rlt_dec _ _); [lia|].
  destruct (Z.even _); lia.
Qed.

Lemma round_half_even_mono x y :
  x <= y -> (round_half_even x <= round_half_even y)%Z.
Proof.
  intros Hxy.
  assert (Hf : (Zfloor x <= Zfloor y)%Z).
  { apply Zfloor_lub. pose proof (Zfloor_bound x). lra. }
  destruct (Z.eq_dec (Zfloor x) (Zfloor y)) as [Heq|Hne].
  - unfold round_half_even. rewrite <- Heq.
    destruct (Rlt_dec (x - IZR (Zfloor x)) (1 / 2)),
             (Rlt_dec (y - IZR (Zfloor x)) (1 / 2)); try lra; try lia.
    + destruct (Rlt_dec (1 / 2) (y - IZR (Zfloor x))); [lia|].
      destruct (Z.even (Zfloor x)); lia.
    + destruct (Rlt_dec (1 / 2) (x - IZR (Zfloor x))),
               (Rlt_dec (1 / 2) (y - IZR (Zfloor x))); try lra; try lia.
      destruct (Z.even (Zfloor x)); lia.
  - pose proof (round_half_even_range x). pose proof (round_half_even_range y).
    lia.
Qed.

Lemma round_half_even_IZR n : round_half_even (IZR n) = n.
Proof. apply round_half_even_near. lra. Qed.

Lemma round_half_even_le y n : y <= IZR n -> (round_half_even y <= n)%Z.
Proof.
  intros H%round_half_even_mono. by rewrite round_half_even_IZR in H.
Qed.

Lemma round_half_even_ge y n : IZR n <= y -> (n <= round_half_even y)%Z.
Proof.
  intros H%round_half_even_mono. by rewrite round_half_even_IZR in H.
Qed.

Lemma py_round2_mono x y : x <= y -> py_round2 x <= py_round2 y.
Proof.
  intros Hxy. unfold py_round2.
  assert (H : (round_half_even (x * 100) <= round_half_even (y * 100))%Z)
    by (apply round_half_even_mono; lra).
  apply IZR_le in H. lra.
Qed.

Lemma py_round2_le_100 x : x <= 100 -> py_round2 x <= 100.
Proof.
  intros Hx. unfold py_round2.
  assert (H : (round_half_even (x * 100) <= 10000)%Z)
    by (apply round_half_even_le; lra).
  apply IZR_le in H. lra.
Qed.

Lemma exp_le_pow3 (n : nat) x : x <= INR n -> exp x <= 3 ^ n.
Proof.
  intros Hx. eapply Rle_trans; [apply exp_le_mono, Hx|].
  rewrite exp_nat. apply pow_incr.
  pose proof exp_le_3. pose proof (exp_pos 1). lra.
Qed.

Lemma rsum_elem_le x l : Forall (fun y => 0 <= y) l -> x ∈ l -> x <= Engine.rsum l.
Proof.
  induction 1 as [|y l Hy Hl IH]; intros Hin; [by apply elem_of_nil in Hin|].
  rewrite rsum_cons. pose proof (rsum_nonneg _ Hl).
  apply elem_of_cons in Hin as [->|Hin]; [lra|]. specialize (IH Hin). lra.
Qed.

End NumericMore.

(** ** The accumulator and answers that carry no information *)

Module Neutral.
Import PyFloat Engine Dict DictFacts.
Local Open Scope R_scope.

Lemma set_same {V : Type} k (v : V) (d : dict V) : get k d = Some v -> set k v d = d.
Proof.
  induction d as [|[k' v'] d IH]; simpl; [done|].
  destruct (decide (k = k')) as [->|Hne]; [by intros [= ->]|].
  intros H. by rewrite IH.
Qed.

Lemma add_weighted_zero d tw : add_weighted 0 d tw = d.
Proof.
  unfold add_weighted. destruct (get tw.1 d) as [v|] eqn:E; [|done].
  apply set_same. rewrite E. f_equal. lra.
Qed.

Lemma answer_delta_neutral answer :
  upper answer ∉ ["A"; "B"; "D"; "E"]%string -> answer_delta answer = 0%Z.
Proof.
  intros Hn. unfold answer_delta, get_default, LIKERT_MAP. cbn [get].
  repeat (destruct (decide _) as [Heq|?];
          [try done; exfalso; apply Hn; rewrite Heq; set_solver|]).
  done.
Qed.

(** X1.  A letter that, in upper case, is none of A, B, D, E (the neutral C,
    or anything the answer table does not know) leaves every running total
    as it was: [apply_answer] returns the contents of its argument. *)
Theorem apply_answer_neutral (traits : dict R) (q : question) (answer : string) :
  upper answer ∉ ["A"; "B"; "D"; "E"]%string ->
  apply_answer traits q answer = traits.
Proof.
  intros Hn. unfold apply_answer. rewrite (answer_delta_neutral _ Hn).
  generalize (question_traits q). intros l.
  induction l as [|tw l IH]; [done|]. cbn [foldl]. by rewrite add_weighted_zero.
Qed.

Lemma apply_answer_neutral_witness :
  let q := mk_question "s1_01" "I enjoy experiments" (Some [("I"%string, 1)]) in
  (upper "x" ∉ ["A"; "B"; "D"; "E"]%string) /\
  apply_answer empty_traits q "x" = empty_traits.
Proof.
  assert (H : upper "x" ∉ ["A"; "B"; "D"; "E"]%string).
  { apply (bool_decide_unpack _). by vm_compute. }
  split; [exact H|]. exact (apply_answer_neutral _ _ _ H).
Defined.

End Neutral.

(** ** The activation keeps the order of its arguments *)

Module ActivationOrder.
Import PyFloat PyFloatFacts Numeric NumericMore Activation Engine.
Local Open Scope R_scope.

(** The value of [_sigmoid], as [pro_sigmoid_value] gives it. *)
Lemma sigmoid_value_mono s x y :
  0 <= s -> x <= y ->
  (if Rlt_dec DBL_MAX (exp (exponent s x))
   then (if Rlt_dec x 0.5 then 0 else 1)
   else 1 / (1 + fexp (exponent s x))) <=
  (if Rlt_dec DBL_MAX (exp (exponent s y))
   then (if Rlt_dec y 0.5 then 0 else 1)
   else 1 / (1 + fexp (exponent s y))).
Proof.
  intros Hs Hxy.
  assert (Hz : exponent s y <= exponent s x) by (unfold exponent; nra).
  pose proof (exp_le_mono _ _ Hz) as He.
  pose proof (fexp_mono _ _ Hz) as Hf.
  pose proof (fexp_nonneg (exponent s x)) as Hx0.
  pose proof (fexp_nonneg (exponent s y)) as Hy0.
  pose proof DBL_MAX_ge as HM.
  assert (Hpos : forall z, DBL_MAX < exp z -> 0 < z).
  { intros z Hz'. destruct (Rle_dec z 0) as [Hle|]; [|lra].
    pose proof (exp_le_mono _ _ Hle) as H0. rewrite exp_0 in H0. lra. }
  destruct (Rlt_dec DBL_MAX (exp (exponent s x))) as [Hox|Hox].
  - assert (Hlt : x < 0.5).
    { apply Hpos in Hox. unfold exponent in Hox. nra. }
    destruct (Rlt_dec x 0.5); [|lra].
    destruct (Rlt_dec DBL_MAX (exp (exponent s y))).
    + destruct (Rlt_dec y 0.5); lra.
    + pose proof (logistic_range _ Hy0). lra.
  - destruct (Rlt_dec DBL_MAX (exp (exponent s y))); [lra|].
    unfold Rdiv. rewrite !Rmult_1_l.
    apply Rinv_le_contravar; lra.
Qed.

(** X2.  For a non-negative sharpness the activation never reverses an
    order: a larger argument gives a value at least as large, also across
    the saturated branch; and the argument 0.5 gives exactly 0.5. *)
Theorem sigmoid_monotone (x y sharpness : R) :
  0 <= sharpness -> x <= y ->
  exists a b,
    _sigmoid x sharpness = Ok a /\ _sigmoid y sharpness = Ok b /\ a <= b /\
    (x = 0.5 -> a = 0.5).
Proof.
  intros Hs Hxy. rewrite !(pro_sigmoid_value _ _ Hs).
  eexists _, _. split; [reflexivity|]. split; [reflexivity|].
  split; [by apply sigmoid_value_mono|].
  intros ->. unfold exponent.
  replace (- sharpness * (0.5 - 0.5)) with 0 by lra.
  rewrite exp_0, fexp_0. pose proof DBL_MAX_ge.
  destruct (Rlt_dec DBL_MAX 1); lra.
Qed.

Lemma sigmoid_monotone_witness :
  0 <= default_sharpness /\ 0.5 <= 0.75 /\
  exists a b,
    _sigmoid 0.5 default_sharpness = Ok a /\
    _sigmoid 0.75 default_sharpness = Ok b /\ a <= b /\
    (0.5 = 0.5 -> a = 0.5).
Proof.
  assert (H1 : 0 <= default_sharpness) by (unfold default_sharpness; lra).
  assert (H2 : 0.5 <= 0.75) by lra.
  split; [exact H1|]. split; [exact H2|].
  exact (sigmoid_monotone 0.5 0.75 default_sharpness H1 H2).
Defined.

End ActivationOrder.

(** ** Every percentage is a percentage *)

Module Shares.
Import PyFloat PyFloatFacts Numeric NumericMore Distribution Engine Dict DictFacts.
Local Open Scope R_scope.

(** The share of one of the exponentials lies between 0 and 100. *)
Lemma xshare_percentage T (scores : dict R) (kv : string * R) :
  kv ∈ scores ->
  is_percentage (xshare (xtotal_of T scores) (fexp (kv.2 * T))).
Proof.
  intros Hin. unfold is_percentage, xtotal_of.
  pose proof (exps_nonneg T scores) as Hnn.
  pose proof (rsum_nonneg _ Hnn) as Hsum.
  assert (Hle : fexp (kv.2 * T) <= rsum (exps_of T scores)).
  { apply rsum_elem_le; [done|]. unfold exps_of.
    apply list_elem_of_fmap. by exists kv. }
  pose proof (fexp_nonneg (kv.2 * T)) as He.
  rewrite (xsum_nonneg _ Hnn).
  destruct (Rlt_dec DBL_MAX _); cbn [xor_default xshare].
  - eexists. split; [reflexivity|]. rewrite Rmult_0_l, py_round2_0. lra.
  - eexists. split; [reflexivity|].
    set (t := py_or (rsum (exps_of T scores)) 1).
    assert (Ht : 0 < t /\ fexp (kv.2 * T) <= t).
    { unfold t, py_or. destruct (Req_dec_T _ 0); lra. }
    destruct Ht as [Ht Het].
    assert (Hq : 0 <= fexp (kv.2 * T) / t <= 1).
    { split.
      - apply Rmult_le_pos; [done|]. left. by apply Rinv_0_lt_compat.
      - apply (Rmult_le_reg_r t); [done|]. unfold Rdiv.
        rewrite Rmult_assoc, Rinv_l by lra. lra. }
    split; [apply py_round2_nonneg|apply py_round2_le_100]; nra.
Qed.

Lemma shares_percentages T (scores : dict R) :
  Forall (fun kv : string * xfloat => is_percentage kv.2)
    (map (fun kv : string * R =>
            (kv.1, xshare (xtotal_of T scores) (fexp (kv.2 * T)))) scores).
Proof.
  apply Forall_forall. intros x Hx.
  apply list_elem_of_fmap in Hx as [kv [-> Hin]]. by apply xshare_percentage.
Qed.

Lemma keys_map_values {V W : Type} (f : string * V -> W) (d : dict V) :
  keys (map (fun kv : string * V => (kv.1, f kv)) d) = keys d.
Proof. unfold keys. rewrite map_map. by apply map_ext. Qed.

(** X3.  [_softmax] of CJL-PRO returns for every dictionary of finite
    scores and every temperature: it never raises, the result has the keys
    of the argument in the same order, and every value is a finite number
    between 0 and 100 (never nan, never an infinity). *)
Theorem pro_softmax_never_fails (scores : dict R) (T : R) :
  dict_wf scores ->
  exists out,
    _softmax scores T = Ok out /\
    keys out = keys scores /\
    Forall (fun kv : string * xfloat => is_percentage kv.2) out.
Proof.
  intros Hwf.
  destruct (decide (overflowed T scores = [])) as [Hnil|Hne].
  - rewrite (pro_softmax_finite _ _ Hwf Hnil). eexists. split; [reflexivity|].
    split; [apply (keys_map_values (fun kv => xshare _ (fexp (kv.2 * T))))|].
    apply shares_percentages.
  - rewrite (pro_softmax_overflow _ _ Hwf Hne). eexists. split; [reflexivity|].
    split; [apply (keys_map_values (fun kv => Fin _))|].
    apply Forall_forall. intros x Hx.
    apply list_elem_of_fmap in Hx as [kv [-> Hin]]. cbn [snd].
    eexists. split; [reflexivity|].
    assert (Hm : 1 <= INR (length (overflowed T scores))).
    { destruct (overflowed T scores) as [|a l]; [done|].
      cbn [length]. rewrite S_INR. pose proof (pos_INR (length l)). lra. }
    destruct (decide (overflows T kv.2)); [|lra].
    split.
    + apply Rmult_le_pos; [lra|]. left. apply Rinv_0_lt_compat. lra.
    + apply (Rmult_le_reg_r (INR (length (overflowed T scores)))); [lra|].
      unfold Rdiv. rewrite Rmult_assoc, Rinv_l by lra. lra.
Qed.

Lemma pro_softmax_never_fails_witness :
  let scores : dict R := [("a"%string, 1000); ("b"%string, -1000)] in
  dict_wf scores /\
  exists out,
    _softmax scores default_temperature = Ok out /\
    keys out = keys scores /\
    Forall (fun kv : string * xfloat => is_percentage kv.2) out.
Proof.
  assert (H : dict_wf [("a"%string, 1000); ("b"%string, -1000)]).
  { unfold dict_wf. apply (bool_decide_unpack _). by vm_compute. }
  split; [exact H|]. exact (pro_softmax_never_fails _ default_temperature H).
Defined.

(** Values that are +inf or finite and non-negative add up to +inf as soon
    as one of them is +inf. *)
Lemma xsum_with_inf (l : list xfloat) :
  Forall (fun a => a = PInf \/ exists r, a = Fin r /\ 0 <= r) l ->
  Exists (fun a => a = PInf) l ->
  xsum l = PInf.
Proof.
  intros Hgood Hex. unfold xsum.
  assert (Hinf : forall l, Forall (fun a => a = PInf \/ exists r, a = Fin r /\ 0 <= r) l ->
                   foldl xadd PInf l = PInf).
  { clear. induction 1 as [|a l [->|(r & -> & _)] _ IH]; [done|exact IH|exact IH]. }
  assert (Hgen : forall a0, 0 <= a0 -> foldl xadd (Fin a0) l = PInf).
  { induction Hex as [a l ->|a l Hex IH]; intros a0 Ha0;
      apply Forall_cons in Hgood as [Ha Hl]; cbn [foldl].
    - cbn [xadd]. by apply Hinf.
    - destruct Ha as [->|(r & -> & Hr)]; [by apply Hinf|].
      cbn [xadd]. unfold xrange. pose proof DBL_MAX_ge.
      destruct (Rlt_dec DBL_MAX (a0 + r)); [by apply Hinf|].
      destruct (Rlt_dec (a0 + r) (- DBL_MAX)); [lra|].
      apply IH; [done|lra]. }
  apply Hgen. lra.
Qed.

(** What the first comprehension of CJL's [_softmax] stores. *)
Lemma cjl_exp_vals (values : dict R) :
  Forall (fun kv : string * R => ~ exp_raises (kv.2 * 5)) values ->
  result_mapM
    (fun kv : string * R => e ← math_exp_x (xrange (kv.2 * 5)); Ok (kv.1, e))
    values =
  Ok (map (fun kv : string * R =>
             (kv.1, if Rlt_dec DBL_MAX (kv.2 * 5) then PInf
                    else Fin (fexp (kv.2 * 5))))
          values).
Proof.
  intros Hok. apply result_mapM_pure. intros kv Hin.
  rewrite Forall_forall in Hok. specialize (Hok kv Hin).
  rewrite math_exp_x_range.
  destruct (Rlt_dec DBL_MAX (kv.2 * 5)); [done|].
  destruct (Rlt_dec DBL_MAX (exp (kv.2 * 5))); [|done].
  exfalso. apply Hok. split; lra.
Qed.

(** CJL, some product already +inf: nan for these values, 0 for the
    others. *)
Lemma cjl_softmax_nan (values : dict R) :
  Forall (fun kv : string * R => ~ exp_raises (kv.2 * 5)) values ->
  Exists (fun kv : string * R => DBL_MAX < kv.2 * 5) values ->
  Scoring._softmax values =
  Ok (map (fun kv : string * R =>
             (kv.1, if Rlt_dec DBL_MAX (kv.2 * 5) then NaN
                    else Fin (py_round2 (0 * 100))))
          values).
Proof.
  intros Hok Hinf. unfold Scoring._softmax. rewrite (cjl_exp_vals _ Hok).
  cbn [mbind result_bind rbind].
  set (exp_vals := map _ values).
  assert (Hsum : xsum (Dict.values exp_vals) = PInf).
  { apply xsum_with_inf.
    - apply Forall_forall. intros a Ha. unfold Dict.values, exp_vals in Ha.
      rewrite map_map in Ha. apply list_elem_of_fmap in Ha as [kv [-> _]]. cbn [snd].
      destruct (Rlt_dec DBL_MAX (kv.2 * 5)); [by left|right].
      eexists. split; [reflexivity|apply fexp_nonneg].
    - unfold Dict.values, exp_vals. rewrite map_map.
      apply Exists_exists in Hinf as (kv & Hin & Hkv).
      apply Exists_exists. eexists. split.
      + apply list_elem_of_fmap. by exists kv.
      + cbn [snd]. by destruct (Rlt_dec DBL_MAX (kv.2 * 5)). }
  rewrite Hsum. cbn [xor_default]. unfold exp_vals.
  apply result_mapM_map. intros kv _. cbn [fst snd].
  by destruct (Rlt_dec DBL_MAX (kv.2 * 5)).
Qed.

(** X4.  [_softmax] of CJL has exactly one way to fail: it raises
    OverflowError when, for some value, the product with 5 is a finite
    double whose exponential is out of range.  In every other case it
    returns the keys of its argument, in order; a value whose product with
    5 is already +inf gets nan (from inf / inf), every other value gets a
    finite percentage between 0 and 100. *)
Theorem cjl_softmax_outcomes (values : dict R) :
  match Scoring._softmax values with
  | Ok out =>
      Forall (fun kv : string * R => ~ exp_raises (kv.2 * 5)) values /\
      keys out = keys values /\
      Forall2 (fun (kv : string * R) (ko : string * xfloat) => cjl_share kv.2 ko.2)
              values out
  | Raise e =>
      e = OverflowError /\
      Exists (fun kv : string * R => exp_raises (kv.2 * 5)) values
  end.
Proof.
  destruct (decide (Exists (fun kv : string * R => exp_raises (kv.2 * 5)) values))
    as [Hex|Hok].
  { rewrite (cjl_softmax_raises _ Hex). by split. }
  apply not_Exists_Forall in Hok; [|intros kv; apply _].
  assert (Hok' : Forall (fun kv : string * R => ~ exp_raises (kv.2 * 5)) values).
  { eapply Forall_impl; [exact Hok|]. intros kv H. exact H. }
  destruct (decide (Exists (fun kv : string * R => DBL_MAX < kv.2 * 5) values))
    as [Hinf|Hfin].
  - rewrite (cjl_softmax_nan _ Hok' Hinf). split; [done|]. split.
    + apply (keys_map_values (fun kv => if Rlt_dec DBL_MAX (kv.2 * 5) then NaN
                                         else Fin (py_round2 (0 * 100)))).
    + apply Forall2_fmap_r, Forall_Forall2_diag, Forall_forall.
      intros kv _. unfold cjl_share, compose. cbn [snd].
      destruct (Rlt_dec DBL_MAX (kv.2 * 5)); [done|].
      eexists. split; [reflexivity|].
      replace (0 * 100) with 0 by lra. rewrite py_round2_0. lra.
  - apply not_Exists_Forall in Hfin; [|intros kv; apply _].
    assert (Hnil : overflowed 5 values = []).
    { apply overflowed_nil_Forall, Forall_forall. intros kv Hin.
      rewrite Forall_forall in Hok', Hfin.
      specialize (Hok' kv Hin). specialize (Hfin kv Hin). cbn in Hfin.
      unfold overflows. intros Hov. apply Hok'. split; [|done].
      destruct (Rle_dec (kv.2 * 5) DBL_MAX); [done|]. exfalso. apply Hfin. lra. }
    rewrite (cjl_softmax_finite _ Hnil). split; [done|]. split.
    + apply (keys_map_values (fun kv => xshare _ (fexp (kv.2 * 5)))).
    + apply Forall2_fmap_r, Forall_Forall2_diag, Forall_forall.
      intros kv Hin. unfold cjl_share, compose. cbn [snd].
      rewrite Forall_forall in Hfin. specialize (Hfin kv Hin). cbn in Hfin.
      destruct (Rlt_dec DBL_MAX (kv.2 * 5)); [done|].
      by apply xshare_percentage.
Qed.

End Shares.

(** ** The scorer keeps the order of the weighted sums *)

Module ScoreOrder.
Import PyFloat PyFloatFacts Numeric NumericMore Distribution Engine Dict DictFacts.
Import ActivationOrder Ranking.
Local Open Scope R_scope.

Lemma activation_mono nt c1 c2 :
  node_dot c1 nt <= node_dot c2 nt -> activation nt c1 <= activation nt c2.
Proof.
  intros H. unfold activation. cbv zeta.
  apply sigmoid_value_mono; [unfold default_sharpness; lra|done].
Qed.

Lemma xshare_mono T (scores : dict R) e1 e2 :
  e1 <= e2 ->
  exists p1 p2,
    xshare (xtotal_of T scores) e1 = Fin p1 /\
    xshare (xtotal_of T scores) e2 = Fin p2 /\ p1 <= p2.
Proof.
  intros He. destruct (xtotal_cases T scores) as [(t & -> & Ht)| ->]; simpl;
    eexists _, _; (split; [reflexivity|]); (split; [reflexivity|]); [|lra].
  apply py_round2_mono. apply Rmult_le_compat_r; [lra|].
  apply Rmult_le_compat_r; [|done]. left. by apply Rinv_0_lt_compat.
Qed.

(** X5.  [score_nodes] returns for every candidate dictionary, and its
    percentages follow the weighted sums: a candidate whose weighted sum of
    traits is at least that of another gets a percentage that is at least
    as large (so equal sums give equal percentages). *)
Theorem score_nodes_monotone (nodes : dict node) (norm_traits : dict R) :
  dict_wf nodes ->
  exists probs,
    score_nodes nodes norm_traits = Ok probs /\
    forall n1 c1 n2 c2,
      (n1, c1) ∈ nodes -> (n2, c2) ∈ nodes ->
      node_dot c1 norm_traits <= node_dot c2 norm_traits ->
      exists p1 p2,
        get n1 probs = Some (Fin p1) /\ get n2 probs = Some (Fin p2) /\ p1 <= p2.
Proof.
  intros Hwf. rewrite (score_nodes_value _ _ Hwf).
  eexists. split; [reflexivity|].
  intros n1 c1 n2 c2 H1 H2 Hdot.
  rewrite !(Monotone.get_map_values (node_percentage norm_traits nodes)).
  rewrite (get_elem_of _ _ _ Hwf H1), (get_elem_of _ _ _ Hwf H2).
  cbn [fmap option_fmap option_map]. unfold node_percentage.
  destruct (xshare_mono default_temperature (activations_of norm_traits nodes)
              (fexp (activation norm_traits c1 * default_temperature))
              (fexp (activation norm_traits c2 * default_temperature)))
    as (p1 & p2 & E1 & E2 & Hle).
  { apply fexp_mono. pose proof (activation_mono norm_traits c1 c2 Hdot).
    unfold default_temperature. lra. }
  exists p1, p2. by rewrite E1, E2.
Qed.

Lemma score_nodes_monotone_witness :
  let nodes : dict node :=
    [("Science"%string, mk_node "Empirical inquiry" (Some [("I"%string, 0.35)]));
     ("Technology"%string, mk_node "Engineering systems" (Some [("R"%string, 0.2)]))] in
  dict_wf nodes /\
  exists probs,
    score_nodes nodes empty_traits = Ok probs /\
    forall n1 c1 n2 c2,
      (n1, c1) ∈ nodes -> (n2, c2) ∈ nodes ->
      node_dot c1 empty_traits <= node_dot c2 empty_traits ->
      exists p1 p2,
        get n1 probs = Some (Fin p1) /\ get n2 probs = Some (Fin p2) /\ p1 <= p2.
Proof.
  intros nodes.
  assert (H : dict_wf nodes).
  { unfold dict_wf. apply (bool_decide_unpack _). by vm_compute. }
  split; [exact H|]. exact (score_nodes_monotone nodes empty_traits H).
Defined.

End ScoreOrder.

(** ** The normaliser around its midpoint *)

Module Midpoint.
Import PyFloat PyFloatFacts Engine Dict DictFacts Normaliser.
Local Open Scope R_scope.

Lemma normalise_traits_get raw n mw k v :
  get k raw = Some v ->
  exists out,
    normalise_traits raw n mw = Ok out /\
    get k out = Some (spec_normalise n mw v).
Proof.
  intros Hk. rewrite normalise_traits_spec. eexists. split; [reflexivity|].
  rewrite (Monotone.get_map_values (spec_normalise n mw)). by rewrite Hk.
Qed.

Lemma spec_normalise_cases n mw v :
  let b := spec_bound n mw in
  let p := spec_normalise n mw v in
  (v <= - b /\ p = 0) \/
  (- b < v < b /\ p = 0.5 + v / (2 * b)) \/
  (b <= v /\ p = 1).
Proof.
  intros b p. pose proof (spec_bound_ge_1 n mw) as Hb. fold b in Hb.
  assert (Hu' : (v + b) / (2 * b) * (2 * b) = v + b) by (field; lra).
  assert (Hw : v / (2 * b) * (2 * b) = v) by (field; lra).
  assert (Hu : (v + b) / (2 * b) = 0.5 + v / (2 * b)).
  { apply (Rmult_eq_reg_r (2 * b)); [|lra]. rewrite Hu'. nra. }
  clear Hu'.
  unfold p, spec_normalise, spec_clamp. fold b. rewrite Hu.
  set (w := v / (2 * b)) in *.
  clearbody w b. clear Hu p.
  destruct (Rle_dec (0.5 + w) 0) as [Hlo|Hlo].
  { left. rewrite Rmax_left; [split; nra|].
    apply Rmin_case_strong; intros; lra. }
  destruct (Rle_dec 1 (0.5 + w)) as [Hhi|Hhi].
  { right; right. rewrite Rmin_left, Rmax_right by lra. split; nra. }
  right; left. rewrite Rmin_right, Rmax_right by lra. repeat split; nra.
Qed.

(** X6.  The normalised value is never on the wrong side of the midpoint:
    a non-negative running total gives a value of at least 0.5 and a
    non-positive one a value of at most 0.5, so a value above (below) 0.5
    comes from a positive (negative) total only.  A total of at least the
    bound [max(n * max_weight * 2, 1)] gives exactly 1, and a total of at
    most minus the bound gives exactly 0. *)
Theorem normalise_traits_sign (raw : dict R) (n_questions : Z) (max_weight : R)
    (k : string) (v : R) :
  get k raw = Some v ->
  exists out p,
    normalise_traits raw n_questions max_weight = Ok out /\
    get k out = Some p /\
    (0 <= v -> 0.5 <= p) /\
    (v <= 0 -> p <= 0.5) /\
    (0.5 < p -> 0 < v) /\
    (p < 0.5 -> v < 0) /\
    (spec_bound n_questions max_weight <= v -> p = 1) /\
    (v <= - spec_bound n_questions max_weight -> p = 0).
Proof.
  intros Hk.
  destruct (normalise_traits_get raw n_questions max_weight k v Hk)
    as (out & Hout & Hget).
  exists out, (spec_normalise n_questions max_weight v).
  split; [done|]. split; [done|].
  pose proof (spec_bound_ge_1 n_questions max_weight) as Hb.
  pose proof (spec_normalise_cases n_questions max_weight v) as Hc.
  cbv zeta in Hc.
  set (b := spec_bound n_questions max_weight) in *.
  set (p := spec_normalise n_questions max_weight v) in *.
  assert (Hw : v / (2 * b) * (2 * b) = v) by (field; lra).
  set (w := v / (2 * b)) in *.
  destruct Hc as [[Hv Hp]|[[Hv Hp]|[Hv Hp]]]; rewrite Hp.
  - repeat split; intros; try lra.
  - repeat split; intros; try nra.
  - repeat split; intros; try lra.
Qed.

Lemma normalise_traits_sign_witness :
  let raw : dict R := [("I"%string, 2); ("O"%string, -1)] in
  get "I" raw = Some 2 /\
  exists out p,
    normalise_traits raw 1 default_max_weight = Ok out /\
    get "I" out = Some p /\
    (0 <= 2 -> 0.5 <= p) /\
    (2 <= 0 -> p <= 0.5) /\
    (0.5 < p -> 0 < 2) /\
    (p < 0.5 -> 2 < 0) /\
    (spec_bound 1 default_max_weight <= 2 -> p = 1) /\
    (2 <= - spec_bound 1 default_max_weight -> p = 0).
Proof.
  split; [reflexivity|].
  exact (normalise_traits_sign [("I"%string, 2); ("O"%string, -1)] 1
           default_max_weight "I" 2 eq_refl).
Defined.

Lemma spec_bound_mono n n' mw :
  0 <= mw -> (n <= n')%Z -> spec_bound n mw <= spec_bound n' mw.
Proof.
  intros Hmw Hn%IZR_le. unfold spec_bound.
  apply Rmax_case_strong; intros; apply Rmax_case_strong; intros; nra.
Qed.

(** X7.  With more answered questions the same running total moves towards
    the midpoint: for a non-negative [max_weight], raising [n_questions]
    never increases the distance of the normalised value from 0.5. *)
Theorem normalise_traits_drift (raw : dict R) (n n' : Z) (max_weight : R)
    (k : string) (v : R) :
  0 <= max_weight -> (n <= n')%Z -> get k raw = Some v ->
  exists out out' p p',
    normalise_traits raw n max_weight = Ok out /\
    normalise_traits raw n' max_weight = Ok out' /\
    get k out = Some p /\ get k out' = Some p' /\
    Rabs (p' - 0.5) <= Rabs (p - 0.5).
Proof.
  intros Hmw Hn Hk.
  destruct (normalise_traits_get raw n max_weight k v Hk) as (out & Hout & Hget).
  destruct (normalise_traits_get raw n' max_weight k v Hk) as (out' & Hout' & Hget').
  exists out, out', (spec_normalise n max_weight v), (spec_normalise n' max_weight v).
  do 4 (split; [done|]).
  pose proof (spec_bound_ge_1 n max_weight) as Hb.
  pose proof (spec_bound_mono n n' max_weight Hmw Hn) as Hbb.
  pose proof (spec_normalise_cases n max_weight v) as Hc.
  pose proof (spec_normalise_cases n' max_weight v) as Hc'.
  cbv zeta in Hc, Hc'.
  set (b := spec_bound n max_weight) in *.
  set (b' := spec_bound n' max_weight) in *.
  assert (Hw : v / (2 * b) * (2 * b) = v) by (field; lra).
  assert (Hw' : v / (2 * b') * (2 * b') = v) by (field; lra).
  set (w := v / (2 * b)) in *. set (w' := v / (2 * b')) in *.
  assert (Hww : (0 <= v -> 0 <= w' <= w) /\ (v <= 0 -> w <= w' <= 0)).
  { split; intros Hv.
    - assert (0 <= w') by nra. assert (0 <= w) by nra. split; [done|]. nra.
    - assert (w' <= 0) by nra. assert (w <= 0) by nra. split; [|done]. nra. }
  destruct Hww as [Hpos Hneg].
  destruct Hc as [[Hv Hp]|[[Hv Hp]|[Hv Hp]]];
    destruct Hc' as [[Hv' Hp']|[[Hv' Hp']|[Hv' Hp']]];
    rewrite Hp, Hp'; try lra;
    unfold Rabs; repeat destruct (Rcase_abs _); try lra; try nra.
  all: destruct (Rle_dec 0 v) as [H0|H0];
    [specialize (Hpos H0)|assert (H0' : v <= 0) by lra; specialize (Hneg H0')];
    nra.
Qed.

Lemma normalise_traits_drift_witness :
  let raw : dict R := [("I"%string, 2); ("O"%string, -1)] in
  0 <= default_max_weight /\ (1 <= 3)%Z /\ get "I" raw = Some 2 /\
  exists out out' p p',
    normalise_traits raw 1 default_max_weight = Ok out /\
    normalise_traits raw 3 default_max_weight = Ok out' /\
    get "I" out = Some p /\ get "I" out' = Some p' /\
    Rabs (p' - 0.5) <= Rabs (p - 0.5).
Proof.
  assert (H1 : 0 <= default_max_weight) by (unfold default_max_weight; lra).
  assert (H2 : (1 <= 3)%Z) by lia.
  split; [exact H1|]. split; [exact H2|]. split; [reflexivity|].
  exact (normalise_traits_drift [("I"%string, 2); ("O"%string, -1)] 1 3
           default_max_weight "I" 2 H1 H2 eq_refl).
Defined.

End Midpoint.

(** ** Informativeness of a question *)

Module Informative.
Import PyFloat PyFloatFacts Numeric Engine Dict DictFacts.
Local Open Scope R_scope.

Lemma get_default_unit (nt : dict R) k :
  Forall (fun kv : string * R => unit_interval kv.2) nt ->
  unit_interval (get_default k 0.5 nt).
Proof.
  intros Hnt. unfold get_default. destruct (get k nt) as [v|] eqn:E; simpl.
  - induction nt as [|[k' v'] nt IH]; [done|]. simpl in E.
    apply Forall_cons in Hnt as [Hv Hnt].
    destruct (decide (k = k')); [by injection E as <-|by apply IH].
  - unfold unit_interval. lra.
Qed.

(** The uncertainty factor of [informativeness]. *)
Lemma uncertainty_unit current :
  unit_interval current -> unit_interval (1 - Rabs (current - 0.5) * 2).
Proof.
  unfold unit_interval, Rabs. intros H. destruct (Rcase_abs _); lra.
Qed.

Lemma informativeness_foldl (nt : dict R) (l : dict R) :
  Forall (fun kv : string * R => unit_interval kv.2) nt ->
  Forall (fun tw : string * R => 0 <= tw.2) l ->
  forall a,
    a <= foldl (fun score (tw : string * R) =>
                  score + (1 - Rabs (get_default tw.1 0.5 nt - 0.5) * 2) * tw.2)
               a l
      <= a + rsum (values l).
Proof.
  intros Hnt. induction 1 as [|tw l Hw Hl IH]; intros a.
  - cbn [foldl values map]. rewrite rsum_nil. lra.
  - cbn [foldl values map]. fold (values l). rewrite rsum_cons.
    pose proof (uncertainty_unit _ (get_default_unit nt tw.1 Hnt)) as Hu.
    unfold unit_interval in Hu.
    specialize (IH (a + (1 - Rabs (get_default tw.1 0.5 nt - 0.5) * 2) * tw.2)).
    nra.
Qed.

(** X8.  For normalised traits between 0 and 1 and a question with
    non-negative weights, the informativeness of the question lies between
    0 and the sum of its weights. *)
Theorem informativeness_bounds (norm_traits : dict R) (q : question) :
  Forall (fun kv : string * R => unit_interval kv.2) norm_traits ->
  Forall (fun tw : string * R => 0 <= tw.2) (question_traits q) ->
  0 <= informativeness norm_traits q <= rsum (values (question_traits q)).
Proof.
  intros Hnt Hw. unfold informativeness.
  pose proof (informativeness_foldl norm_traits _ Hnt Hw 0) as H.
  cbv zeta. lra.
Qed.

Lemma informativeness_bounds_witness :
  let q := mk_question "s1_01" "I enjoy experiments"
             (Some [("I"%string, 1); ("O"%string, 0.5)]) in
  let norm_traits : dict R := [("I"%string, 0.75); ("O"%string, 0.5)] in
  Forall (fun kv : string * R => unit_interval kv.2) norm_traits /\
  Forall (fun tw : string * R => 0 <= tw.2) (question_traits q) /\
  0 <= informativeness norm_traits q <= rsum (values (question_traits q)).
Proof.
  intros q norm_traits.
  assert (H1 : Forall (fun kv : string * R => unit_interval kv.2) norm_traits).
  { repeat (apply List.Forall_cons; [unfold unit_interval; simpl; lra|]).
    apply List.Forall_nil. }
  assert (H2 : Forall (fun tw : string * R => 0 <= tw.2) (question_traits q)).
  { repeat (apply List.Forall_cons; [simpl; lra|]). apply List.Forall_nil. }
  split; [exact H1|]. split; [exact H2|].
  exact (informativeness_bounds norm_traits q H1 H2).
Defined.

End Informative.

(** ** Which names the ranking needs *)

Module RankingKeys.
Import PyFloat Engine Dict DictFacts.

Lemma ranked_items_outcomes (probs : dict xfloat) (taxonomy : dict node) :
  match result_mapM
          (fun np : string * xfloat =>
             cfg ← getitem np.1 taxonomy; Ok (np.1, np.2, cfg))
          probs with
  | Ok items =>
      Forall (fun np : string * xfloat => np.1 ∈ keys taxonomy) probs /\
      map fst items = probs /\
      Forall (fun x : string * xfloat * node => get x.1.1 taxonomy = Some x.2) items
  | Raise e =>
      e = KeyError /\
      Exists (fun np : string * xfloat => np.1 ∉ keys taxonomy) probs
  end.
Proof.
  set (f := fun np : string * xfloat =>
              cfg ← getitem np.1 taxonomy; Ok (np.1, np.2, cfg)).
  induction probs as [|[name pct] probs IH]; cbn [result_mapM].
  { by repeat split. }
  assert (Hf : f (name, pct) =
               match get name taxonomy with
               | Some cfg => Ok (name, pct, cfg)
               | None => Raise KeyError
               end).
  { unfold f, getitem. cbn [fst snd]. by destruct (get name taxonomy). }
  rewrite Hf.
  destruct (get name taxonomy) as [cfg|] eqn:E; cbn [mbind result_bind rbind].
  - destruct (result_mapM f probs) as [items|e]; cbn [mbind result_bind rbind].
    + destruct IH as (H1 & H2 & H3). split; [|split].
      * apply Forall_cons. split; [by eapply get_Some_keys|done].
      * cbn [map fst]. by rewrite H2.
      * apply Forall_cons. split; [done|done].
    + destruct IH as [-> H]. split; [done|]. by apply Exists_cons_tl.
  - split; [done|]. apply Exists_cons_hd. by apply get_None_keys.
Qed.

(** X9.  [ranked_nodes] has exactly one way to fail: it raises KeyError when
    some name of [probs] is not a key of the taxonomy.  Otherwise it returns
    a rearrangement of the items of [probs], each with the taxonomy entry of
    its name; this holds whatever the values are. *)
Theorem ranked_nodes_outcomes (probs : dict xfloat) (taxonomy : dict node) :
  match Run.ranked_nodes probs taxonomy with
  | Ok ranked =>
      Forall (fun np : string * xfloat => np.1 ∈ keys taxonomy) probs /\
      map fst ranked ≡ₚ probs /\
      Forall (fun x : string * xfloat * node => get x.1.1 taxonomy = Some x.2) ranked
  | Raise e =>
      e = KeyError /\
      Exists (fun np : string * xfloat => np.1 ∉ keys taxonomy) probs
  end.
Proof.
  unfold Run.ranked_nodes.
  pose proof (ranked_items_outcomes probs taxonomy) as H.
  destruct (result_mapM _ probs) as [items|e]; cbn [mbind result_bind rbind]; [|done].
  destruct H as (H1 & H2 & H3). split; [done|].
  pose proof (sorted_reverse_perm xltb Run.ranked_key items) as Hp.
  split.
  - rewrite <- H2. by apply fmap_Permutation.
  - by rewrite Hp.
Qed.

End RankingKeys.

(** ** The selector prefers informative questions *)

Module Preference.
Import PyFloat Engine Dict.
Local Open Scope R_scope.

Lemma filter_none {A : Type} (P : A -> Prop) `{!forall x, Decision (P x)} (l : list A) :
  Forall (fun x => ~ P x) l -> filter P l = [].
Proof.
  induction 1 as [|x l Hx Hl IH]; [done|]. by rewrite filter_cons_False.
Qed.

(** In a descending list fewer than [i + 1] elements are strictly greater
    than the element at position [i]. *)
Lemma sorted_greater_before {A : Type} (val : A -> R) (l0 s : list A)
    `{!forall c a, Decision (val c < val a)} :
  StronglySorted (ranks_before val l0) s ->
  forall i c, s !! i = Some c ->
    (length (filter (fun a => (val c < val a)%R) s) <= i)%nat.
Proof.
  induction 1 as [|x xs Hs IH Hx]; intros i c Hi.
  - by rewrite lookup_nil in Hi.
  - destruct i as [|i]; simpl in Hi.
    + injection Hi as ->. rewrite filter_cons_False by lra.
      rewrite filter_none; [done|].
      eapply Forall_impl; [exact Hx|]. intros b [Hb|[Hb _]]; simpl; lra.
    + specialize (IH i c Hi).
      destruct (decide (val c < val x)).
      * rewrite filter_cons_True by done. simpl. lia.
      * rewrite filter_cons_False by done. lia.
Qed.

Lemma informativeness_key_order (nt : dict R) (l : list question) :
  key_order Rltb (informativeness nt) (informativeness nt) l.
Proof.
  intros a b _ _. unfold Rltb. destruct (Rlt_dec _ _); split; try done.
Qed.

Section preference.
Context {rng : Type} (shuffle : rng -> list question -> list question).
Hypothesis shuffle_perm : forall g l, shuffle g l ≡ₚ l.

(** X10.  With a non-empty trait vector the selector draws from the most
    informative unused questions only: for every chosen question, fewer
    than [2 * n] unused questions of the pool are strictly more informative
    than it. *)
Theorem select_questions_prefers_informative (g : rng) (pool : list question)
    (n : nat) (used_ids : gset string) (norm_traits : dict R) (c : question) :
  norm_traits <> [] ->
  c ∈ select_questions shuffle g pool n used_ids (Some norm_traits) ->
  (length (filter (more_informative norm_traits c)
                  (filter (fun q => q_id q ∉ used_ids) pool)) < 2 * n)%nat.
Proof.
  intros Hne Hc. unfold select_questions in Hc.
  assert (Ht : truthy (Some norm_traits) = true) by (by destruct norm_traits).
  rewrite Ht in Hc. cbn [default] in Hc.
  set (unused := filter (fun q => q_id q ∉ used_ids) pool) in *.
  set (sorted := sorted_reverse Rltb (informativeness norm_traits) unused) in *.
  apply subseteq_take in Hc. rewrite shuffle_perm in Hc.
  apply elem_of_take in Hc as (i & Hi & Hlt).
  assert (Hs : StronglySorted
                 (ranks_before (informativeness norm_traits) unused) sorted).
  { apply sorted_reverse_stable, informativeness_key_order. }
  pose proof (sorted_greater_before _ _ _ Hs i c Hi) as Hcount.
  assert (Hp : sorted ≡ₚ unused) by apply sorted_reverse_perm.
  unfold more_informative. rewrite <- Hp. lia.
Qed.

End preference.

(** Decides the equalities between string literals in the goal. *)
Ltac decide_literals :=
  repeat match goal with
         | |- context [@decide (?a = ?b) ?i] =>
             destruct (@decide (a = b) i) as [Heq|Hne];
             [first [discriminate Heq|clear Heq]
             |first [exfalso; by apply Hne|clear Hne]]
         end;
  cbv [default from_option Datatypes.id].

Lemma Rltb_true x y : x < y -> Rltb x y = true.
Proof. intros H. unfold Rltb. destruct (Rlt_dec x y); [done|lra]. Qed.

Lemma Rltb_false x y : y <= x -> Rltb x y = false.
Proof. intros H. unfold Rltb. destruct (Rlt_dec x y); [lra|done]. Qed.

(** The informativeness of a question with one trait of weight 1. *)
Lemma informativeness_single (nt : dict R) id text t :
  informativeness nt (mk_question id text (Some [(t, 1)])) =
  1 - Rabs (get_default t 0.5 nt - 0.5) * 2.
Proof.
  unfold informativeness, question_traits.
  cbv [q_traits default from_option Datatypes.id foldl fst snd].
  set (a := Rabs _). lra.
Qed.

Lemma select_questions_prefers_informative_witness :
  let q0 := mk_question "q0" "zero" (Some [("I"%string, 1)]) in
  let q1 := mk_question "q1" "one" (Some [("I"%string, 1)]) in
  let q2 := mk_question "q2" "two" (Some [("O"%string, 1)]) in
  let q3 := mk_question "q3" "three" (Some [("C"%string, 1)]) in
  let pool := [q3; q0; q2; q1] in
  let used_ids : gset string := {["q0"%string]} in
  let draws := [0]%nat in
  let norm_traits : dict R :=
    [("I"%string, 0.5); ("O"%string, 0.75); ("C"%string, 1)] in
  (forall (g : list nat) (l : list question), Random.shuffle g l ≡ₚ l) /\
  norm_traits <> [] /\
  q2 ∈ select_questions Random.shuffle draws pool 1 used_ids (Some norm_traits) /\
  (length (filter (more_informative norm_traits q2)
                  (filter (fun q => q_id q ∉ used_ids) pool)) < 2 * 1)%nat.
Proof.
  intros q0 q1 q2 q3 pool used_ids draws norm_traits.
  assert (H1 : norm_traits <> []) by done.
  assert (Hi1 : informativeness norm_traits q1 = 1).
  { unfold q1. rewrite informativeness_single.
    unfold get_default, norm_traits. cbn [get]. decide_literals.
    rewrite Rabs_right by lra. lra. }
  assert (Hi2 : informativeness norm_traits q2 = 0.5).
  { unfold q2. rewrite informativeness_single.
    unfold get_default, norm_traits. cbn [get]. decide_literals.
    rewrite Rabs_right by lra. lra. }
  assert (Hi3 : informativeness norm_traits q3 = 0).
  { unfold q3. rewrite informativeness_single.
    unfold get_default, norm_traits. cbn [get]. decide_literals.
    rewrite Rabs_right by lra. lra. }
  assert (H2 : select_questions Random.shuffle draws pool 1 used_ids
                 (Some norm_traits) = [q2]).
  { unfold select_questions, pool, used_ids.
    change (truthy (Some norm_traits)) with true. cbv iota.
    change (default [] (Some norm_traits)) with norm_traits.
    rewrite filter_cons_True by (rewrite elem_of_singleton; discriminate).
    rewrite filter_cons_False
      by (intros H; apply H, elem_of_singleton; reflexivity).
    rewrite filter_cons_True by (rewrite elem_of_singleton; discriminate).
    rewrite filter_cons_True by (rewrite elem_of_singleton; discriminate).
    rewrite filter_nil.
    unfold sorted_reverse. cbn [foldr insert_desc].
    rewrite Hi1, Hi2, (Rltb_true 0.5 1) by lra. cbn [insert_desc].
    rewrite Hi1, Hi3, (Rltb_true 0 1) by lra. cbn [insert_desc].
    rewrite Hi2, (Rltb_true 0 0.5) by lra. cbn [insert_desc].
    reflexivity. }
  split; [exact (@RandomFacts.shuffle_perm question)|].
  split; [exact H1|].
  assert (H3 : q2 ∈ select_questions Random.shuffle draws pool 1 used_ids
                      (Some norm_traits)) by (rewrite H2; left).
  split; [exact H3|].
  exact (select_questions_prefers_informative Random.shuffle
           (@RandomFacts.shuffle_perm question) draws pool 1 used_ids
           norm_traits q2 H1 H3).
Defined.

End Preference.

(** ** One stage of the interview *)

Module StageFacts.
Import PyFloat Engine Dict Normaliser Stage.

Section facts.
Context {rng : Type} (shuffle : rng -> list question -> list question).
Hypothesis shuffle_perm : forall g l, shuffle g l ≡ₚ l.
Context (ask : question -> nat -> nat -> Z -> bool -> option string).

Lemma select_questions_submseteq g pool n used nt :
  select_questions shuffle g pool n used nt ⊆+ filter (fun q => q_id q ∉ used) pool.
Proof.
  unfold select_questions. set (unused := filter _ pool).
  destruct (truthy nt).
  - etrans; [apply submseteq_take|]. rewrite shuffle_perm.
    etrans; [apply submseteq_take|]. by rewrite sorted_reverse_perm.
  - etrans; [apply submseteq_take|]. by rewrite shuffle_perm.
Qed.

Lemma select_questions_length g pool n used nt :
  length (select_questions shuffle g pool n used nt) =
  Nat.min n (length (filter (fun q => q_id q ∉ used) pool)).
Proof.
  unfold select_questions. set (unused := filter _ pool).
  destruct (truthy nt).
  - rewrite length_take, (Permutation_length (shuffle_perm _ _)), length_take.
    rewrite (Permutation_length (sorted_reverse_perm _ _ _)). lia.
  - rewrite length_take, (Permutation_length (shuffle_perm _ _)). lia.
Qed.

Lemma stage_pool_select g questions n trait_acc used :
  exists norm,
    normalise_traits trait_acc (Z.max (Z.of_nat (size used)) 1) default_max_weight
      = Ok norm /\
    stage_pool shuffle g questions n trait_acc used =
    select_questions shuffle g questions n used (Some norm).
Proof.
  unfold stage_pool. rewrite normalise_traits_spec. eexists. by split.
Qed.

Lemma stage_pool_submseteq g questions n trait_acc used :
  stage_pool shuffle g questions n trait_acc used
    ⊆+ filter (fun q => q_id q ∉ used) questions.
Proof.
  destruct (stage_pool_select g questions n trait_acc used) as (norm & _ & ->).
  apply select_questions_submseteq.
Qed.

Lemma stage_pool_unused g questions n trait_acc used q :
  q ∈ stage_pool shuffle g questions n trait_acc used ->
  q ∈ questions /\ q_id q ∉ used.
Proof.
  intros Hq. eapply elem_of_submseteq in Hq; [|apply stage_pool_submseteq].
  apply list_elem_of_filter in Hq as [? ?]. done.
Qed.

Lemma conduct_stage_loop g stage questions n trait_acc used demo :
  conduct_stage shuffle ask g stage questions n trait_acc used demo =
  let pool := stage_pool shuffle g questions n trait_acc used in
  Ok (ask_all ask stage demo (length pool) 1 pool trait_acc used).
Proof.
  unfold conduct_stage.
  destruct (stage_pool_select g questions n trait_acc used) as (norm & -> & ->).
  done.
Qed.

(** What the loop leaves behind when every question is answered. *)
Lemma ask_all_result stage demo total (pool : list question) :
  forall i trait_acc used traits' used',
    ask_all ask stage demo total i pool trait_acc used = Some (traits', used') ->
    keys traits' = keys trait_acc /\
    used' = used ∪ list_to_set (ids pool).
Proof.
  induction pool as [|q pool IH]; intros i trait_acc used traits' used'; simpl.
  - intros [= <- <-]. split; [done|].
    unfold ids. cbn [map list_to_set]. by rewrite (right_id_L ∅ (∪)).
  - destruct (ask q i total stage demo) as [ans|]; [|done].
    intros H. apply IH in H as [Hk ->]. split.
    + by rewrite Hk, Accumulator.apply_answer_keys.
    + unfold ids. cbn [map list_to_set]. by rewrite (assoc_L (∪)).
Qed.

Lemma ask_all_answered stage demo total (pool : list question) :
  (forall q i, is_Some (ask q i total stage demo)) ->
  forall i trait_acc used,
    is_Some (ask_all ask stage demo total i pool trait_acc used).
Proof.
  intros Hask. induction pool as [|q pool IH]; intros i trait_acc used; simpl.
  - by eexists.
  - destruct (Hask q i) as [ans ->]. apply IH.
Qed.

(** X11.  When the user answers every question, [conduct_stage] returns: the
    accumulator it returns has the keys of the one it was given, the set of
    used ids has grown by exactly the ids of the questions asked, these
    questions are from the given list and none of them had a used id, and
    their number is the smaller of [n] and the number of unused
    questions. *)
Theorem conduct_stage_effect (g : rng) (stage : Z) (questions : list question)
    (n : nat) (trait_acc : dict R) (used_ids : gset string) (demo : bool) :
  (forall q i total, is_Some (ask q i total stage demo)) ->
  let pool := stage_pool shuffle g questions n trait_acc used_ids in
  exists traits',
    conduct_stage shuffle ask g stage questions n trait_acc used_ids demo =
      Ok (Some (traits', used_ids ∪ list_to_set (ids pool))) /\
    keys traits' = keys trait_acc /\
    (forall q, q ∈ pool -> q ∈ questions /\ q_id q ∉ used_ids) /\
    length pool =
      Nat.min n (length (filter (fun q => q_id q ∉ used_ids) questions)).
Proof.
  intros Hask pool. rewrite conduct_stage_loop. cbv zeta. fold pool.
  destruct (ask_all_answered stage demo (length pool) pool
              (fun q i => Hask q i (length pool)) 1%nat trait_acc used_ids)
    as [[traits' used'] Hres].
  destruct (ask_all_result _ _ _ _ _ _ _ _ _ Hres) as [Hk ->].
  exists traits'. rewrite Hres. split; [done|]. split; [done|].
  split; [intros q; apply stage_pool_unused|].
  unfold pool.
  destruct (stage_pool_select g questions n trait_acc used_ids) as (norm & _ & ->).
  apply select_questions_length.
Qed.

(** X12.  No id is asked twice across stages: after a stage has returned,
    a later stage that is given the accumulator and the used ids of the
    first asks no question whose id the first stage asked, whatever its
    own question list, count and shuffle. *)
Theorem stages_never_repeat (g1 g2 : rng) (stage1 stage2 : Z)
    (questions1 questions2 : list question) (n1 n2 : nat)
    (trait_acc : dict R) (used_ids : gset string) (demo : bool)
    (traits1 : dict R) (used1 : gset string) :
  conduct_stage shuffle ask g1 stage1 questions1 n1 trait_acc used_ids demo =
    Ok (Some (traits1, used1)) ->
  forall q1 q2,
    q1 ∈ stage_pool shuffle g1 questions1 n1 trait_acc used_ids ->
    q2 ∈ stage_pool shuffle g2 questions2 n2 traits1 used1 ->
    q_id q1 <> q_id q2.
Proof.
  rewrite conduct_stage_loop. cbv zeta. intros [= Hres] q1 q2 H1 H2.
  apply ask_all_result in Hres as [_ ->].
  apply stage_pool_unused in H2 as [_ H2]. intros Heq. apply H2.
  apply elem_of_union_r, elem_of_list_to_set. rewrite <- Heq.
  unfold ids. apply list_elem_of_fmap. by exists q1.
Qed.

(** X13.  When the ids of the question list are pairwise distinct, the ids
    of the questions of a stage are pairwise distinct, and the size of the
    set of used ids grows by the number of questions asked. *)
Theorem conduct_stage_counts (g : rng) (stage : Z) (questions : list question)
    (n : nat) (trait_acc : dict R) (used_ids : gset string) (demo : bool)
    (traits' : dict R) (used' : gset string) :
  NoDup (ids questions) ->
  conduct_stage shuffle ask g stage questions n trait_acc used_ids demo =
    Ok (Some (traits', used')) ->
  let pool := stage_pool shuffle g questions n trait_acc used_ids in
  NoDup (ids pool) /\
  size used' = (size used_ids + length pool)%nat.
Proof.
  intros Hnd. rewrite conduct_stage_loop. cbv zeta. intros [= Hres].
  apply ask_all_result in Hres as [_ ->].
  set (pool := stage_pool shuffle g questions n trait_acc used_ids).
  assert (Hsub : ids pool ⊆+ ids questions).
  { unfold ids. apply fmap_submseteq. etrans; [apply stage_pool_submseteq|].
    apply sublist_submseteq, sublist_filter. }
  assert (Hpool : NoDup (ids pool)).
  { apply submseteq_sublist_r in Hsub as (l2 & Hp & Hs).
    rewrite Hp. by eapply sublist_NoDup. }
  split; [done|].
  rewrite size_union.
  - rewrite size_list_to_set by done. unfold ids. by rewrite length_map.
  - intros x Hx Hin. apply elem_of_list_to_set in Hin.
    unfold ids in Hin. apply list_elem_of_fmap in Hin as (q & -> & Hq).
    apply stage_pool_unused in Hq as [_ Hq]. done.
Qed.

End facts.

(** A stage over a single unused question, with the library shuffle. *)
Lemma stage_pool_singleton (draws : list nat) (q : question) (n : nat)
    (trait_acc : dict R) (used : gset string) :
  q_id q ∉ used ->
  stage_pool Random.shuffle draws [q] (S n) trait_acc used = [q].
Proof.
  intros Hq.
  destruct (stage_pool_select Random.shuffle draws [q] (S n) trait_acc used)
    as (norm & _ & ->).
  unfold select_questions. rewrite filter_cons_True by done. rewrite filter_nil.
  assert (Hone : take (S n) (Random.shuffle draws [q]) = [q]).
  { cbn. by rewrite take_nil. }
  destruct (truthy (Some norm)); [|done].
  unfold sorted_reverse. cbn [foldr insert_desc length].
  by rewrite Nat.min_r by lia.
Qed.

Lemma conduct_stage_effect_witness :
  let ask := fun (_ : question) (_ _ : nat) (_ : Z) (_ : bool) => Some "A"%string in
  let q1 := mk_question "q1" "one" (Some [("I"%string, 1%R)]) in
  let pool := stage_pool Random.shuffle [3; 1; 4]%nat [q1] 1 empty_traits ∅ in
  (forall (g : list nat) (l : list question), Random.shuffle g l ≡ₚ l) /\
  (forall q i total, is_Some (ask q i total 1%Z true)) /\
  exists traits',
    conduct_stage Random.shuffle ask [3; 1; 4]%nat 1 [q1] 1 empty_traits ∅ true =
      Ok (Some (traits', ∅ ∪ list_to_set (ids pool))) /\
    keys traits' = keys empty_traits /\
    (forall q, q ∈ pool -> q ∈ [q1] /\ q_id q ∉ (∅ : gset string)) /\
    length pool =
      Nat.min 1 (length (filter (fun q => q_id q ∉ (∅ : gset string)) [q1])).
Proof.
  intros ask q1 pool.
  assert (Hask : forall q i total, is_Some (ask q i total 1%Z true))
    by (intros; by eexists).
  split; [exact (@RandomFacts.shuffle_perm question)|]. split; [exact Hask|].
  exact (conduct_stage_effect Random.shuffle (@RandomFacts.shuffle_perm question)
           ask [3; 1; 4]%nat 1 [q1] 1 empty_traits ∅ true Hask).
Defined.

(** The first stage of the two witnesses below. *)
Lemma conduct_stage_single (draws : list nat) (q : question) :
  conduct_stage Random.shuffle
    (fun (_ : question) (_ _ : nat) (_ : Z) (_ : bool) => Some "A"%string)
    draws 1 [q] 1 empty_traits ∅ true =
  Ok (Some (apply_answer empty_traits q "A", ∅ ∪ {[q_id q]})).
Proof.
  rewrite conduct_stage_loop by apply RandomFacts.shuffle_perm. cbv zeta.
  rewrite stage_pool_singleton by set_solver. done.
Qed.

Lemma stages_never_repeat_witness :
  let ask := fun (_ : question) (_ _ : nat) (_ : Z) (_ : bool) => Some "A"%string in
  let q1 := mk_question "q1" "one" (Some [("I"%string, 1%R)]) in
  let q2 := mk_question "q2" "two" (Some [("O"%string, 1%R)]) in
  let traits1 := apply_answer empty_traits q1 "A" in
  let used1 : gset string := ∅ ∪ {["q1"%string]} in
  (forall (g : list nat) (l : list question), Random.shuffle g l ≡ₚ l) /\
  conduct_stage Random.shuffle ask [3; 1; 4]%nat 1 [q1] 1 empty_traits ∅ true =
    Ok (Some (traits1, used1)) /\
  q1 ∈ stage_pool Random.shuffle [3; 1; 4]%nat [q1] 1 empty_traits ∅ /\
  q2 ∈ stage_pool Random.shuffle [2; 7]%nat [q1; q2] 1 traits1 used1 /\
  q_id q1 <> q_id q2.
Proof.
  intros ask q1 q2 traits1 used1.
  assert (H0 : conduct_stage Random.shuffle ask [3; 1; 4]%nat 1 [q1] 1
                 empty_traits ∅ true = Ok (Some (traits1, used1)))
    by apply conduct_stage_single.
  assert (H1 : q1 ∈ stage_pool Random.shuffle [3; 1; 4]%nat [q1] 1 empty_traits ∅).
  { rewrite stage_pool_singleton by set_solver. left. }
  assert (H2 : q2 ∈ stage_pool Random.shuffle [2; 7]%nat [q1; q2] 1 traits1 used1).
  { destruct (stage_pool_select Random.shuffle [2; 7]%nat [q1; q2] 1 traits1 used1)
      as (norm & _ & ->).
    unfold select_questions.
    rewrite filter_cons_False
      by (intros H; apply H, elem_of_union_r, elem_of_singleton; reflexivity).
    rewrite filter_cons_True
      by (unfold used1; rewrite elem_of_union, elem_of_singleton;
          intros [H|H]; [by apply elem_of_empty in H|discriminate]).
    rewrite filter_nil.
    destruct (truthy (Some norm)); left. }
  split; [exact (@RandomFacts.shuffle_perm question)|].
  split; [exact H0|]. split; [exact H1|]. split; [exact H2|].
  exact (stages_never_repeat Random.shuffle (@RandomFacts.shuffle_perm question)
           ask [3; 1; 4]%nat [2; 7]%nat 1 2 [q1] [q1; q2] 1 1 empty_traits ∅ true
           traits1 used1 H0 q1 q2 H1 H2).
Defined.

(** A stage over two unused questions with the same traits, with the
    library shuffle and draws that leave the order as it is. *)
Lemma stage_pool_pair (id1 id2 text1 text2 : string) (traits : option (dict R))
    (trait_acc : dict R) :
  let q1 := mk_question id1 text1 traits in
  let q2 := mk_question id2 text2 traits in
  stage_pool Random.shuffle [3; 1; 4]%nat [q1; q2] 2 trait_acc ∅ = [q1; q2].
Proof.
  intros q1 q2.
  destruct (stage_pool_select Random.shuffle [3; 1; 4]%nat [q1; q2] 2 trait_acc ∅)
    as (norm & _ & ->).
  unfold select_questions.
  rewrite filter_cons_True by apply not_elem_of_empty.
  rewrite filter_cons_True by apply not_elem_of_empty.
  rewrite filter_nil.
  destruct (truthy (Some norm)); [|reflexivity].
  unfold sorted_reverse. cbn [foldr insert_desc].
  assert (Htie : Rltb (informativeness (default [] (Some norm)) q1)
                      (informativeness (default [] (Some norm)) q2) = false).
  { unfold Rltb. destruct (Rlt_dec _ _) as [Hlt|]; [|done].
    unfold informativeness, question_traits, q1, q2 in Hlt. cbn [q_traits] in Hlt.
    by apply Rlt_irrefl in Hlt. }
  rewrite Htie. reflexivity.
Qed.

Lemma conduct_stage_counts_witness :
  let ask := fun (_ : question) (_ _ : nat) (_ : Z) (_ : bool) => Some "A"%string in
  let q1 := mk_question "q1" "one" (Some [("I"%string, 1%R)]) in
  let q2 := mk_question "q2" "two" (Some [("I"%string, 1%R)]) in
  let traits1 := apply_answer (apply_answer empty_traits q1 "A") q2 "A" in
  let used1 : gset string := ∅ ∪ {["q1"%string]} ∪ {["q2"%string]} in
  let pool := stage_pool Random.shuffle [3; 1; 4]%nat [q1; q2] 2 empty_traits ∅ in
  (forall (g : list nat) (l : list question), Random.shuffle g l ≡ₚ l) /\
  NoDup (ids [q1; q2]) /\
  conduct_stage Random.shuffle ask [3; 1; 4]%nat 1 [q1; q2] 2 empty_traits ∅ true =
    Ok (Some (traits1, used1)) /\
  NoDup (ids pool) /\
  size used1 = (size (∅ : gset string) + length pool)%nat.
Proof.
  intros ask q1 q2 traits1 used1 pool.
  assert (H0 : NoDup (ids [q1; q2])).
  { apply (bool_decide_unpack _). by vm_compute. }
  assert (H1 : conduct_stage Random.shuffle ask [3; 1; 4]%nat 1 [q1; q2] 2
                 empty_traits ∅ true = Ok (Some (traits1, used1))).
  { rewrite conduct_stage_loop by apply RandomFacts.shuffle_perm. cbv zeta.
    unfold q1, q2. rewrite stage_pool_pair. reflexivity. }
  split; [exact (@RandomFacts.shuffle_perm question)|].
  split; [exact H0|]. split; [exact H1|].
  exact (conduct_stage_counts Random.shuffle (@RandomFacts.shuffle_perm question)
           ask [3; 1; 4]%nat 1 [q1; q2] 2 empty_traits ∅ true traits1 used1 H0 H1).
Defined.

End StageFacts.

(** ** CJL/scoring.py: raw scores *)

Module RawScores.
Import PyFloat PyFloatFacts Dict DictFacts Bank.
Local Open Scope R_scope.

Lemma get_is_Some {V : Type} k (d : dict V) : k ∈ keys d -> is_Some (get k d).
Proof.
  intros Hk. destruct (get k d) eqn:E; [by eexists|].
  by apply get_None_keys in E.
Qed.

Lemma personality_known s : s ∈ PERSONALITY_SECTIONS -> s ∈ keys SECTION_META.
Proof.
  unfold PERSONALITY_SECTIONS. rewrite !elem_of_union, !elem_of_singleton.
  intros H. repeat destruct H as [H| ->]; try subst s;
    apply (bool_decide_unpack _); by vm_compute.
Qed.

Lemma aptitude_known : APTITUDE_SECTION ∈ keys SECTION_META.
Proof. apply (bool_decide_unpack _). by vm_compute. Qed.

Lemma option_score_range ans mapping :
  mapping = OPTION_SCORE_POS \/ mapping = OPTION_SCORE_NEG ->
  (-2 <= get_default ans 0 mapping <= 2)%Z.
Proof.
  intros [-> | ->]; unfold get_default, OPTION_SCORE_POS, OPTION_SCORE_NEG;
    cbn [get]; repeat (destruct (decide _); [simpl; lia|]); simpl; lia.
Qed.

Lemma step_bound_zero answers q s : step_bound answers q s 0.
Proof. split; [by right|]. destruct (decide _); lia. Qed.

Lemma get_plus_zero (scores : dict R) s :
  get s scores = (fun v => v + IZR 0) <$> get s scores.
Proof. destruct (get s scores); simpl; [f_equal; lra|done]. Qed.

Lemma get_set_plus (scores : dict R) sec v x s :
  get sec scores = Some v ->
  get s (set sec (v + IZR x) scores) =
  (fun v => v + IZR (if decide (s = sec) then x else 0)) <$> get s scores.
Proof.
  intros Hv. destruct (decide (s = sec)) as [->|Hne].
  - by rewrite get_set_eq, Hv.
  - rewrite get_set_ne by done. apply get_plus_zero.
Qed.

Lemma score_question_step answers scores q :
  keys scores = keys SECTION_META ->
  exists scores',
    score_question answers scores q = Ok scores' /\
    keys scores' = keys scores /\
    forall s, exists d : Z,
      get s scores' = (fun v => v + IZR d) <$> get s scores /\
      step_bound answers q s d.
Proof.
  intros Hkeys. unfold score_question. cbv zeta.
  assert (Hsame : exists scores',
    Ok scores = Ok scores' /\ keys scores' = keys scores /\
    forall s, exists d : Z,
      get s scores' = (fun v => v + IZR d) <$> get s scores /\
      step_bound answers q s d).
  { exists scores. split; [done|]. split; [done|]. intros s. exists 0%Z.
    split; [apply get_plus_zero|apply step_bound_zero]. }
  destruct (answers !! q_id q) as [a|] eqn:Ea; [|exact Hsame].
  assert (Hans : is_Some (answers !! q_id q)) by (rewrite Ea; by eexists).
  destruct (decide (q_section q = APTITUDE_SECTION)) as [Hapt|Hnapt].
  - destruct (decide (upper a = default EmptyString (q_correct q))); [|exact Hsame].
    destruct (get_is_Some (q_section q) scores) as [v Hv].
    { rewrite Hkeys, Hapt. apply aptitude_known. }
    unfold getitem. rewrite Hv. cbn [mbind result_bind rbind].
    eexists. split; [reflexivity|].
    split; [apply keys_set_present; by eapply get_Some_keys|].
    intros s. exists (if decide (s = q_section q) then 1 else 0)%Z.
    split; [by apply (get_set_plus scores (q_section q) v 1 s)|].
    destruct (decide (s = q_section q)) as [->|Hne]; [|apply step_bound_zero].
    split; [by left|]. rewrite Hapt. rewrite decide_True by done. lia.
  - destruct (decide (q_section q ∈ PERSONALITY_SECTIONS)) as [Hp|Hp]; [|exact Hsame].
    destruct (get_is_Some (q_section q) scores) as [v Hv].
    { rewrite Hkeys. by apply personality_known. }
    unfold getitem. rewrite Hv. cbn [mbind result_bind rbind].
    set (mapping := if decide (default "positive"%string (q_polarity q) = "positive"%string)
                    then OPTION_SCORE_POS else OPTION_SCORE_NEG).
    assert (Hm : (-2 <= get_default (upper a) 0 mapping <= 2)%Z).
    { apply option_score_range. unfold mapping. destruct (decide _); auto. }
    eexists. split; [reflexivity|].
    split; [apply keys_set_present; by eapply get_Some_keys|].
    intros s.
    exists (if decide (s = q_section q)
            then get_default (upper a) 0%Z mapping else 0%Z).
    split; [by apply (get_set_plus scores (q_section q) v _ s)|].
    destruct (decide (s = q_section q)) as [->|Hne]; [|apply step_bound_zero].
    split; [by left|]. rewrite decide_False by done. done.
Qed.

Lemma answered_in_cons answers q qs s :
  answered_in answers (q :: qs) s =
  ((if decide (counts_for answers s q) then 1 else 0) + answered_in answers qs s)%Z.
Proof.
  unfold answered_in. destruct (decide (counts_for answers s q)).
  - rewrite filter_cons_True by done. cbn [length]. lia.
  - rewrite filter_cons_False by done. lia.
Qed.

Lemma compute_raw_scores_loop answers qs :
  forall scores,
    keys scores = keys SECTION_META ->
    exists raw,
      result_foldl (score_question answers) scores qs = Ok raw /\
      keys raw = keys SECTION_META /\
      forall s, exists z : Z,
        get s raw = (fun v => v + IZR z) <$> get s scores /\
        total_bound answers qs s z.
Proof.
  induction qs as [|q qs IH]; intros scores Hkeys; cbn [result_foldl].
  - exists scores. split; [done|]. split; [done|]. intros s. exists 0%Z.
    split; [apply get_plus_zero|].
    unfold total_bound, answered_in. cbn. destruct (decide _); lia.
  - destruct (score_question_step answers scores q Hkeys)
      as (scores' & -> & Hk' & Hstep).
    cbn [mbind result_bind rbind].
    destruct (IH scores') as (raw & Hraw & Hkr & Hrest); [congruence|].
    exists raw. split; [done|]. split; [done|]. intros s.
    destruct (Hstep s) as (d & Hd & [Hcount Hrange]).
    destruct (Hrest s) as (z & Hz & Hzb).
    exists (d + z)%Z. split.
    + rewrite Hz, Hd. destruct (get s scores); simpl; [|done].
      f_equal. rewrite plus_IZR. lra.
    + unfold total_bound in *. rewrite answered_in_cons.
      pose proof (Nat2Z.is_nonneg (length (filter (counts_for answers s) qs))) as Hnn.
      fold (answered_in answers qs s) in Hnn.
      destruct (decide (counts_for answers s q)) as [Hc|Hc].
      * destruct (decide (s = APTITUDE_SECTION)); lia.
      * destruct Hcount as [?| ->]; [done|].
        destruct (decide (s = APTITUDE_SECTION)); lia.
Qed.

(** The raw scores, each with what it gained from the questions. *)
Lemma raw_scores_gained (questions : list question) (answers : gmap Z string) :
  exists raw,
    compute_raw_scores questions answers = Ok raw /\
    keys raw = keys SECTION_META /\
    forall s v,
      get s raw = Some v ->
      exists z : Z, v = IZR z /\ total_bound answers questions s z.
Proof.
  unfold compute_raw_scores. cbv zeta.
  set (scores := map (fun s => (s, 0)) (keys SECTION_META)).
  assert (Hkeys : keys scores = keys SECTION_META).
  { unfold scores, keys. rewrite map_map. cbn [fst]. apply map_id. }
  destruct (compute_raw_scores_loop answers questions scores Hkeys)
    as (raw & Hraw & Hk & Hall).
  exists raw. split; [done|]. split; [done|]. intros s v Hv.
  destruct (Hall s) as (z & Hz & Hzb). rewrite Hv in Hz.
  assert (Hs : get s scores = Some 0 \/ get s scores = None).
  { destruct (get s scores) as [v0|] eqn:E; [left|by right].
    unfold scores in E. clear -E. revert E. generalize (keys SECTION_META).
    intros l. induction l as [|k l IH]; simpl; [done|].
    destruct (decide (s = k)); [by intros [= <-]|done]. }
  destruct Hs as [Hs|Hs]; rewrite Hs in Hz; [|done]. simpl in Hz.
  injection Hz as ->. exists z. split; [lra|done].
Qed.

Lemma answered_in_nonneg answers questions s :
  (0 <= answered_in answers questions s)%Z.
Proof. unfold answered_in. lia. Qed.

(** X14.  [compute_raw_scores] returns for every question list and every
    answer map (the updates [scores[section] += ...] never miss a key).  The
    result has the nine sections of the table as keys, in the order of the
    table, and every score is a whole number: for APTITUDE between 0 and
    the number of answered aptitude questions, for every section at most
    twice the number of answered questions of the section in absolute
    value. *)
Theorem compute_raw_scores_bounds (questions : list question) (answers : gmap Z string) :
  exists raw,
    compute_raw_scores questions answers = Ok raw /\
    keys raw = keys SECTION_META /\
    forall s v,
      get s raw = Some v ->
      exists z : Z,
        v = IZR z /\
        (s = APTITUDE_SECTION -> (0 <= z <= answered_in answers questions s)%Z) /\
        (- 2 * answered_in answers questions s <= z
           <= 2 * answered_in answers questions s)%Z.
Proof.
  destruct (raw_scores_gained questions answers) as (raw & Hraw & Hk & Hall).
  exists raw. split; [done|]. split; [done|]. intros s v Hv.
  destruct (Hall s v Hv) as (z & -> & Hzb).
  exists z. split; [done|].
  unfold total_bound in Hzb.
  pose proof (answered_in_nonneg answers questions s) as Hnn.
  destruct (decide (s = APTITUDE_SECTION)); split; try done; lia.
Qed.

Lemma compute_raw_scores_bounds_witness :
  let questions :=
    [mk_question 1 "APTITUDE" (Some "B"%string) None;
     mk_question 2 "OPENNESS" None (Some "negative"%string);
     mk_question 3 "HOBBIES" None None] in
  let answers : gmap Z string := {[ 1%Z := "b"%string; 2%Z := "E"%string ]} in
  exists raw,
    compute_raw_scores questions answers = Ok raw /\
    keys raw = keys SECTION_META /\
    forall s v,
      get s raw = Some v ->
      exists z : Z,
        v = IZR z /\
        (s = APTITUDE_SECTION -> (0 <= z <= answered_in answers questions s)%Z) /\
        (- 2 * answered_in answers questions s <= z
           <= 2 * answered_in answers questions s)%Z.
Proof.
  intros questions answers.
  exact (compute_raw_scores_bounds questions answers).
Defined.

End RawScores.

(** ** CJL/scoring.py: what the raw scores do not depend on *)

Module RawScoresInvariance.
Import PyFloat Dict DictFacts Bank RawScores.
Local Open Scope R_scope.

Lemma score_question_skip answers scores q :
  ~ scored answers q -> score_question answers scores q = Ok scores.
Proof.
  intros Hn. unfold score_question. cbv zeta.
  destruct (answers !! q_id q) as [a|] eqn:Ea; [|done].
  assert (Hsec : q_section q ∉ keys SECTION_META).
  { intros H. apply Hn. split; [rewrite Ea; by eexists|done]. }
  destruct (decide (q_section q = APTITUDE_SECTION)) as [Hapt|_].
  { exfalso. apply Hsec. rewrite Hapt. apply aptitude_known. }
  destruct (decide (q_section q ∈ PERSONALITY_SECTIONS)) as [Hp|_]; [|done].
  exfalso. by apply Hsec, personality_known.
Qed.

(** X15.  Questions without an answer, and questions whose section is not
    in the table of sections, have no effect on the raw scores: dropping
    them from the question list gives the same result. *)
Theorem compute_raw_scores_ignores (questions : list question)
    (answers : gmap Z string) :
  compute_raw_scores questions answers =
  compute_raw_scores (filter (scored answers) questions) answers.
Proof.
  unfold compute_raw_scores. cbv zeta.
  generalize (map (fun s : string => (s, 0)) (keys SECTION_META)).
  induction questions as [|q qs IH]; intros scores; [done|].
  destruct (decide (scored answers q)) as [Hs|Hs].
  - rewrite filter_cons_True by done. cbn [result_foldl].
    destruct (score_question answers scores q); cbn [mbind result_bind rbind];
      [apply IH|done].
  - rewrite filter_cons_False by done. cbn [result_foldl].
    rewrite score_question_skip by done. cbn [mbind result_bind rbind]. apply IH.
Qed.

Lemma upper_ascii_idem c : upper_ascii (upper_ascii c) = upper_ascii c.
Proof. destruct c as [[] [] [] [] [] [] [] []]; reflexivity. Qed.

Lemma upper_idem s : upper (upper s) = upper s.
Proof.
  induction s as [|c s IH]; [done|]. cbn [upper]. by rewrite upper_ascii_idem, IH.
Qed.

Lemma result_foldl_ext {A B : Type} (f g : B -> A -> result B) (l : list A) :
  (forall acc x, f acc x = g acc x) ->
  forall acc, result_foldl f acc l = result_foldl g acc l.
Proof.
  intros Hfg. induction l as [|x l IH]; intros acc; [done|].
  cbn [result_foldl]. rewrite Hfg.
  destruct (g acc x); cbn [mbind result_bind rbind]; [apply IH|done].
Qed.

(** X16.  The letter of an answer is read without regard to case, by the
    accumulator of CJL-PRO and by the raw scores of CJL: putting an answer
    in upper case first changes neither result. *)
Theorem answers_case_insensitive :
  (forall (traits : dict R) (q : Engine.question) (answer : string),
      Engine.apply_answer traits q (upper answer) =
      Engine.apply_answer traits q answer) /\
  (forall (questions : list question) (answers : gmap Z string),
      compute_raw_scores questions (upper <$> answers) =
      compute_raw_scores questions answers).
Proof.
  split.
  - intros traits q answer. unfold Engine.apply_answer, Engine.answer_delta.
    by rewrite upper_idem.
  - intros questions answers. unfold compute_raw_scores. cbv zeta.
    apply result_foldl_ext. intros scores q.
    unfold score_question. cbv zeta. rewrite lookup_fmap.
    destruct (answers !! q_id q) as [a|]; [|done].
    cbn [fmap option_fmap option_map]. by rewrite upper_idem.
Qed.

End RawScoresInvariance.

(** ** CJL/scoring.py: normalised section scores *)

Module SectionScores.
Import PyFloat PyFloatFacts Dict DictFacts Bank RawScores Normaliser Distribution.
Local Open Scope R_scope.

Lemma meta_max_40 s meta : get s SECTION_META = Some meta -> meta_max meta = 40%Z.
Proof.
  unfold SECTION_META. cbn [get].
  repeat (destruct (decide _); [by intros [= <-]|]). done.
Qed.

Lemma normalise_entry_value (norm : dict R) (sv : string * R) :
  normalise_entry norm sv =
  match get sv.1 SECTION_META with
  | Some _ => Ok (set sv.1 (section_share sv.1 sv.2) norm)
  | None => Raise KeyError
  end.
Proof.
  unfold normalise_entry, getitem. cbv zeta.
  destruct (get sv.1 SECTION_META) as [meta|] eqn:E; [|done].
  cbn [mbind result_bind rbind]. rewrite (meta_max_40 _ _ E).
  unfold section_share, spec_clamp.
  destruct (decide (sv.1 = APTITUDE_SECTION)).
  - rewrite py_div_nonzero by lra. cbn [mbind result_bind rbind].
    by rewrite py_max_Rmax, py_min_Rmin.
  - rewrite py_div_nonzero by lra. cbn [mbind result_bind rbind].
    by rewrite py_max_Rmax, py_min_Rmin.
Qed.

Lemma section_share_unit s v : unit_interval (section_share s v).
Proof. apply spec_clamp_range. Qed.

Lemma normalise_known (raw : dict R) :
  dict_wf raw ->
  Forall (fun kv : string * R => kv.1 ∈ keys SECTION_META) raw ->
  normalise raw = Ok (map (fun kv : string * R => (kv.1, section_share kv.1 kv.2)) raw).
Proof.
  intros Hwf Hall. unfold normalise.
  rewrite (result_foldl_set normalise_entry fst
             (fun kv : string * R => section_share kv.1 kv.2)); [done| |done].
  intros acc x Hx. rewrite normalise_entry_value.
  rewrite Forall_forall in Hall.
  destruct (get_is_Some x.1 SECTION_META (Hall x Hx)) as [meta ->]. done.
Qed.

Lemma normalise_unknown (raw : dict R) :
  Exists (fun kv : string * R => kv.1 ∉ keys SECTION_META) raw ->
  forall acc, result_foldl normalise_entry acc raw = Raise KeyError.
Proof.
  induction 1 as [kv l Hkv|kv l Hl IH]; intros acc; cbn [result_foldl];
    rewrite normalise_entry_value.
  - destruct (get kv.1 SECTION_META) eqn:E; [|done].
    exfalso. by eapply Hkv, get_Some_keys.
  - destruct (get kv.1 SECTION_META); cbn [mbind result_bind rbind]; [apply IH|done].
Qed.

(** X17.  [normalise] has exactly one way to fail: KeyError, when a key of
    its argument is not a section of the table.  Otherwise the result has the
    keys of the argument, every value lies between 0 and 1, and the value
    of a section with raw score [v] is [v / 40] for APTITUDE and
    [(v + 40) / 80] for the others, cut off at 0 and 1. *)
Theorem bank_normalise_outcomes (raw : dict R) :
  dict_wf raw ->
  match normalise raw with
  | Ok norm =>
      Forall (fun kv : string * R => kv.1 ∈ keys SECTION_META) raw /\
      norm = map (fun kv : string * R => (kv.1, section_share kv.1 kv.2)) raw /\
      keys norm = keys raw /\
      Forall (fun kv : string * R => unit_interval kv.2) norm
  | Raise e =>
      e = KeyError /\
      Exists (fun kv : string * R => kv.1 ∉ keys SECTION_META) raw
  end.
Proof.
  intros Hwf.
  destruct (decide (Forall (fun kv : string * R => kv.1 ∈ keys SECTION_META) raw))
    as [Hall|Hex].
  - rewrite (normalise_known _ Hwf Hall). split; [done|]. split; [done|]. split.
    + apply (Shares.keys_map_values (fun kv => section_share kv.1 kv.2)).
    + apply Forall_forall. intros x Hx.
      apply list_elem_of_fmap in Hx as [kv [-> _]]. apply section_share_unit.
  - apply not_Forall_Exists in Hex; [|intros kv; apply _].
    unfold normalise. rewrite normalise_unknown; [by split|].
    eapply Exists_impl; [exact Hex|]. intros kv H. exact H.
Qed.

Lemma bank_normalise_outcomes_witness :
  let raw : dict R := [("APTITUDE"%string, 30); ("OPENNESS"%string, -10)] in
  dict_wf raw /\
  match normalise raw with
  | Ok norm =>
      Forall (fun kv : string * R => kv.1 ∈ keys SECTION_META) raw /\
      norm = map (fun kv : string * R => (kv.1, section_share kv.1 kv.2)) raw /\
      keys norm = keys raw /\
      Forall (fun kv : string * R => unit_interval kv.2) norm
  | Raise e =>
      e = KeyError /\
      Exists (fun kv : string * R => kv.1 ∉ keys SECTION_META) raw
  end.
Proof.
  intros raw.
  assert (H : dict_wf raw).
  { unfold dict_wf. apply (bool_decide_unpack _). by vm_compute. }
  split; [exact H|]. exact (bank_normalise_outcomes raw H).
Defined.

End SectionScores.

(** ** CJL/scoring.py: the cluster percentages *)

Module ClusterScores.
Import PyFloat PyFloatFacts Numeric NumericMore Activation Distribution Percentages.
Import Dict DictFacts Bank.
Local Open Scope R_scope.

Lemma get_default_nonneg (w : dict R) t :
  Forall (fun kv : string * R => 0 <= kv.2) w -> 0 <= get_default t 0 w.
Proof.
  intros Hw. unfold get_default. induction Hw as [|[k v] w Hv Hw IH]; simpl; [lra|].
  destruct (decide (t = k)); [done|apply IH].
Qed.

Lemma cluster_dot_nonneg (w trait_vec : dict R) :
  Forall (fun kv : string * R => 0 <= kv.2) w ->
  Forall (fun kv : string * R => unit_interval kv.2) trait_vec ->
  0 <= cluster_dot w trait_vec.
Proof.
  intros Hw Htv. unfold cluster_dot. apply rsum_nonneg, Forall_forall.
  intros x Hx. apply list_elem_of_fmap in Hx as [t [-> _]].
  apply Rmult_le_pos; [by apply get_default_nonneg|].
  by apply (Informative.get_default_unit trait_vec t).
Qed.

Lemma cluster_weights_nonneg :
  Forall (fun cc : string * cluster =>
            Forall (fun kv : string * R => 0 <= kv.2) (c_weights cc.2))
         CAREER_CLUSTERS.
Proof.
  unfold CAREER_CLUSTERS.
  repeat (apply List.Forall_cons;
          [cbn [snd c_weights];
           repeat (apply List.Forall_cons; [cbn [snd]; lra|]); apply List.Forall_nil|]).
  apply List.Forall_nil.
Qed.

(** On a non-negative weighted sum the activation of CJL does not overflow. *)
Lemma cjl_sigmoid_nonneg x :
  0 <= x -> Scoring._sigmoid x = Ok (1 / (1 + fexp (- 12 * (x - 0.5)))).
Proof.
  intros Hx. rewrite cjl_sigmoid_value.
  assert (He : exp (- 12 * (x - 0.5)) <= 3 ^ 6)
    by (apply exp_le_pow3; simpl; lra).
  pose proof DBL_MAX_ge. simpl in He.
  destruct (Rlt_dec DBL_MAX (- 12 * (x - 0.5))); [lra|].
  destruct (Rlt_dec DBL_MAX _); [lra|done].
Qed.

Lemma cluster_activation_unit trait_vec cfg :
  0 <= cluster_activation trait_vec cfg <= 1.
Proof.
  unfold cluster_activation. destruct (Rlt_dec DBL_MAX _); [lra|].
  pose proof (logistic_range _ (fexp_nonneg (cluster_exponent trait_vec cfg))).
  lra.
Qed.

(** On a non-negative weighted sum the exponent is at most 6. *)
Lemma cluster_activation_nonneg (trait_vec : dict R) (cfg : cluster) :
  0 <= cluster_dot (c_weights cfg) trait_vec ->
  cluster_activation trait_vec cfg =
  1 / (1 + fexp (- 12 * (cluster_dot (c_weights cfg) trait_vec - 0.5))).
Proof.
  intros Hdot. unfold cluster_activation, cluster_exponent.
  pose proof DBL_MAX_ge. destruct (Rlt_dec DBL_MAX _); [lra|done].
Qed.

Lemma cluster_activations_value (trait_vec : dict R) :
  Forall (fun kv : string * R => unit_interval kv.2) trait_vec ->
  result_foldl
    (fun (activations : dict R) (cc : string * cluster) =>
       let w := c_weights cc.2 in
       let dot := cluster_dot w trait_vec in
       a ← Scoring._sigmoid dot;
       Ok (set cc.1 a activations))
    [] CAREER_CLUSTERS = Ok (cluster_activations trait_vec).
Proof.
  intros Htv.
  rewrite (result_foldl_set _ fst
             (fun cc : string * cluster => cluster_activation trait_vec cc.2));
    [done| |].
  - intros acc cc Hcc. cbv zeta.
    pose proof cluster_weights_nonneg as Hw. rewrite Forall_forall in Hw.
    assert (Hdot : 0 <= cluster_dot (c_weights cc.2) trait_vec)
      by (apply cluster_dot_nonneg; auto).
    rewrite (cjl_sigmoid_nonneg _ Hdot). cbn [mbind result_bind rbind fst].
    by rewrite (cluster_activation_nonneg _ _ Hdot).
  - cbn [keys map app]. apply (bool_decide_unpack _). by vm_compute.
Qed.

Lemma cluster_activations_in_range (trait_vec : dict R) :
  in_range 5 (cluster_activations trait_vec).
Proof.
  split.
  - unfold cluster_activations, CAREER_CLUSTERS. cbn [map].
    apply Exists_cons_hd. cbn [snd].
    pose proof (cluster_activation_unit trait_vec
                  (mk_cluster
                     [("apt"%string, 0.35); ("I"%string, 0.30); ("C"%string, 0.15);
                      ("O"%string, 0.10); ("E"%string, 0.02); ("A"%string, 0.02);
                      ("stab"%string, 0.03); ("R"%string, 0.03)]
                     ["Software Engineer"%string; "Data Scientist"%string;
                      "AI Researcher"%string; "Systems Analyst"%string])) as Ha.
    match goal with
    | |- DBL_UNDERFLOW < exp ?z =>
        assert (H1 : exp 0 <= exp z) by (apply exp_le_mono; lra)
    end.
    rewrite exp_0 in H1. pose proof DBL_UNDERFLOW_lt_1. lra.
  - unfold cluster_activations. rewrite map_map. cbn [snd].
    etrans.
    { apply (rsum_map_le _ (fun _ => 243)). intros cc.
      pose proof (cluster_activation_unit trait_vec cc.2) as Ha.
      assert (He : exp (cluster_activation trait_vec cc.2 * 5) <= 3 ^ 5)
        by (apply exp_le_pow3; simpl; lra).
      simpl in He. lra. }
    unfold CAREER_CLUSTERS. cbn [map]. unfold Engine.rsum. cbn [foldl].
    pose proof DBL_MAX_ge_million. lra.
Qed.

Lemma compute_cluster_scores_value (trait_vec : dict R) :
  Forall (fun kv : string * R => unit_interval kv.2) trait_vec ->
  compute_cluster_scores trait_vec =
  Ok (map (fun kv : string * R =>
             (kv.1, xshare (xtotal_of 5 (cluster_activations trait_vec))
                           (fexp (kv.2 * 5))))
          (cluster_activations trait_vec)).
Proof.
  intros Htv. unfold compute_cluster_scores.
  match goal with
  | |- mbind _ ?m = _ =>
      assert (Hm : m = Ok (cluster_activations trait_vec))
        by apply (cluster_activations_value _ Htv)
  end.
  rewrite Hm. cbn [mbind result_bind rbind].
  apply cjl_softmax_finite, in_range_no_overflow, cluster_activations_in_range.
Qed.

Lemma cluster_activations_keys trait_vec :
  keys (cluster_activations trait_vec) = keys CAREER_CLUSTERS.
Proof.
  apply (Shares.keys_map_values (fun cc => cluster_activation trait_vec cc.2)).
Qed.

(** X18.  For a trait vector with values between 0 and 1
    [compute_cluster_scores] returns, although the activation and the
    distribution of CJL have no guard against overflow: the weighted sums
    are non-negative, so no exponential leaves the range.  The result
    has the fifteen clusters of the table as keys, in the order of the
    table; every value is a finite percentage between 0 and 100, and the
    percentages add up to 100 within 0.075. *)
Theorem compute_cluster_scores_total (trait_vec : dict R) :
  Forall (fun kv : string * R => unit_interval kv.2) trait_vec ->
  exists probs ps,
    compute_cluster_scores trait_vec = Ok probs /\
    keys probs = keys CAREER_CLUSTERS /\
    Forall (fun kv : string * xfloat => is_percentage kv.2) probs /\
    values probs = map Fin ps /\
    Rabs (Engine.rsum ps - 100) <= 0.075.
Proof.
  intros Htv. rewrite (compute_cluster_scores_value _ Htv).
  set (acts := cluster_activations trait_vec).
  destruct (softmax_in_range_conclusion 5 acts _
              (cluster_activations_in_range trait_vec) eq_refl)
    as (Hk & Hv & _ & Hsum).
  eexists _, (percentages_of 5 acts). split; [reflexivity|].
  split; [by rewrite Hk; apply cluster_activations_keys|].
  split; [apply Shares.shares_percentages|]. split; [exact Hv|].
  assert (Hlen : INR (length acts) = 15).
  { unfold acts, cluster_activations. rewrite length_map.
    unfold CAREER_CLUSTERS. cbn [length]. simpl. lra. }
  rewrite Hlen in Hsum. lra.
Qed.

Lemma compute_cluster_scores_total_witness :
  let trait_vec : dict R := [("apt"%string, 0.75); ("I"%string, 1)] in
  Forall (fun kv : string * R => unit_interval kv.2) trait_vec /\
  exists probs ps,
    compute_cluster_scores trait_vec = Ok probs /\
    keys probs = keys CAREER_CLUSTERS /\
    Forall (fun kv : string * xfloat => is_percentage kv.2) probs /\
    values probs = map Fin ps /\
    Rabs (Engine.rsum ps - 100) <= 0.075.
Proof.
  intros trait_vec.
  assert (H : Forall (fun kv : string * R => unit_interval kv.2) trait_vec).
  { repeat (apply List.Forall_cons; [unfold unit_interval; simpl; lra|]).
    apply List.Forall_nil. }
  split; [exact H|]. exact (compute_cluster_scores_total trait_vec H).
Defined.

(** One step of the loop over the clusters. *)
Lemma cluster_step (trait_vec : dict R) (activations : dict R)
    (cc : string * cluster) :
  (let w := c_weights cc.2 in
   let dot := cluster_dot w trait_vec in
   a ← Scoring._sigmoid dot;
   Ok (set cc.1 a activations)) =
  if decide (cluster_overflows trait_vec cc) then Raise OverflowError
  else Ok (set cc.1 (cluster_activation trait_vec cc.2) activations).
Proof.
  cbv zeta. rewrite cjl_sigmoid_value.
  unfold cluster_overflows, cluster_activation, exp_raises.
  fold (cluster_exponent trait_vec cc.2).
  destruct (Rlt_dec DBL_MAX (cluster_exponent trait_vec cc.2)) as [Hinf|Hfin].
  - rewrite decide_False by lra. done.
  - destruct (Rlt_dec DBL_MAX (exp (cluster_exponent trait_vec cc.2))) as [Ho|Ho].
    + rewrite decide_True by lra. done.
    + rewrite decide_False by lra. done.
Qed.

Lemma cluster_loop_overflow (trait_vec : dict R) (l : dict cluster) :
  Exists (cluster_overflows trait_vec) l ->
  forall acc,
    result_foldl
      (fun (activations : dict R) (cc : string * cluster) =>
         let w := c_weights cc.2 in
         let dot := cluster_dot w trait_vec in
         a ← Scoring._sigmoid dot;
         Ok (set cc.1 a activations))
      acc l = Raise OverflowError.
Proof.
  induction 1 as [cc l Hcc|cc l Hl IH]; intros acc; cbn [result_foldl];
    rewrite cluster_step.
  - by rewrite decide_True.
  - destruct (decide (cluster_overflows trait_vec cc));
      cbn [mbind result_bind rbind]; [done|apply IH].
Qed.

Lemma cluster_loop_finite (trait_vec : dict R) :
  Forall (fun cc => ~ cluster_overflows trait_vec cc) CAREER_CLUSTERS ->
  result_foldl
    (fun (activations : dict R) (cc : string * cluster) =>
       let w := c_weights cc.2 in
       let dot := cluster_dot w trait_vec in
       a ← Scoring._sigmoid dot;
       Ok (set cc.1 a activations))
    [] CAREER_CLUSTERS = Ok (cluster_activations trait_vec).
Proof.
  intros Hfin.
  rewrite (result_foldl_set _ fst
             (fun cc : string * cluster => cluster_activation trait_vec cc.2));
    [done| |].
  - intros acc cc Hcc. rewrite cluster_step.
    rewrite Forall_forall in Hfin. by rewrite decide_False by auto.
  - cbn [keys map app]. apply (bool_decide_unpack _). by vm_compute.
Qed.

(** X23.  [compute_cluster_scores] fails in exactly one way: it raises
    OverflowError when, for some cluster, the exponent in the activation of
    the weighted sum is a finite double whose exponential is out of range.
    In every other case it returns the fifteen clusters, in table order,
    with finite percentages between 0 and 100: an exponent that is itself
    +inf gives the activation 0.0 without raising, and the second
    exponential, of an activation times 5, is always in range. *)
Theorem compute_cluster_scores_outcomes (trait_vec : dict R) :
  match compute_cluster_scores trait_vec with
  | Ok probs =>
      Forall (fun cc => ~ cluster_overflows trait_vec cc) CAREER_CLUSTERS /\
      keys probs = keys CAREER_CLUSTERS /\
      Forall (fun kv : string * xfloat => is_percentage kv.2) probs
  | Raise e =>
      e = OverflowError /\
      Exists (cluster_overflows trait_vec) CAREER_CLUSTERS
  end.
Proof.
  unfold compute_cluster_scores.
  destruct (decide (Forall (fun cc => ~ cluster_overflows trait_vec cc)
                           CAREER_CLUSTERS)) as [Hfin|Hex].
  - match goal with
    | |- match mbind _ ?m with _ => _ end =>
        assert (Hm : m = Ok (cluster_activations trait_vec))
          by apply (cluster_loop_finite _ Hfin)
    end.
    rewrite Hm. cbn [mbind result_bind rbind].
    rewrite cjl_softmax_finite
      by apply in_range_no_overflow, cluster_activations_in_range.
    split; [done|]. split.
    + rewrite (Shares.keys_map_values (fun kv => xshare _ (fexp (kv.2 * 5)))).
      apply cluster_activations_keys.
    + apply Shares.shares_percentages.
  - apply not_Forall_Exists in Hex; [|intros cc; apply _].
    assert (Hex' : Exists (cluster_overflows trait_vec) CAREER_CLUSTERS).
    { eapply Exists_impl; [exact Hex|]. intros cc Hcc. cbn in Hcc.
      destruct (decide (cluster_overflows trait_vec cc)); [done|].
      by destruct Hcc. }
    match goal with
    | |- match mbind _ ?m with _ => _ end =>
        assert (Hm : m = Raise OverflowError)
          by apply (cluster_loop_overflow _ _ Hex')
    end.
    rewrite Hm. cbn [mbind result_bind rbind]. by split.
Qed.

End ClusterScores.

(** ** CJL/scoring.py and CJL-PRO/engine.py: the whole pipeline *)

Module Report.
Import PyFloat PyFloatFacts Numeric NumericMore Distribution.
Import Dict DictFacts Bank RawScores SectionScores ClusterScores.
Local Open Scope R_scope.

Lemma py_round3_unit x : unit_interval x -> unit_interval (py_round3 x).
Proof.
  unfold unit_interval, py_round3. intros Hx.
  assert (H0 : (0 <= round_half_even (x * 1000))%Z)
    by (apply round_half_even_nonneg; lra).
  assert (H1 : (round_half_even (x * 1000) <= 1000)%Z)
    by (apply round_half_even_le; lra).
  apply IZR_le in H0, H1. lra.
Qed.

(** From the answers to the normalised section scores. *)
Lemma bank_sections (questions : list question) (answers : gmap Z string) :
  exists raw norm,
    compute_raw_scores questions answers = Ok raw /\
    keys raw = keys SECTION_META /\
    normalise raw = Ok norm /\
    norm = map (fun kv : string * R => (kv.1, section_share kv.1 kv.2)) raw /\
    Forall (fun kv : string * R => unit_interval kv.2) norm.
Proof.
  unfold compute_raw_scores. cbv zeta.
  set (scores := map (fun s => (s, 0)) (keys SECTION_META)).
  assert (Hkeys : keys scores = keys SECTION_META).
  { unfold scores, keys. rewrite map_map. cbn [fst]. apply map_id. }
  destruct (compute_raw_scores_loop answers questions scores Hkeys)
    as (raw & Hraw & Hk & _).
  exists raw, (map (fun kv : string * R => (kv.1, section_share kv.1 kv.2)) raw).
  split; [done|]. split; [done|].
  assert (Hwf : dict_wf raw).
  { unfold dict_wf. rewrite Hk. apply (bool_decide_unpack _). by vm_compute. }
  assert (Hall : Forall (fun kv : string * R => kv.1 ∈ keys SECTION_META) raw).
  { apply Forall_forall. intros kv Hkv. rewrite <- Hk.
    unfold keys. apply list_elem_of_fmap. by exists kv. }
  split; [by apply normalise_known|]. split; [done|].
  apply Forall_forall. intros x Hx.
  apply list_elem_of_fmap in Hx as [kv [-> _]]. apply section_share_unit.
Qed.

Lemma build_trait_vector_unit (norm : dict R) :
  Forall (fun kv : string * R => unit_interval kv.2) norm ->
  Forall (fun kv : string * R => unit_interval kv.2) (build_trait_vector norm).
Proof.
  intros Hn. unfold build_trait_vector.
  pose proof (fun k => Informative.get_default_unit norm k Hn) as Hu.
  repeat (apply List.Forall_cons;
          [cbn [snd]; first [apply Hu | specialize (Hu "NEUROTICISM"%string);
                                        unfold unit_interval in *; lra]|]).
  apply List.Forall_nil.
Qed.

Lemma xltb_percentages (probs : dict xfloat) :
  Forall (fun kv : string * xfloat => is_percentage kv.2) probs ->
  key_order xltb (fun x : string * xfloat => x.2)
            (fun x : string * xfloat => real_of x.2) probs.
Proof.
  intros Hp a b Ha Hb. rewrite Forall_forall in Hp.
  destruct (Hp a Ha) as (ra & -> & _). destruct (Hp b Hb) as (rb & -> & _).
  cbn [xltb real_of]. destruct (Rlt_dec ra rb); split; try done.
Qed.

(** The report, in terms of the percentages of the clusters. *)
Lemma score_assessment_value (questions : list question) (answers : gmap Z string) :
  exists raw norm probs,
    compute_raw_scores questions answers = Ok raw /\
    keys raw = keys SECTION_META /\
    Forall (fun kv : string * R => unit_interval kv.2) norm /\
    compute_cluster_scores (build_trait_vector norm) = Ok probs /\
    keys probs = keys CAREER_CLUSTERS /\
    Forall (fun kv : string * xfloat => is_percentage kv.2) probs /\
    score_assessment questions answers =
    Ok {| raw_scores := raw;
          normalised_traits :=
            map (fun nk : string * string =>
                   (nk.1, py_round3 (get_default nk.2 0 (build_trait_vector norm))))
                [("aptitude", "apt"); ("openness", "O"); ("conscientiousness", "C");
                 ("extraversion", "E"); ("agreeableness", "A");
                 ("emotional_stability", "stab"); ("realistic", "R");
                 ("investigative", "I"); ("artistic", "Art")]%string;
          career_probabilities :=
            map (fun cp : string * xfloat => (cp.1, (cp.2, cluster_roles cp.1)))
                (sorted_reverse xltb (fun x : string * xfloat => x.2) probs);
          top_career_cluster :=
            match sorted_reverse xltb (fun x : string * xfloat => x.2) probs with
            | x :: _ => Some x.1
            | [] => None
            end |}.
Proof.
  destruct (bank_sections questions answers) as (raw & norm & Hraw & Hk & Hnorm & _ & Hunit).
  pose proof (build_trait_vector_unit norm Hunit) as Htv.
  pose proof (compute_cluster_scores_value _ Htv) as Hprobs.
  set (probs := map _ (cluster_activations (build_trait_vector norm))) in Hprobs.
  assert (Hkp : keys probs = keys CAREER_CLUSTERS).
  { unfold probs.
    rewrite (Shares.keys_map_values (fun kv => xshare _ (fexp (kv.2 * 5)))).
    apply cluster_activations_keys. }
  exists raw, norm, probs.
  do 3 (split; [done|]). split; [done|]. split; [done|].
  split; [apply Shares.shares_percentages|].
  unfold score_assessment. rewrite Hraw. cbn [mbind result_bind rbind].
  rewrite Hnorm. cbn [mbind result_bind rbind].
  rewrite Hprobs. cbn [mbind result_bind rbind].
  unfold build_trait_vector at 1 2 3 4 5 6 7 8 9. unfold getitem.
  cbn [get decide]. repeat (rewrite decide_True by done || rewrite decide_False by done).
  cbn [mbind result_bind rbind].
  rewrite (result_mapM_pure _
             (fun cp : string * xfloat => (cp.1, (cp.2, cluster_roles cp.1)))).
  { cbn [mbind result_bind rbind]. reflexivity. }
  intros cp Hcp. rewrite sorted_reverse_perm in Hcp.
  assert (Hin : cp.1 ∈ keys CAREER_CLUSTERS).
  { rewrite <- Hkp. unfold keys. apply list_elem_of_fmap. by exists cp. }
  destruct (get_is_Some _ _ Hin) as [cfg Hcfg].
  unfold getitem, cluster_roles. rewrite Hcfg. done.
Qed.

(** X19.  [score_assessment] returns a report for every question list and
    every answer map.  In the report the raw scores have the nine sections
    as keys; the nine traits carry their report names and values between 0
    and 1; the career probabilities list each of the fifteen clusters once,
    with a percentage between 0 and 100 and the roles of the table, in
    descending order of percentage; and the top cluster is the first of
    that list. *)
Theorem score_assessment_report (questions : list question) (answers : gmap Z string) :
  exists rep,
    score_assessment questions answers = Ok rep /\
    keys (raw_scores rep) = keys SECTION_META /\
    keys (normalised_traits rep) = report_names /\
    Forall (fun kv : string * R => unit_interval kv.2) (normalised_traits rep) /\
    keys (career_probabilities rep) ≡ₚ keys CAREER_CLUSTERS /\
    Forall (fun x : string * (xfloat * list string) =>
              is_percentage x.2.1 /\ x.2.2 = cluster_roles x.1)
           (career_probabilities rep) /\
    (forall (i j : nat) a b,
        (i < j)%nat ->
        career_probabilities rep !! i = Some a ->
        career_probabilities rep !! j = Some b ->
        real_of b.2.1 <= real_of a.2.1) /\
    exists first,
      career_probabilities rep !! 0%nat = Some first /\
      top_career_cluster rep = Some first.1.
Proof.
  destruct (score_assessment_value questions answers)
    as (raw & norm & probs & Hraw & Hk & Hunit & _ & Hkp & Hpct & ->).
  eexists. split; [reflexivity|]. cbn [raw_scores normalised_traits
    career_probabilities top_career_cluster].
  set (ranked := sorted_reverse xltb (fun x : string * xfloat => x.2) probs).
  assert (Hperm : ranked ≡ₚ probs) by apply sorted_reverse_perm.
  split; [done|]. split; [done|]. split.
  { pose proof (build_trait_vector_unit norm Hunit) as Htv.
    apply Forall_forall. intros x Hx.
    apply list_elem_of_fmap in Hx as [nk [-> _]]. cbn [snd].
    apply py_round3_unit. unfold get_default.
    destruct (get nk.2 (build_trait_vector norm)) as [v|] eqn:E; simpl.
    - clear -E Htv. rewrite Forall_forall in Htv.
      induction (build_trait_vector norm) as [|[k' v'] l IH]; [done|].
      simpl in E. destruct (decide (nk.2 = k')).
      + injection E as <-. apply (Htv (k', v')). left.
      + apply IH; [|done]. intros y Hy. apply Htv. by right.
    - unfold unit_interval. lra. }
  split.
  { unfold keys. rewrite map_map. cbn [fst].
    change (map (fun x : string * xfloat => x.1) ranked) with (keys ranked).
    unfold keys. rewrite Hperm. fold (keys probs). by rewrite Hkp. }
  split.
  { apply Forall_forall. intros x Hx.
    apply list_elem_of_fmap in Hx as [cp [-> Hcp]]. cbn [fst snd].
    split; [|done]. rewrite Hperm in Hcp. rewrite Forall_forall in Hpct.
    by apply (Hpct cp). }
  split.
  { intros i j a b Hij Ha Hb.
    rewrite list_lookup_fmap in Ha, Hb.
    destruct (ranked !! i) as [ra|] eqn:Ei; [|done].
    destruct (ranked !! j) as [rb|] eqn:Ej; [|done].
    injection Ha as <-. injection Hb as <-. cbn [fst snd].
    pose proof (sorted_reverse_stable xltb (fun x : string * xfloat => x.2)
                  (fun x : string * xfloat => real_of x.2) probs
                  (xltb_percentages probs Hpct)) as Hs.
    destruct (StronglySorted_pairs _ _ Hs i j ra rb Hij Ei Ej) as [H|[H _]]; lra. }
  destruct ranked as [|first rest] eqn:Er.
  { apply Permutation_length in Hperm.
    assert (Hlen : length probs = 15%nat).
    { rewrite <- (length_map fst probs). fold (keys probs). by rewrite Hkp. }
    rewrite Hlen in Hperm. done. }
  eexists. split; [reflexivity|done].
Qed.

Lemma get_map_keyed {V W : Type} (f : string -> V -> W) (d : dict V) k :
  get k (map (fun kv : string * V => (kv.1, f kv.1 kv.2)) d) = f k <$> get k d.
Proof.
  induction d as [|[k' v] d IH]; [done|]. cbn [map get fst snd].
  destruct (decide (k = k')) as [->|]; [done|apply IH].
Qed.

(** X24.  When no more questions are answered than the table of sections
    declares (40 for APTITUDE, 20 for every other section), [normalise]
    never cuts a raw score of [compute_raw_scores] off: the normalised
    score of a section with raw score [v] is exactly [v / 40] for APTITUDE
    and [(v + 40) / 80] for the others. *)
Theorem normalise_without_cut (questions : list question) (answers : gmap Z string) :
  (forall s, (answered_in answers questions s <= declared_size s)%Z) ->
  exists raw norm,
    compute_raw_scores questions answers = Ok raw /\
    normalise raw = Ok norm /\
    keys norm = keys SECTION_META /\
    forall s v,
      get s raw = Some v ->
      get s norm =
      Some (if decide (s = APTITUDE_SECTION) then v / 40 else (v + 40) / 80).
Proof.
  intros Hsize.
  destruct (RawScores.raw_scores_gained questions answers)
    as (raw & Hraw & Hk & Hall).
  destruct (bank_sections questions answers)
    as (raw' & norm & Hraw' & _ & Hnorm & -> & _).
  rewrite Hraw in Hraw'. injection Hraw' as <-.
  exists raw, (map (fun kv : string * R => (kv.1, section_share kv.1 kv.2)) raw).
  split; [done|]. split; [done|]. split.
  { by rewrite (Shares.keys_map_values (fun kv => section_share kv.1 kv.2)). }
  intros s v Hv. rewrite (get_map_keyed section_share), Hv.
  cbn [fmap option_fmap option_map]. f_equal.
  destruct (Hall s v Hv) as (z & -> & Hz).
  specialize (Hsize s). unfold total_bound in Hz.
  unfold declared_size in Hsize. unfold section_share, spec_clamp.
  destruct (decide (s = APTITUDE_SECTION)).
  - assert (H0 : (0 <= z)%Z) by lia. assert (H1 : (z <= 40)%Z) by lia.
    apply IZR_le in H0, H1.
    rewrite Rmin_right, Rmax_right by lra. done.
  - assert (H0 : (-40 <= z)%Z) by lia. assert (H1 : (z <= 40)%Z) by lia.
    apply IZR_le in H0, H1.
    rewrite Rmin_right, Rmax_right by lra. lra.
Qed.

Lemma normalise_without_cut_witness :
  let questions :=
    [mk_question 1 "APTITUDE" (Some "B"%string) None;
     mk_question 2 "OPENNESS" None (Some "negative"%string)] in
  let answers : gmap Z string := {[ 1%Z := "b"%string; 2%Z := "E"%string ]} in
  (forall s, (answered_in answers questions s <= declared_size s)%Z) /\
  exists raw norm,
    compute_raw_scores questions answers = Ok raw /\
    normalise raw = Ok norm /\
    keys norm = keys SECTION_META /\
    forall s v,
      get s raw = Some v ->
      get s norm =
      Some (if decide (s = APTITUDE_SECTION) then v / 40 else (v + 40) / 80).
Proof.
  intros questions answers.
  assert (H : forall s, (answered_in answers questions s <= declared_size s)%Z).
  { intros s. unfold answered_in, declared_size.
    pose proof (length_filter (counts_for answers s) questions) as Hl.
    cbn [length questions] in Hl. destruct (decide _); lia. }
  split; [exact H|]. exact (normalise_without_cut questions answers H).
Defined.

Lemma score_assessment_report_witness :
  let questions :=
    [mk_question 1 "APTITUDE" (Some "B"%string) None;
     mk_question 2 "OPENNESS" None (Some "negative"%string)] in
  let answers : gmap Z string := {[ 1%Z := "b"%string; 2%Z := "E"%string ]} in
  exists rep,
    score_assessment questions answers = Ok rep /\
    keys (raw_scores rep) = keys SECTION_META /\
    keys (normalised_traits rep) = report_names /\
    Forall (fun kv : string * R => unit_interval kv.2) (normalised_traits rep) /\
    keys (career_probabilities rep) ≡ₚ keys CAREER_CLUSTERS /\
    Forall (fun x : string * (xfloat * list string) =>
              is_percentage x.2.1 /\ x.2.2 = cluster_roles x.1)
           (career_probabilities rep) /\
    (forall (i j : nat) a b,
        (i < j)%nat ->
        career_probabilities rep !! i = Some a ->
        career_probabilities rep !! j = Some b ->
        real_of b.2.1 <= real_of a.2.1) /\
    exists first,
      career_probabilities rep !! 0%nat = Some first /\
      top_career_cluster rep = Some first.1.
Proof.
  intros questions answers.
  exact (score_assessment_report questions answers).
Defined.

End Report.

(** ** CJL-PRO/engine.py: the prior from the question bank *)

Module PriorFacts.
Import PyFloat PyFloatFacts Dict DictFacts Bank RawScores RawScoresInvariance.
Import SectionScores Report Prior.
Local Open Scope R_scope.

Lemma prior_value (questions : list question) (answers : gmap Z string) :
  exists raw norm,
    compute_raw_scores questions answers = Ok raw /\
    norm = map (fun kv : string * R => (kv.1, section_share kv.1 kv.2)) raw /\
    Forall (fun kv : string * R => unit_interval kv.2) norm /\
    traits_from_bigfive_bank questions answers = Ok (build_trait_vector norm).
Proof.
  destruct (bank_sections questions answers)
    as (raw & norm & Hraw & Hk & Hnorm & Hmap & Hunit).
  exists raw, norm. do 3 (split; [done|]).
  unfold traits_from_bigfive_bank. rewrite Hraw. cbn [mbind result_bind rbind].
  rewrite Hnorm. cbn [mbind result_bind rbind].
  unfold build_trait_vector at 1 2 3 4 5 6 7 8 9. unfold getitem.
  cbn [get]. repeat (rewrite decide_True by done || rewrite decide_False by done).
  reflexivity.
Qed.

Lemma no_answers_no_scores (questions : list question) :
  forall scores,
    result_foldl (score_question ∅) scores questions = Ok scores.
Proof.
  induction questions as [|q qs IH]; intros scores; [done|].
  cbn [result_foldl]. rewrite score_question_skip.
  - cbn [mbind result_bind rbind]. apply IH.
  - intros [[a Ha] _]. by rewrite lookup_empty in Ha.
Qed.

(** X20.  [traits_from_bigfive_bank] returns for every question list and
    every answer map, with exactly the nine trait keys of the engine, in
    the engine's order, and with values between 0 and 1.  With no answers
    at all the prior is 0 for aptitude and 0.5 for every other trait. *)
Theorem traits_from_bigfive_bank_vector (questions : list question)
    (answers : gmap Z string) :
  (exists tv,
      traits_from_bigfive_bank questions answers = Ok tv /\
      keys tv = Engine.TRAIT_KEYS /\
      Forall (fun kv : string * R => unit_interval kv.2) tv) /\
  (exists tv0,
      traits_from_bigfive_bank questions ∅ = Ok tv0 /\
      Forall (fun kv : string * R =>
                kv.2 = if decide (kv.1 = "apt"%string) then 0 else 0.5) tv0).
Proof.
  split.
  - destruct (prior_value questions answers) as (raw & norm & _ & _ & Hunit & ->).
    eexists. split; [reflexivity|]. split; [done|].
    by apply build_trait_vector_unit.
  - destruct (prior_value questions ∅) as (raw & norm & Hraw & -> & _ & ->).
    eexists. split; [reflexivity|].
    unfold compute_raw_scores in Hraw. cbv zeta in Hraw.
    rewrite no_answers_no_scores in Hraw. injection Hraw as <-.
    unfold build_trait_vector, SECTION_META. cbn [keys map fst snd].
    assert (H0 : spec_clamp (0 / 40) 0 1 = 0).
    { unfold spec_clamp. rewrite Rmin_right, Rmax_left by lra. lra. }
    assert (H1 : spec_clamp ((0 + 40) / (2 * 40)) 0 1 = 0.5).
    { unfold spec_clamp. rewrite Rmin_right, Rmax_right by lra. lra. }
    unfold get_default, section_share, APTITUDE_SECTION. cbn [get fst snd].
    repeat (apply List.Forall_cons;
            [cbn [fst snd];
             repeat match goal with
                    | |- context [@decide (?a = ?b) ?i] =>
                        destruct (@decide (a = b) i) as [Heq|Hne];
                        [first [discriminate Heq|clear Heq]
                        |first [exfalso; by apply Hne|clear Hne]]
                    end;
             cbv [default from_option Datatypes.id]; rewrite ?H0, ?H1; lra|]).
    apply List.Forall_nil.
Qed.

End PriorFacts.

(** ** CJL/scoring.py: the stratified sample *)

Module Stratified.
Import Dict DictFacts Bank.

Lemma group_question_get (s : string) (qs : list question) :
  forall by_section : dict (list question),
    get_default s [] (foldl group_question by_section qs) =
    get_default s [] by_section ++ filter (fun q => q_section q = s) qs.
Proof.
  induction qs as [|q qs IH]; intros by_section; cbn [foldl].
  - rewrite filter_nil. by rewrite app_nil_r.
  - rewrite IH. unfold group_question. cbv zeta. unfold get_default at 1.
    destruct (decide (q_section q = s)) as [<-|Hne].
    + rewrite get_set_eq, filter_cons_True by done.
      cbn [default from_option Datatypes.id]. by rewrite <- app_assoc.
    + rewrite get_set_ne by done. rewrite filter_cons_False by done. done.
Qed.

Lemma filter_disjoint_app {A : Type} (P Q : A -> Prop)
    `{!forall x, Decision (P x)} `{!forall x, Decision (Q x)} (l : list A) :
  (forall x, P x -> Q x -> False) ->
  filter P l ++ filter Q l ⊆+ filter (fun x => P x \/ Q x) l.
Proof.
  intros Hdis. induction l as [|x l IH]; [done|].
  destruct (decide (P x)) as [HP|HP], (decide (Q x)) as [HQ|HQ].
  - by destruct (Hdis x).
  - rewrite (filter_cons_True P), (filter_cons_False Q) by done.
    rewrite filter_cons_True by (by left). cbn [app]. by apply submseteq_skip.
  - rewrite (filter_cons_False P), (filter_cons_True Q) by done.
    rewrite filter_cons_True by (by right).
    rewrite <- Permutation_middle. by apply submseteq_skip.
  - rewrite (filter_cons_False P), (filter_cons_False Q) by done.
    rewrite filter_cons_False by (intros [?|?]; done). done.
Qed.

Lemma get_default_absent (s : string) (counts : dict nat) :
  s ∉ keys counts -> get_default s 0 counts = 0.
Proof.
  intros Hs. unfold get_default. destruct (get s counts) eqn:E; [|done].
  by apply get_Some_keys in E.
Qed.

Lemma sampled_count all_questions (s : string) :
  forall (counts : dict nat) (chosen : list (list question)),
    dict_wf counts ->
    Forall2 (sampled all_questions) counts chosen ->
    length (filter (fun q => q_section q = s) (concat chosen)) =
    Nat.min (get_default s 0 counts)
            (length (filter (fun q => q_section q = s) all_questions)).
Proof.
  intros counts chosen Hwf HF.
  induction HF as [|[s' n'] c counts chosen [Hsub Hlen] HF IH]; [done|].
  apply NoDup_cons in Hwf as [Hs' Hwf]. specialize (IH Hwf).
  cbn [concat]. rewrite filter_app, length_app, IH.
  cbn [fst snd] in *. unfold get_default at 2. cbn [get].
  assert (Hc : forall q, q ∈ c -> q_section q = s').
  { intros q Hq. eapply elem_of_submseteq in Hq; [|exact Hsub].
    by apply list_elem_of_filter in Hq as [? _]. }
  destruct (decide (s = s')) as [->|Hne].
  - cbn [default from_option Datatypes.id].
    rewrite (get_default_absent s' counts Hs').
    assert (Hall : filter (fun q => q_section q = s') c = c).
    { clear -Hc. induction c as [|q c IH]; [done|].
      rewrite filter_cons_True by (apply Hc; left).
      f_equal. apply IH. intros y Hy. apply Hc. by right. }
    rewrite Hall, Hlen. lia.
  - assert (Hnone : filter (fun q => q_section q = s) c = []).
    { clear -Hc Hne. induction c as [|q c IH]; [done|].
      rewrite filter_cons_False by (rewrite (Hc q) by left; congruence).
      apply IH. intros y Hy. apply Hc. by right. }
    rewrite Hnone. done.
Qed.

Lemma sampled_submseteq all_questions :
  forall (counts : dict nat) (chosen : list (list question)),
    dict_wf counts ->
    Forall2 (sampled all_questions) counts chosen ->
    concat chosen ⊆+ filter (fun q => q_section q ∈ keys counts) all_questions.
Proof.
  intros counts chosen Hwf HF.
  induction HF as [|[s' n'] c counts chosen [Hsub _] HF IH].
  { cbn [concat]. apply submseteq_nil_l. }
  apply NoDup_cons in Hwf as [Hs' Hwf]. specialize (IH Hwf).
  cbn [concat fst] in *.
  etrans; [apply submseteq_app; [exact Hsub|exact IH]|].
  etrans; [apply filter_disjoint_app|].
  { intros q Hq Hin. apply Hs'. by rewrite <- Hq. }
  erewrite list_filter_iff; [done|].
  intros q. cbn [keys map fst]. rewrite elem_of_cons. done.
Qed.

Section sampling.
Context {rng : Type}.
Context (sample : rng -> list question -> nat -> list question * rng).
Context (shuffle : rng -> list question -> list question * rng).
Hypothesis sample_spec :
  forall g l k, k <= length l ->
    (sample g l k).1 ⊆+ l /\ length (sample g l k).1 = k.
Hypothesis shuffle_spec : forall g l, (shuffle g l).1 ≡ₚ l.

Lemma sample_loop (all_questions : list question) (counts : dict nat) :
  forall (acc : list question) (g : rng),
    exists chosen,
      (foldl (sample_section sample (foldl group_question [] all_questions))
             (acc, g) counts).1 = acc ++ concat chosen /\
      Forall2 (sampled all_questions) counts chosen.
Proof.
  induction counts as [|[s n] counts IH]; intros acc g; cbn [foldl].
  { exists []. split; [by rewrite app_nil_r|constructor]. }
  unfold sample_section at 2. cbn [fst snd].
  rewrite group_question_get. cbn [get_default get default app].
  set (pool := filter (fun q => q_section q = s) all_questions).
  pose proof (sample_spec g pool (Nat.min n (length pool)) ltac:(lia)) as [Hsub Hlen].
  destruct (sample g pool (Nat.min n (length pool))) as [c g'] eqn:Es.
  cbn [fst] in Hsub, Hlen.
  destruct (IH (acc ++ c) g') as (chosen & Hres & HF).
  exists (c :: chosen). split.
  - rewrite Hres. cbn [concat]. by rewrite app_assoc.
  - constructor; [|done]. split; done.
Qed.

(** X21.  [select_adaptive_questions] draws a stratified sample: what it
    returns is a sub-multiset of the question bank (no question is taken
    twice), and for every section the number of selected questions is the
    smaller of the count asked for and the number of questions the bank has
    in that section; sections that are not asked for contribute nothing. *)
Theorem select_adaptive_questions_stratified (g : rng)
    (all_questions : list question) (n_per_section : option (dict nat)) :
  let counts := default default_n_per_section n_per_section in
  let selected :=
    (select_adaptive_questions sample shuffle g all_questions n_per_section).1 in
  dict_wf counts ->
  selected ⊆+ all_questions /\
  forall s,
    length (filter (fun q => q_section q = s) selected) =
    Nat.min (get_default s 0 counts)
            (length (filter (fun q => q_section q = s) all_questions)).
Proof.
  intros counts selected Hwf. unfold selected, select_adaptive_questions.
  fold counts.
  destruct (sample_loop all_questions counts [] g) as (chosen & Hres & HF).
  destruct (foldl _ ([], g) counts) as [sel g'] eqn:Ef.
  cbn [fst app] in Hres. subst sel.
  pose proof (shuffle_spec g' (concat chosen)) as Hperm.
  split.
  - rewrite Hperm. etrans; [by apply sampled_submseteq|].
    apply sublist_submseteq, sublist_filter.
  - intros s. rewrite Hperm. by apply sampled_count.
Qed.

End sampling.

Lemma select_adaptive_questions_stratified_witness :
  let sample := fun (g : list nat) (l : list question) (k : nat) => (take k l, g) in
  let shuffle := fun (g : list nat) (l : list question) => (Random.shuffle g l, g) in
  let bank := [mk_question 1 "APTITUDE" (Some "B"%string) None;
               mk_question 2 "OPENNESS" None (Some "negative"%string);
               mk_question 3 "OPENNESS" None None] in
  let counts := default default_n_per_section None in
  let selected := (select_adaptive_questions sample shuffle [3; 1; 4] bank None).1 in
  (forall g l k, k <= length l ->
     (sample g l k).1 ⊆+ l /\ length (sample g l k).1 = k) /\
  (forall g l, (shuffle g l).1 ≡ₚ l) /\
  dict_wf counts /\
  selected ⊆+ bank /\
  forall s,
    length (filter (fun q => q_section q = s) selected) =
    Nat.min (get_default s 0 counts)
            (length (filter (fun q => q_section q = s) bank)).
Proof.
  intros sample shuffle bank counts selected.
  assert (H1 : forall g l k, k <= length l ->
                 (sample g l k).1 ⊆+ l /\ length (sample g l k).1 = k).
  { intros g l k Hk. cbn [sample fst]. split; [apply submseteq_take|].
    rewrite length_take. lia. }
  assert (H2 : forall g l, (shuffle g l).1 ≡ₚ l).
  { intros g l. apply RandomFacts.shuffle_perm. }
  assert (H3 : dict_wf counts).
  { unfold dict_wf. apply (bool_decide_unpack _). by vm_compute. }
  split; [exact H1|]. split; [exact H2|]. split; [exact H3|].
  exact (select_adaptive_questions_stratified sample shuffle H1 H2 [3; 1; 4]
           bank None H3).
Defined.

End Stratified.

(** ** The distribution builder when exponentials overflow *)

Module OverflowSplit.
Import PyFloat PyFloatFacts Numeric Distribution Engine Dict DictFacts.
Local Open Scope R_scope.

(** X22.  As soon as the exponential of one score overflows, [_softmax] of
    CJL-PRO ignores the sizes of the scores: every candidate whose
    exponential overflowed gets the same share, 100 divided by their
    number, and every other candidate gets 0. *)
Theorem pro_softmax_overflow_split (scores : dict R) (T : R) :
  dict_wf scores ->
  overflowed T scores <> [] ->
  exists out,
    _softmax scores T = Ok out /\
    keys out = keys scores /\
    forall k v,
      (k, v) ∈ scores ->
      get k out =
      Some (Fin (if decide (overflows T v)
                 then 100 / INR (length (overflowed T scores)) else 0)).
Proof.
  intros Hwf Hne. rewrite (pro_softmax_overflow _ _ Hwf Hne).
  eexists. split; [reflexivity|].
  split; [apply (Shares.keys_map_values (fun kv => Fin _))|].
  intros k v Hkv.
  apply get_elem_of.
  - unfold dict_wf.
    by rewrite (Shares.keys_map_values (fun kv => Fin _)).
  - apply list_elem_of_fmap. by exists (k, v).
Qed.

Lemma pro_softmax_overflow_split_witness :
  let scores : dict R := [("a"%string, 1000); ("b"%string, 0)] in
  dict_wf scores /\
  overflowed default_temperature scores <> [] /\
  exists out,
    _softmax scores default_temperature = Ok out /\
    keys out = keys scores /\
    forall k v,
      (k, v) ∈ scores ->
      get k out =
      Some (Fin (if decide (overflows default_temperature v)
                 then 100 / INR (length (overflowed default_temperature scores))
                 else 0)).
Proof.
  intros scores.
  assert (H1 : dict_wf scores).
  { unfold dict_wf. apply (bool_decide_unpack _). by vm_compute. }
  assert (H2 : overflowed default_temperature scores <> []).
  { intros Hnil.
    assert (Hin : ("a"%string, 1000) ∈ overflowed default_temperature scores).
    { apply list_elem_of_filter. split; [|left].
      unfold overflows, default_temperature. cbn [snd].
      apply exp_overflows. lra. }
    rewrite Hnil in Hin. by apply elem_of_nil in Hin. }
  split; [exact H1|]. split; [exact H2|].
  exact (pro_softmax_overflow_split scores default_temperature H1 H2).
Defined.

End OverflowSplit.

(** ** Overflow in the two variants, as the code has it *)

Module Saturation.
Import PyFloat PyFloatFacts Numeric NumericMore Activation Distribution.
Import Dict DictFacts.
Local Open Scope R_scope.

(** C2, as the code has it.  The activation of CJL-PRO returns a value
    between 0 and 1 for every real input and every sharpness.  When its
    exponent is a finite double whose exponential is out of range it returns
    0 for [x < 0.5] and 1 otherwise; when the exponent is itself +inf it
    returns 0; for a non-negative sharpness, such as the default 10.0, the
    two agree, and it returns 0 for [x < 0.5] and 1 otherwise whenever the
    exponential is out of range.  The
    activation of CJL has no such guard: it raises OverflowError exactly
    when its exponent is a finite double whose exponential is out of range,
    and returns a value between 0 and 1 otherwise.  On every non-negative
    argument, which is what [compute_cluster_scores] passes to it, the
    exponential does not overflow and the value is in (0, 1].  No exception
    leaves [score_nodes] of CJL-PRO, whatever the candidates and the trait
    vector, nor [compute_cluster_scores] of CJL on a trait vector with
    values between 0 and 1, nor [score_assessment] of CJL, whatever the
    questions and the answers. *)
Theorem activation_returns :
  (forall x sharpness : R,
      exists v,
        Engine._sigmoid x sharpness = Ok v /\ 0 <= v <= 1 /\
        (exp_raises (exponent sharpness x) ->
         v = if Rlt_dec x 0.5 then 0 else 1) /\
        (DBL_MAX < exponent sharpness x -> v = 0) /\
        (0 <= sharpness -> DBL_MAX < exp (exponent sharpness x) ->
         v = if Rlt_dec x 0.5 then 0 else 1)) /\
  (forall x : R,
      match Scoring._sigmoid x with
      | Ok v => 0 <= v <= 1 /\ ~ exp_raises (- 12 * (x - 0.5))
      | Raise e => e = OverflowError /\ exp_raises (- 12 * (x - 0.5))
      end) /\
  (forall x : R,
      0 <= x ->
      ~ DBL_MAX < exp (- 12 * (x - 0.5)) /\
      exists v, Scoring._sigmoid x = Ok v /\ 0 < v <= 1) /\
  (forall (nodes : dict Engine.node) (norm_traits : dict R),
      dict_wf nodes ->
      exists probs, Engine.score_nodes nodes norm_traits = Ok probs) /\
  (forall trait_vec : dict R,
      Forall (fun kv : string * R => unit_interval kv.2) trait_vec ->
      exists probs, Bank.compute_cluster_scores trait_vec = Ok probs) /\
  (forall (questions : list Bank.question) (answers : gmap Z string),
      exists rep, Bank.score_assessment questions answers = Ok rep).
Proof.
  split; [|split; [|split; [|split; [|split]]]].
  - intros x sharpness.
    destruct (pro_sigmoid_total x sharpness) as (v & Hv & Hrange).
    exists v. split; [exact Hv|]. split; [exact Hrange|].
    split; [|split].
    + intros [Hfin Hov]. rewrite pro_sigmoid_outcome in Hv.
      destruct (Rlt_dec DBL_MAX (exponent sharpness x)); [lra|].
      destruct (Rlt_dec DBL_MAX (exp (exponent sharpness x))); [|lra].
      congruence.
    + intros Hinf. rewrite pro_sigmoid_outcome in Hv.
      destruct (Rlt_dec DBL_MAX (exponent sharpness x)); [|lra].
      congruence.
    + intros Hs Hov. rewrite (pro_sigmoid_saturates _ _ Hs Hov) in Hv.
      congruence.
  - intros x. rewrite cjl_sigmoid_value. unfold exp_raises.
    destruct (Rlt_dec DBL_MAX (- 12 * (x - 0.5))) as [Hinf|Hfin]; [lra|].
    destruct (Rlt_dec DBL_MAX (exp (- 12 * (x - 0.5)))) as [Hov|Hfit].
    + split; [done|lra].
    + pose proof (logistic_range _ (fexp_nonneg (- 12 * (x - 0.5)))). lra.
  - intros x Hx.
    assert (He : exp (- 12 * (x - 0.5)) <= 3 ^ 6)
      by (apply exp_le_pow3; simpl; lra).
    pose proof DBL_MAX_ge as HM. simpl in He. split; [lra|].
    rewrite (ClusterScores.cjl_sigmoid_nonneg _ Hx). eexists.
    split; [reflexivity|]. apply logistic_range, fexp_nonneg.
  - intros nodes norm_traits Hwf. rewrite (Ranking.score_nodes_value _ _ Hwf).
    by eexists.
  - intros trait_vec Htv.
    rewrite (ClusterScores.compute_cluster_scores_value _ Htv). by eexists.
  - intros questions answers.
    destruct (Report.score_assessment_value questions answers)
      as (raw & norm & probs & _ & _ & _ & _ & _ & _ & ->).
    by eexists.
Qed.

Lemma activation_returns_witness :
  let nodes : dict Engine.node :=
    [("Science"%string, Engine.mk_node "Empirical inquiry" (Some [("I"%string, 0.35)]))] in
  let trait_vec : dict R := [("apt"%string, 0.75); ("I"%string, 1)] in
  (exists v,
      Engine._sigmoid (-1000) Engine.default_sharpness = Ok v /\ 0 <= v <= 1 /\
      (exp_raises (exponent Engine.default_sharpness (-1000)) ->
       v = if Rlt_dec (-1000) 0.5 then 0 else 1) /\
      (DBL_MAX < exponent Engine.default_sharpness (-1000) -> v = 0) /\
      (0 <= Engine.default_sharpness ->
       DBL_MAX < exp (exponent Engine.default_sharpness (-1000)) ->
       v = if Rlt_dec (-1000) 0.5 then 0 else 1)) /\
  match Scoring._sigmoid (-1000) with
  | Ok v => 0 <= v <= 1 /\ ~ exp_raises (- 12 * (-1000 - 0.5))
  | Raise e => e = OverflowError /\ exp_raises (- 12 * (-1000 - 0.5))
  end /\
  0 <= 0.3 /\
  (~ DBL_MAX < exp (- 12 * (0.3 - 0.5)) /\
   exists v, Scoring._sigmoid 0.3 = Ok v /\ 0 < v <= 1) /\
  dict_wf nodes /\
  (exists probs, Engine.score_nodes nodes Engine.empty_traits = Ok probs) /\
  Forall (fun kv : string * R => unit_interval kv.2) trait_vec /\
  (exists probs, Bank.compute_cluster_scores trait_vec = Ok probs).
Proof.
  intros nodes trait_vec.
  destruct activation_returns as (Hpro & Hall & Hcjl & Hnodes & Hclusters & _).
  assert (H1 : 0 <= 0.3) by lra.
  assert (H2 : dict_wf nodes).
  { unfold dict_wf. apply (bool_decide_unpack _). by vm_compute. }
  assert (H3 : Forall (fun kv : string * R => unit_interval kv.2) trait_vec).
  { repeat (apply List.Forall_cons; [unfold unit_interval; simpl; lra|]).
    apply List.Forall_nil. }
  split; [exact (Hpro (-1000) Engine.default_sharpness)|].
  split; [exact (Hall (-1000))|].
  split; [exact H1|]. split; [exact (Hcjl 0.3 H1)|].
  split; [exact H2|]. split; [exact (Hnodes nodes Engine.empty_traits H2)|].
  split; [exact H3|]. exact (Hclusters trait_vec H3).
Defined.

(** C3, as the code has it.  When the exponential of at least one score
    overflows, [_softmax] of CJL-PRO returns, without raising and without
    nan, 100 divided by the number of overflowed candidates for each of
    them and exactly 0 for every other candidate.  [_softmax] of CJL has no
    such rule: it raises OverflowError when, for some value, the product
    with 5 is a finite double whose exponential is out of range.  On the
    mappings it is given, activations between 0 and 1, no exponential
    overflows, and it returns finite percentages between 0 and 100 for the
    keys of its argument. *)
Theorem softmax_overflow_rule :
  (forall (scores : dict R) (T : R),
      dict_wf scores ->
      overflowed T scores <> [] ->
      Engine._softmax scores T =
      Ok (map (fun kv : string * R =>
                 (kv.1, Fin (if decide (overflows T kv.2)
                             then 100 / INR (length (overflowed T scores))
                             else 0)))
              scores)) /\
  (forall values : dict R,
      Exists (fun kv : string * R => exp_raises (kv.2 * 5)) values ->
      Scoring._softmax values = Raise OverflowError) /\
  (forall values : dict R,
      Forall (fun kv : string * R => unit_interval kv.2) values ->
      overflowed 5 values = [] /\
      exists out,
        Scoring._softmax values = Ok out /\
        keys out = keys values /\
        Forall (fun kv : string * xfloat => is_percentage kv.2) out).
Proof.
  split; [|split].
  - intros scores T Hwf Hne. by apply pro_softmax_overflow.
  - intros values Hex. by apply cjl_softmax_raises.
  - intros values Hunit.
    assert (Hnil : overflowed 5 values = []).
    { apply overflowed_nil_Forall. eapply Forall_impl; [exact Hunit|].
      intros kv [_ Hle]. unfold overflows.
      assert (He : exp (kv.2 * 5) <= 3 ^ 5) by (apply exp_le_pow3; simpl; lra).
      pose proof DBL_MAX_ge. simpl in He. lra. }
    split; [done|]. rewrite (cjl_softmax_finite _ Hnil). eexists.
    split; [reflexivity|]. split.
    + apply (Shares.keys_map_values (fun kv => xshare _ (fexp (kv.2 * 5)))).
    + apply Shares.shares_percentages.
Qed.

Lemma softmax_overflow_rule_witness :
  let scores : dict R := [("a"%string, 1000); ("b"%string, 1000); ("c"%string, 0)] in
  let values : dict R := [("a"%string, 1); ("b"%string, 0.5)] in
  dict_wf scores /\
  overflowed Engine.default_temperature scores <> [] /\
  Engine._softmax scores Engine.default_temperature =
    Ok (map (fun kv : string * R =>
               (kv.1, Fin (if decide (overflows Engine.default_temperature kv.2)
                           then 100 / INR (length (overflowed
                                                     Engine.default_temperature scores))
                           else 0)))
            scores) /\
  Exists (fun kv : string * R => exp_raises (kv.2 * 5)) scores /\
  Scoring._softmax scores = Raise OverflowError /\
  Forall (fun kv : string * R => unit_interval kv.2) values /\
  overflowed 5 values = [] /\
  exists out,
    Scoring._softmax values = Ok out /\
    keys out = keys values /\
    Forall (fun kv : string * xfloat => is_percentage kv.2) out.
Proof.
  intros scores values.
  destruct softmax_overflow_rule as (Hpro & Hraise & Hcjl).
  assert (H0 : Exists (fun kv : string * R => exp_raises (kv.2 * 5)) scores).
  { apply Exists_cons_hd. cbn [snd]. split.
    - pose proof DBL_MAX_ge_million. lra.
    - apply exp_overflows. lra. }
  assert (H1 : dict_wf scores).
  { unfold dict_wf. apply (bool_decide_unpack _). by vm_compute. }
  assert (H2 : overflowed Engine.default_temperature scores <> []).
  { intros Hnil.
    assert (Hin : ("a"%string, 1000) ∈ overflowed Engine.default_temperature scores).
    { apply list_elem_of_filter. split; [|left].
      unfold overflows, Engine.default_temperature. cbn [snd].
      apply exp_overflows. lra. }
    rewrite Hnil in Hin. by apply elem_of_nil in Hin. }
  assert (H3 : Forall (fun kv : string * R => unit_interval kv.2) values).
  { repeat (apply List.Forall_cons; [unfold unit_interval; simpl; lra|]).
    apply List.Forall_nil. }
  split; [exact H1|]. split; [exact H2|].
  split; [exact (Hpro scores Engine.default_temperature H1 H2)|].
  split; [exact H0|]. split; [exact (Hraise scores H0)|].
  split; [exact H3|]. exact (Hcjl values H3).
Defined.

End Saturation.
